(** * GraphRAG entity store: upsert-merge and bounded graph traversal

    A shallow embedding of [langchain_mongodb/graphrag/graph.py]:
    [MongoDBGraphStore.add_documents] (the [UpdateOne] upserts with
    [$setOnInsert] and [$addToSet]) and [MongoDBGraphStore.related_entities]
    (the aggregation pipeline around [$graphLookup]).

    The Python code only builds update and pipeline documents; the
    collection executes them.  The collection is therefore modelled here as
    an ordered list of BSON documents together with an interpreter for the
    query conditions, update operators, expressions and pipeline stages that
    the source uses, following the MongoDB manual: equality and [$in]
    conditions, dot notation in update paths, [$setOnInsert], [$addToSet]
    with and without [$each], upserts, ordered bulk writes, [$match],
    [$graphLookup], [$unwind], [$replaceRoot], [$group] with [$first],
    [$project], [$reduce], [$objectToArray] and [$concatArrays].

    Where the manual leaves an order open (the array built by
    [$graphLookup], the output of [$group]) the interpreter produces the
    order of first appearance; the properties proved below do not depend on
    it.  Writes are executed one after the other. *)

From Stdlib Require Import ZArith Ascii String List Bool Lia.
From stdpp Require Import base tactics option list.
Import ListNotations.
Local Open Scope string_scope.
Local Open Scope list_scope.

(** ** BSON values *)

Module Bson.

(** Values as the driver exchanges them.  JSON produced by the extraction
    model gives every constructor except [VOid]; [VOid] is the [ObjectId]
    the collection assigns to [_id].  Floating point numbers are left out.
    Documents keep their field order, as BSON does. *)
Unset Elimination Schemes.
Inductive value : Type :=
| VNull
| VBool (b : bool)
| VInt (z : Z)
| VStr (s : string)
| VOid (n : nat)
| VArr (l : list value)
| VDoc (fs : list (string * value)).
Set Elimination Schemes.

Definition document := list (string * value).

Section ValueInd.
Variable P : value → Prop.
Hypothesis Hnull : P VNull.
Hypothesis Hbool : ∀ b, P (VBool b).
Hypothesis Hint : ∀ z, P (VInt z).
Hypothesis Hstr : ∀ s, P (VStr s).
Hypothesis Hoid : ∀ n, P (VOid n).
Hypothesis Harr : ∀ l, Forall P l → P (VArr l).
Hypothesis Hdoc : ∀ fs, Forall (λ kv, P (snd kv)) fs → P (VDoc fs).

Fixpoint value_induction (v : value) : P v :=
  match v with
  | VNull => Hnull
  | VBool b => Hbool b
  | VInt z => Hint z
  | VStr s => Hstr s
  | VOid n => Hoid n
  | VArr l =>
      Harr l ((fix go (l : list value) : Forall P l :=
                 match l with
                 | [] => Forall_nil_2 P
                 | x :: l' => Forall_cons_2 P x l' (value_induction x) (go l')
                 end) l)
  | VDoc fs =>
      Hdoc fs ((fix go (fs : document) : Forall (λ kv, P (snd kv)) fs :=
                  match fs with
                  | [] => Forall_nil_2 _
                  | kv :: fs' =>
                      Forall_cons_2 (λ kv, P (snd kv)) kv fs'
                        (value_induction (snd kv)) (go fs')
                  end) fs)
  end.
End ValueInd.

(** Structural equality; two documents are equal only with the same fields
    in the same order, which is how the store compares embedded documents. *)
Fixpoint value_eqb (x y : value) {struct x} : bool :=
  match x, y with
  | VNull, VNull => true
  | VBool a, VBool b => Bool.eqb a b
  | VInt a, VInt b => Z.eqb a b
  | VStr a, VStr b => String.eqb a b
  | VOid a, VOid b => Nat.eqb a b
  | VArr l, VArr m =>
      (fix go (l m : list value) : bool :=
         match l, m with
         | [], [] => true
         | a :: l', b :: m' => value_eqb a b && go l' m'
         | _, _ => false
         end) l m
  | VDoc f, VDoc g =>
      (fix go (f g : document) : bool :=
         match f, g with
         | [], [] => true
         | (k, a) :: f', (k', b) :: g' =>
             String.eqb k k' && value_eqb a b && go f' g'
         | _, _ => false
         end) f g
  | _, _ => false
  end.

Lemma value_eqb_spec (x y : value) : value_eqb x y = true ↔ x = y.
Proof.
  revert y. induction x as [| | | | |l IH|fs IH] using value_induction;
    intros y; destruct y;
    simpl; try (split; [discriminate|congruence]); try tauto.
  - rewrite Bool.eqb_true_iff. split; congruence.
  - rewrite Z.eqb_eq. split; congruence.
  - rewrite String.eqb_eq. split; congruence.
  - rewrite Nat.eqb_eq. split; congruence.
  - rename l0 into m. revert m.
    induction IH as [|a l Ha _ IHl]; intros [|b m];
      try (split; [discriminate|congruence]); [tauto|].
    rewrite andb_true_iff, Ha, (IHl m). split.
    + intros [-> E]. congruence.
    + intros E. injection E as -> ->. tauto.
  - rename fs0 into g. revert g.
    induction IH as [|[k a] f Ha _ IHf]; intros [|[k' b] g];
      try (split; [discriminate|congruence]); [tauto|].
    simpl in Ha.
    rewrite !andb_true_iff, String.eqb_eq, Ha, (IHf g). split.
    + intros [[-> ->] E]. congruence.
    + intros E. injection E as -> -> ->. tauto.
Qed.

#[global] Instance value_eq_dec : EqDecision value.
Proof.
  intros x y. destruct (value_eqb x y) eqn:E.
  - left. by apply value_eqb_spec.
  - right. intros H. apply value_eqb_spec in H. congruence.
Defined.

Lemma value_eqb_refl (x : value) : value_eqb x x = true.
Proof. by apply value_eqb_spec. Qed.

Lemma value_eqb_neq (x y : value) : value_eqb x y = false ↔ x ≠ y.
Proof.
  rewrite <- value_eqb_spec. destruct (value_eqb x y); split; congruence.
Qed.

End Bson.

Export Bson.

(** ** Exceptions *)

(** The calls into the driver either return or raise.  [BulkWriteError] is
    what [Collection.bulk_write] raises when an operation is rejected;
    [InvalidOperation] is raised for an empty batch; [OperationFailure] is
    what [Collection.aggregate] raises. *)
Inductive exn : Type :=
| BulkWriteError
| InvalidOperation
| OperationFailure.

Inductive result (A : Type) : Type :=
| Ok (x : A)
| Raise (e : exn).
Arguments Ok {A} x.
Arguments Raise {A} e.

#[global] Instance result_ret : MRet result := λ A x, Ok x.
#[global] Instance result_bind : MBind result := λ A B k r,
  match r with
  | Ok x => k x
  | Raise e => Raise e
  end.

Fixpoint mapM {A B : Type} (f : A → result B) (l : list A) : result (list B) :=
  match l with
  | [] => Ok []
  | x :: l' => y ← f x; ys ← mapM f l'; Ok (y :: ys)
  end.

(** ** Documents: field access *)

Module Fields.

(** First field carrying the name [k]. *)
Fixpoint get_field (k : string) (d : document) : option value :=
  match d with
  | [] => None
  | (k', v) :: d' => if String.eqb k' k then Some v else get_field k d'
  end.

(** Assignment to a field: an existing field keeps its position, a new one
    goes last.  This is also how a Python [dict] takes [d[k] = v]. *)
Fixpoint set_field (k : string) (v : value) (d : document) : document :=
  match d with
  | [] => [(k, v)]
  | (k', v') :: d' =>
      if String.eqb k' k then (k, v) :: d' else (k', v') :: set_field k v d'
  end.

Fixpoint remove_field (k : string) (d : document) : document :=
  match d with
  | [] => []
  | (k', v) :: d' =>
      if String.eqb k' k then remove_field k d' else (k', v) :: remove_field k d'
  end.

Definition mem (x : value) (l : list value) : bool := existsb (value_eqb x) l.

End Fields.
Export Fields.

(** ** Field paths *)

Module Path.

(** A dotted path is cut at every ["."]. *)
Fixpoint split_on (sep : ascii) (s : string) : list string :=
  match s with
  | EmptyString => [EmptyString]
  | String c s' =>
      if Ascii.eqb c sep then EmptyString :: split_on sep s'
      else match split_on sep s' with
           | [] => [String c EmptyString]
           | x :: xs => String c x :: xs
           end
  end.

Definition split_path (p : string) : list string := split_on "."%char p.

Definition is_digit (c : ascii) : bool :=
  let n := nat_of_ascii c in (48 <=? n)%nat && (n <=? 57)%nat.

Fixpoint all_digits (s : string) : bool :=
  match s with
  | EmptyString => true
  | String c s' => is_digit c && all_digits s'
  end.

Fixpoint digits_value (acc : nat) (s : string) : nat :=
  match s with
  | EmptyString => acc
  | String c s' => digits_value (10 * acc + (nat_of_ascii c - 48)) s'
  end.

(** Dot notation: below an array, a component that is a decimal numeral
    (["0"], ["12"]; not ["01"]) addresses the element at that position, as in
    [{"$set": {"tags.1": ..}}]. *)
Definition parse_index (c : string) : option nat :=
  match c with
  | EmptyString => None
  | String "0" (String _ _) => None
  | _ => if all_digits c then Some (digits_value 0 c) else None
  end.

Fixpoint ends_with (a : ascii) (s : string) : bool :=
  match s with
  | EmptyString => false
  | String c EmptyString => Ascii.eqb c a
  | String _ s' => ends_with a s'
  end.

(** The positional operators: ["$"], ["$[]"] and ["$[<identifier>]"]. *)
Definition positional (c : string) : bool :=
  match c with
  | String "$" EmptyString => true
  | String "$" (String "[" rest) => ends_with "]" rest
  | _ => false
  end.

(** Components of an update path must be named.  A component that starts
    with ["$"] is a field name like any other (["pricing.$discount"]),
    except the positional operators: they need an array match in the filter
    or an array filter, which the updates issued here never carry. *)
Definition valid_component (c : string) : bool :=
  match c with
  | EmptyString => false
  | _ => negb (positional c)
  end.

Fixpoint is_prefix (p q : list string) : bool :=
  match p, q with
  | [], _ => true
  | a :: p', b :: q' => String.eqb a b && is_prefix p' q'
  | _ :: _, [] => false
  end.

(** Two update paths conflict when one leads through the other. *)
Definition conflict (p q : list string) : bool := is_prefix p q || is_prefix q p.

Fixpoint conflict_free (ps : list (list string)) : bool :=
  match ps with
  | [] => true
  | p :: ps' => forallb (λ q, negb (conflict p q)) ps' && conflict_free ps'
  end.

End Path.
Export Path.

(** ** The collection: queries and update operators *)

Module Mongo.

Record Collection : Type := {
  name : string;
  docs : list document;   (* in natural (insertion) order *)
  next_oid : nat          (* the next [ObjectId] to hand out *)
}.

(** *** Query predicates *)

(** Equality on a field: the stored value is the queried one, or is an array
    holding it; [null] also matches an absent field. *)
Definition eq_match (q : value) (v : option value) : bool :=
  match v with
  | None => value_eqb q VNull
  | Some y => value_eqb y q || match y with VArr ys => mem q ys | _ => false end
  end.

(** A condition is a plain value (equality) or [{"$in": [...]}]. *)
Definition cond_match (q : value) (v : option value) : bool :=
  match q with
  | VDoc [(op, VArr l)] =>
      if String.eqb op "$in" then existsb (λ x, eq_match x v) l
      else eq_match q v
  | _ => eq_match q v
  end.

(** A filter over top-level fields: every condition must hold. *)
Definition matches (flt : document) (d : document) : bool :=
  forallb (λ kq, cond_match (snd kq) (get_field (fst kq) d)) flt.

(** *** Update operators *)

Record update_spec : Type := {
  setOnInsert : document;   (* "$setOnInsert" *)
  addToSet : document       (* "$addToSet" *)
}.

Record UpdateOne : Type := {
  filter : document;
  update : update_spec;
  upsert : bool
}.

(** Write into position [i] of an array, padding with [null]. *)
Definition set_index (i : nat) (v : value) (l : list value) : list value :=
  if (i <? length l)%nat then <[i := v]> l
  else l ++ replicate (i - length l) VNull ++ [v].

(** Walk [path] below [cur] ([None]: nothing is stored there yet), apply
    [leaf] at its end and rebuild the values on the way back.  Below a
    document a component names a field, below an array it must be a
    position; missing documents are created, missing positions are padded
    with [null], and a scalar on the way is an error. *)
Fixpoint update_path (leaf : option value → result value) (path : list string)
    (cur : option value) {struct path} : result value :=
  match path with
  | [] => leaf cur
  | c :: rest =>
      match cur with
      | None => v ← update_path leaf rest None; Ok (VDoc [(c, v)])
      | Some (VDoc fs) =>
          v ← update_path leaf rest (get_field c fs); Ok (VDoc (set_field c v fs))
      | Some (VArr l) =>
          match parse_index c with
          | Some i => v ← update_path leaf rest (l !! i); Ok (VArr (set_index i v l))
          | None => Raise BulkWriteError
          end
      | Some _ => Raise BulkWriteError
      end
  end.

(** [$addToSet] appends each new element that the array does not hold yet. *)
Fixpoint add_each (new : list value) (arr : list value) : list value :=
  match new with
  | [] => arr
  | x :: new' => add_each new' (if mem x arr then arr else arr ++ [x])
  end.

Definition add_leaf (new : list value) (cur : option value) : result value :=
  match cur with
  | None => Ok (VArr (add_each new []))
  | Some (VArr l) => Ok (VArr (add_each new l))
  | Some _ => Raise BulkWriteError   (* $addToSet on a non-array field *)
  end.

Definition set_leaf (v : value) (_ : option value) : result value := Ok v.

(** The operand of [$addToSet]: [{"$each": [..]}] adds the elements one by
    one, anything else is added as one element. *)
Definition each_arg (arg : value) : result (list value) :=
  match arg with
  | VDoc ((k, a) :: rest) =>
      if String.eqb k "$each" then
        match a, rest with
        | VArr l, [] => Ok l
        | _, _ => Raise BulkWriteError
        end
      else Ok [arg]
  | _ => Ok [arg]
  end.

Definition apply_at (leaf : option value → result value) (p : string)
    (d : document) : result document :=
  r ← update_path leaf (split_path p) (Some (VDoc d));
  match r with
  | VDoc d' => Ok d'
  | _ => Raise BulkWriteError
  end.

Fixpoint apply_set (spec : document) (d : document) : result document :=
  match spec with
  | [] => Ok d
  | (p, v) :: spec' => d' ← apply_at (set_leaf v) p d; apply_set spec' d'
  end.

Fixpoint apply_addToSet (spec : document) (d : document) : result document :=
  match spec with
  | [] => Ok d
  | (p, arg) :: spec' =>
      new ← each_arg arg;
      d' ← apply_at (add_leaf new) p d;
      apply_addToSet spec' d'
  end.

(** The update is parsed as a whole before anything is written. *)
Definition valid_update (u : update_spec) : bool :=
  let paths := map (λ kv, split_path (fst kv)) (setOnInsert u ++ addToSet u) in
  forallb (forallb valid_component) paths && conflict_free paths.

Definition apply_update (u : update_spec) (inserting : bool) (d : document)
    : result document :=
  if valid_update u then
    d1 ← (if inserting then apply_set (setOnInsert u) d else Ok d);
    apply_addToSet (addToSet u) d1
  else Raise BulkWriteError.

(** *** update_one with upsert, and ordered bulk writes *)

Definition is_operator (q : value) : bool :=
  match q with
  | VDoc ((String c _, _) :: _) => Ascii.eqb c "$"%char
  | _ => false
  end.

(** The document an upsert starts from: a fresh [_id], then the equality
    conditions of the filter. *)
Definition new_document (flt : document) (oid : nat) : document :=
  ("_id", VOid oid) :: List.filter (λ kq, negb (is_operator (snd kq))) flt.

(** Rewrite the first document that matches [flt]; [None] when none does. *)
Fixpoint update_first (flt : document) (f : document → result document)
    (ds : list document) : option (result (list document)) :=
  match ds with
  | [] => None
  | d :: ds' =>
      if matches flt d then Some (d' ← f d; Ok (d' :: ds'))
      else match update_first flt f ds' with
           | Some r => Some (ds'' ← r; Ok (d :: ds''))
           | None => None
           end
  end.

Record BulkWriteResult : Type := {
  matched_count : nat;
  upserted_count : nat
}.

Definition no_writes : BulkWriteResult :=
  {| matched_count := 0; upserted_count := 0 |}.

Definition execute (op : UpdateOne) (c : Collection) (acc : BulkWriteResult)
    : result (Collection * BulkWriteResult) :=
  match update_first (filter op) (apply_update (update op) false) (docs c) with
  | Some r =>
      ds ← r;
      Ok ({| name := name c; docs := ds; next_oid := next_oid c |},
          {| matched_count := S (matched_count acc);
             upserted_count := upserted_count acc |})
  | None =>
      if upsert op then
        d ← apply_update (update op) true (new_document (filter op) (next_oid c));
        Ok ({| name := name c; docs := docs c ++ [d];
               next_oid := S (next_oid c) |},
            {| matched_count := matched_count acc;
               upserted_count := S (upserted_count acc) |})
      else Ok (c, acc)
  end.

(** Operations run in order; the first one that is rejected stops the batch
    and the writes made before it stay. *)
Fixpoint run_ops (ops : list UpdateOne) (c : Collection) (acc : BulkWriteResult)
    : Collection * result BulkWriteResult :=
  match ops with
  | [] => (c, Ok acc)
  | op :: ops' =>
      match execute op c acc with
      | Ok (c', acc') => run_ops ops' c' acc'
      | Raise e => (c, Raise e)
      end
  end.

(** [Collection.bulk_write]; the driver refuses an empty list of requests. *)
Definition bulk_write (ops : list UpdateOne) (c : Collection)
    : Collection * result BulkWriteResult :=
  match ops with
  | [] => (c, Raise InvalidOperation)
  | _ => run_ops ops c no_writes
  end.

End Mongo.
Export Mongo.

(** ** Aggregation: expressions *)

Module Aggregation.

(** The expression operators that the traversal pipeline uses. *)
Unset Elimination Schemes.
Inductive expr : Type :=
| EField (path : list string)               (* "$a.b" *)
| EVar (x : string) (path : list string)    (* "$$x.a.b" *)
| ELit (v : value)
| EReduce (input initialValue body : expr)  (* "$reduce", body is "in" *)
| EObjectToArray (e : expr)
| EConcatArrays (es : list expr).
Set Elimination Schemes.

(** A field path read inside a document.  Below an array the rest of the
    path is read in every element that is a document, and the values found
    are collected. *)
Fixpoint eval_path (path : list string) (fs : document) {struct path}
    : option value :=
  match path with
  | [] => Some (VDoc fs)
  | c :: rest =>
      match rest with
      | [] => get_field c fs
      | _ :: _ =>
          match get_field c fs with
          | Some (VDoc g) => eval_path rest g
          | Some (VArr l) =>
              Some (VArr (omap (λ e, match e with
                                     | VDoc g => eval_path rest g
                                     | _ => None
                                     end) l))
          | _ => None
          end
      end
  end.

(** The same for a path below a value that is already at hand. *)
Definition path_in (path : list string) (v : option value) : option value :=
  match path with
  | [] => v
  | _ :: _ =>
      match v with
      | Some (VDoc fs) => eval_path path fs
      | Some (VArr l) =>
          Some (VArr (omap (λ e, match e with
                                 | VDoc g => eval_path path g
                                 | _ => None
                                 end) l))
      | _ => None
      end
  end.

Definition env := list (string * option value).

Fixpoint lookup_var (x : string) (vars : env) : option (option value) :=
  match vars with
  | [] => None
  | (y, v) :: vars' => if String.eqb y x then Some v else lookup_var x vars'
  end.

Definition nullish (v : option value) : bool :=
  match v with
  | None | Some VNull => true
  | _ => false
  end.

(** The loop of [$reduce]: [step this value] gives the next [value]. *)
Fixpoint reduce_loop (step : value → option value → result (option value))
    (l : list value) (acc : option value) : result (option value) :=
  match l with
  | [] => Ok acc
  | this :: l' => acc' ← step this acc; reduce_loop step l' acc'
  end.

(** Evaluation gives a value, nothing ([None]: the field is missing), or
    fails. *)
Fixpoint eval (root : document) (vars : env) (e : expr) {struct e}
    : result (option value) :=
  match e with
  | EField path => Ok (eval_path path root)
  | EVar x path =>
      match lookup_var x vars with
      | Some v => Ok (path_in path v)
      | None => Raise OperationFailure
      end
  | ELit v => Ok (Some v)
  | EObjectToArray e1 =>
      v ← eval root vars e1;
      match v with
      | None | Some VNull => Ok (Some VNull)
      | Some (VDoc fs) =>
          Ok (Some (VArr (map (λ kv, VDoc [("k", VStr (fst kv)); ("v", snd kv)]) fs)))
      | Some _ => Raise OperationFailure
      end
  | EReduce input initialValue body =>
      i ← eval root vars input;
      match i with
      | None | Some VNull => Ok (Some VNull)
      | Some (VArr l) =>
          v0 ← eval root vars initialValue;
          reduce_loop
            (λ this acc,
               eval root (("this", Some this) :: ("value", acc) :: vars) body)
            l v0
      | Some _ => Raise OperationFailure
      end
  | EConcatArrays es =>
      (fix go (es : list expr) (acc : list value) : result (option value) :=
         match es with
         | [] => Ok (Some (VArr acc))
         | e1 :: es' =>
             v ← eval root vars e1;
             match v with
             | None | Some VNull => Ok (Some VNull)
             | Some (VArr l) => go es' (acc ++ l)
             | Some _ => Raise OperationFailure
             end
         end) es []
  end.

(** Top-level evaluation binds [$$ROOT]. *)
Definition eval_in (d : document) (e : expr) : result (option value) :=
  eval d [("ROOT", Some (VDoc d))] e.

(** ** Aggregation: stages *)

Inductive stage : Type :=
| SMatch (flt : document)
| SGraphLookup (from : string) (startWith : expr)
    (connectFromField connectToField as_field : string) (maxDepth : Z)
| SUnwind (field : string)
| SReplaceRoot (newRoot : expr)
| SGroup (key : expr) (out : string) (first : expr)
    (* {"_id": key, out: {"$first": first}} *)
| SProject (excluded : list string).   (* {f: 0} for each f *)

(** *** $graphLookup *)

(** The values a found document contributes to the next frontier: the
    content of [connectFromField], arrays element by element. *)
Definition field_values (f : string) (d : document) : list value :=
  match get_field f d with
  | None => []
  | Some (VArr l) => l
  | Some v => [v]
  end.

(** A document is reached from the frontier when its [connectToField] holds
    a frontier value (or is an array holding one); here an absent field is
    not reached, not even from [null]. *)
Definition reached (frontier : list value) (f : string) (d : document) : bool :=
  match get_field f d with
  | None => false
  | Some y => existsb (λ x, eq_match x (Some y)) frontier
  end.

Definition same_id (d r : document) : bool :=
  match get_field "_id" d, get_field "_id" r with
  | Some a, Some b => value_eqb a b
  | None, None => true
  | _, _ => false
  end.

(** One found document: skipped when its [_id] was visited already,
    otherwise recorded, and its outgoing values join the next frontier. *)
Definition visit (from_field : string)
    (st : list document * list value * bool) (r : document)
    : list document * list value * bool :=
  let '(visited, frontier, added) := st in
  if existsb (λ d, same_id d r) visited then st
  else (visited ++ [r], frontier ++ field_values from_field r, true).

(** Breadth-first search; [fuel] is the number of further rounds that
    [maxDepth] still allows after this one. *)
Fixpoint search (coll : list document) (from_field to_field : string)
    (fuel : nat) (frontier : list value) (visited : list document)
    : list document :=
  let found := List.filter (reached frontier to_field) coll in
  let '(visited', frontier', added) :=
    fold_left (visit from_field) found (visited, [], false) in
  if added then
    match fuel with
    | O => visited'
    | S n => search coll from_field to_field n frontier' visited'
    end
  else visited'.

Definition start_values (v : option value) : list value :=
  match v with
  | None => [VNull]
  | Some (VArr l) => l
  | Some x => [x]
  end.

Definition graph_lookup (coll : list document) (startWith : expr)
    (from_field to_field as_field : string) (depth : nat) (d : document)
    : result document :=
  v ← eval_in d startWith;
  Ok (set_field as_field
        (VArr (map VDoc (search coll from_field to_field depth (start_values v) [])))
        d).

(** *** $unwind, $replaceRoot, $group, $project *)

Definition unwind (f : string) (d : document) : list document :=
  match get_field f d with
  | None | Some VNull => []
  | Some (VArr l) => map (λ x, set_field f x d) l
  | Some _ => [d]
  end.

Definition replace_root (e : expr) (d : document) : result document :=
  v ← eval_in d e;
  match v with
  | Some (VDoc d') => Ok d'
  | _ => Raise OperationFailure
  end.

Definition or_null (v : option value) : value :=
  match v with
  | Some x => x
  | None => VNull
  end.

(** Rows are (group key, value to keep); the first row of each key stays. *)
Fixpoint first_per_key (rows : list (value * value)) (seen : list value)
    : list (value * value) :=
  match rows with
  | [] => []
  | (k, v) :: rows' =>
      if mem k seen then first_per_key rows' seen
      else (k, v) :: first_per_key rows' (k :: seen)
  end.

Definition group_row (key first : expr) (d : document) : result (value * value) :=
  k ← eval_in d key;
  v ← eval_in d first;
  Ok (or_null k, or_null v).

Definition group (key : expr) (out : string) (first : expr)
    (ds : list document) : result (list document) :=
  rows ← mapM (group_row key first) ds;
  Ok (map (λ kv, [("_id", fst kv); (out, snd kv)]) (first_per_key rows [])).

Definition project_out (excluded : list string) (d : document) : document :=
  fold_left (λ acc f, remove_field f acc) excluded d.

(** *** Running a pipeline *)

(** [from] names a collection of the database; the graph store has only
    its own, and a name that resolves to nothing is an empty collection. *)
Definition resolve (c : Collection) (from : string) : list document :=
  if String.eqb from (name c) then docs c else [].

Definition run_stage (c : Collection) (s : stage) (ds : list document)
    : result (list document) :=
  match s with
  | SMatch flt => Ok (List.filter (matches flt) ds)
  | SGraphLookup from sw cf ct out depth =>
      mapM (graph_lookup (resolve c from) sw cf ct out (Z.to_nat depth)) ds
  | SUnwind f => Ok (concat (map (unwind f) ds))
  | SReplaceRoot e => mapM (replace_root e) ds
  | SGroup key out first => group key out first ds
  | SProject ex => Ok (map (project_out ex) ds)
  end.

(** A pipeline is parsed before it runs; [maxDepth] must not be negative. *)
Definition valid_stage (s : stage) : bool :=
  match s with
  | SGraphLookup _ _ _ _ _ depth => (0 <=? depth)%Z
  | _ => true
  end.

Fixpoint run_stages (c : Collection) (p : list stage) (ds : list document)
    : result (list document) :=
  match p with
  | [] => Ok ds
  | s :: p' => ds' ← run_stage c s ds; run_stages c p' ds'
  end.

(** [Collection.aggregate]. *)
Definition aggregate (c : Collection) (p : list stage) : result (list document) :=
  if forallb valid_stage p then run_stages c p (docs c)
  else Raise OperationFailure.

End Aggregation.
Export Aggregation.

(** ** The graph store (graph.py) *)

Module GraphStore.

(** Modelled from the spec: the entity schema ([graphrag/schema.py] is not
    among the sources).  An extracted entity carries an identifier and a
    type (strings), properties (attribute name to value) and relationships
    (relationship type to the list of target descriptors, each a document
    with a ["target"] and optional ["properties"]).  The two mappings are
    Python dicts, given by their items in insertion order; the source reads
    them with [entity.get(.., {})], so an absent mapping is the empty one. *)
Record Entity : Type := {
  ID : string;
  type : string;
  properties : list (string * value);
  relationships : list (string * list value)
}.

(** [langchain_core.documents.Document], as far as it is read here. *)
Record Document : Type := { page_content : string }.

(** The attributes of [MongoDBGraphStore] that the two methods use. *)
Record MongoDBGraphStore : Type := {
  collection : Collection;
  max_depth : Z
}.

(** Python dict displays: items are assigned in order, a repeated key
    overwrites. *)
Definition dict_of (items : list (string * value)) : document :=
  fold_left (λ acc kv, set_field (fst kv) (snd kv) acc) items [].

Definition dict_merge (a b : document) : document :=
  fold_left (λ acc kv, set_field (fst kv) (snd kv) acc) b a.

(** The [UpdateOne] that [add_documents] builds for one entity. *)
Definition operation (entity : Entity) : UpdateOne :=
  {| filter := [("ID", VStr (ID entity))];
     update :=
       {| setOnInsert := [("ID", VStr (ID entity)); ("type", VStr (type entity))];
          addToSet :=
            dict_merge
              (dict_of (map (λ kv, (("properties." ++ fst kv)%string, snd kv))
                          (properties entity)))
              (dict_of (map (λ kv, (("relationships." ++ fst kv)%string,
                                    VDoc [("$each", VArr (snd kv))]))
                          (relationships entity))) |};
     upsert := true |}.

(** [documents: Union[Document, List[Document]]] *)
Inductive documents_arg : Type :=
| One (d : Document)
| Many (ds : list Document).

Definition as_list (a : documents_arg) : list Document :=
  match a with
  | One d => [d]
  | Many ds => ds
  end.

Section Methods.
(** [extract_entities] asks the language model; here it is any function
    from the text to the entities found. *)
Variable extract_entities : string → list Entity.

(** The loop of [add_documents]: the collection is threaded through, and
    an exception of [bulk_write] ends the call with the writes made so
    far in place. *)
Fixpoint add_documents_loop (documents : list Document) (c : Collection)
    (results : list BulkWriteResult)
    : Collection * result (list BulkWriteResult) :=
  match documents with
  | [] => (c, Ok results)
  | doc :: rest =>
      let entities := extract_entities (page_content doc) in
      let operations := map operation entities in
      match operations with
      | [] => add_documents_loop rest c results
      | _ :: _ =>
          match bulk_write operations c with
          | (c', Ok r) => add_documents_loop rest c' (results ++ [r])
          | (c', Raise e) => (c', Raise e)
          end
      end
  end.

Definition add_documents (self : MongoDBGraphStore) (documents : documents_arg)
    : MongoDBGraphStore * result (list BulkWriteResult) :=
  let '(c, r) := add_documents_loop (as_list documents) (collection self) [] in
  ({| collection := c; max_depth := max_depth self |}, r).
End Methods.

(** Python's [a or b] on integers. *)
Definition py_or (a b : Z) : Z := if (a =? 0)%Z then b else a.

(** The [startWith] expression: "extract all relationship targets
    dynamically". *)
Definition all_targets : expr :=
  EReduce (EObjectToArray (EField ["relationships"]))
    (ELit (VArr []))
    (EConcatArrays [EVar "value" []; EVar "this" ["v"; "target"]]).

Definition pipeline (self : MongoDBGraphStore) (starting_entities : list string)
    (max_depth_arg : Z) : list stage :=
  [ SMatch [("ID", VDoc [("$in", VArr (map VStr starting_entities))])];
    SGraphLookup (name (collection self)) all_targets
      "ID" "ID" "connections"
      (py_or max_depth_arg (max_depth self));
    SUnwind "connections";
    SReplaceRoot (EField ["connections"]);
    SGroup (EField ["ID"]) "document" (EVar "ROOT" []);
    SReplaceRoot (EField ["document"]);
    SProject ["_id"] ].

Definition related_entities (self : MongoDBGraphStore)
    (starting_entities : list string) (max_depth_arg : Z)
    : result (list document) :=
  aggregate (collection self) (pipeline self starting_entities max_depth_arg).

(** The default of the [max_depth] parameter of [related_entities]. *)
Definition default_depth : Z := 3.

End GraphStore.
Export GraphStore.


(** * Properties *)

(** ** Traversal: depth argument and empty seeds *)

Section Traversal_basics.
Implicit Types (self : MongoDBGraphStore) (c : Collection).

Lemma py_or_zero (d : Z) : py_or 0 d = d.
Proof. reflexivity. Qed.

Lemma py_or_nonzero (a d : Z) : a ≠ 0%Z → py_or a d = a.
Proof. intros H. unfold py_or. destruct (Z.eqb_spec a 0); congruence. Qed.

Lemma no_seed_matches (d : document) :
  matches [("ID", VDoc [("$in", VArr (map VStr []))])] d = false.
Proof. reflexivity. Qed.

Lemma filter_none {A : Type} (f : A → bool) (l : list A) :
  (∀ x, f x = false) → List.filter f l = [].
Proof. intros H. induction l as [|x l IH]; simpl; [done|]. by rewrite H. Qed.

Lemma related_entities_no_seeds_any_depth self (d : Z) :
  (0 ≤ py_or d (max_depth self))%Z → related_entities self [] d = Ok [].
Proof.
  intros H. unfold related_entities, aggregate, pipeline.
  cbn [forallb valid_stage andb].
  apply Z.leb_le in H. rewrite H. cbn [andb run_stages run_stage].
  rewrite (filter_none _ _ no_seed_matches). reflexivity.
Qed.
End Traversal_basics.

(** C8.  Called with no starting entity (and the default [max_depth]),
    [related_entities] returns the empty list, whatever the collection
    holds: the initial [$match] selects nothing and every later stage maps
    nothing to nothing. *)
Theorem related_entities_no_seeds (self : MongoDBGraphStore) :
  related_entities self [] default_depth = Ok [].
Proof. by apply related_entities_no_seeds_any_depth. Qed.

(** C9.  [max_depth or self.max_depth] turns an explicit depth of 0 into the
    configured depth: the pipeline built for [max_depth = 0] is the pipeline
    built for [self.max_depth], its [$graphLookup] stage carries
    [self.max_depth], and so the two calls give the same result. *)
Theorem related_entities_depth_zero (self : MongoDBGraphStore)
    (starting_entities : list string) :
  pipeline self starting_entities 0 = pipeline self starting_entities (max_depth self)
  ∧ (∃ from sw cf ct out,
        pipeline self starting_entities 0 !! 1%nat
        = Some (SGraphLookup from sw cf ct out (max_depth self)))
  ∧ related_entities self starting_entities 0
    = related_entities self starting_entities (max_depth self).
Proof.
  assert (E : py_or (max_depth self) (max_depth self) = max_depth self).
  { unfold py_or. by destruct (max_depth self =? 0)%Z eqn:E; [apply Z.eqb_eq in E|]. }
  unfold related_entities, pipeline. rewrite py_or_zero, E.
  split; [done|]. split; [|done]. by do 5 eexists.
Qed.

(** ** add_documents: documents without entities *)

Section Skipped_documents.
Variable extract_entities : string → list Entity.

Definition has_entities (doc : Document) : bool :=
  match extract_entities (page_content doc) with
  | [] => false
  | _ :: _ => true
  end.

Lemma loop_skip (pre post : list Document) (doc : Document) (c : Collection)
    (res : list BulkWriteResult) :
  extract_entities (page_content doc) = [] →
  add_documents_loop extract_entities (pre ++ doc :: post) c res
  = add_documents_loop extract_entities (pre ++ post) c res.
Proof.
  intros E. revert c res.
  induction pre as [|d pre IH]; intros c res; cbn [app add_documents_loop].
  - by rewrite E.
  - destruct (map operation (extract_entities (page_content d))) as [|o os];
      [apply IH|].
    destruct (bulk_write (o :: os) c) as [c' [r|e]]; [apply IH|done].
Qed.

(** One result per document that had entities, none for the others. *)
Lemma loop_results_length (documents : list Document) (c c' : Collection)
    (res results : list BulkWriteResult) :
  add_documents_loop extract_entities documents c res = (c', Ok results) →
  length results = (length res + length (List.filter has_entities documents))%nat.
Proof.
  revert c res.
  induction documents as [|d ds IH]; intros c res;
    cbn [add_documents_loop List.filter].
  - intros [= _ <-]. simpl. lia.
  - unfold has_entities at 1.
    destruct (extract_entities (page_content d)) as [|e es]; cbn [map].
    + apply IH.
    + destruct (bulk_write (operation e :: map operation es) c)
        as [c1 [r|e']]; [|done].
      intros H. apply IH in H. rewrite H, length_app. simpl. lia.
Qed.

Lemma filter_length_le {A : Type} (f : A → bool) (l : list A) :
  (length (List.filter f l) ≤ length l)%nat.
Proof. induction l as [|x l IH]; simpl; [lia|]. destruct (f x); simpl; lia. Qed.
End Skipped_documents.

(** C10.  A document from which no entity is extracted causes no write and
    no result entry: alone it leaves the store as it was and returns [[]];
    inside a list it can be dropped without changing the outcome; and the
    list of results is then shorter than the list of documents. *)
Theorem add_documents_skips_empty (extract_entities : string → list Entity)
    (self : MongoDBGraphStore) (doc : Document) :
  extract_entities (page_content doc) = [] →
  add_documents extract_entities self (One doc) = (self, Ok [])
  ∧ (∀ pre post,
        add_documents extract_entities self (Many (pre ++ doc :: post))
        = add_documents extract_entities self (Many (pre ++ post)))
  ∧ (∀ pre post self' results,
        add_documents extract_entities self (Many (pre ++ doc :: post))
        = (self', Ok results) →
        (length results < length (pre ++ doc :: post))%nat).
Proof.
  intros E. split; [|split].
  - unfold add_documents. simpl. rewrite E. simpl. by destruct self.
  - intros pre post. unfold add_documents. simpl. by rewrite loop_skip.
  - intros pre post self' results. unfold add_documents. simpl.
    rewrite loop_skip by done.
    destruct (add_documents_loop _ _ _ _) as [c' r] eqn:L. intros [= _ ->].
    apply loop_results_length in L. rewrite L. simpl.
    pose proof (filter_length_le (has_entities extract_entities) (pre ++ post)) as Hle.
    rewrite !length_app in *. simpl. lia.
Qed.

(** ** Field access lemmas *)

Section Field_lemmas.
Implicit Types (k : string) (v : value) (d : document).

Lemma get_field_set_field_eq k v d : get_field k (set_field k v d) = Some v.
Proof.
  induction d as [|[k' v'] d IH]; simpl.
  - by rewrite String.eqb_refl.
  - destruct (String.eqb k' k) eqn:E; simpl.
    + by rewrite String.eqb_refl.
    + by rewrite E.
Qed.

Lemma get_field_set_field_ne k k' v d :
  k ≠ k' → get_field k' (set_field k v d) = get_field k' d.
Proof.
  intros Hne. induction d as [|[k1 v1] d IH]; simpl.
  - by apply String.eqb_neq in Hne as ->.
  - destruct (String.eqb k1 k) eqn:E; simpl.
    + apply String.eqb_eq in E as ->.
      by apply String.eqb_neq in Hne as ->.
    + by rewrite IH.
Qed.

Lemma get_field_remove_field_ne k k' d :
  k ≠ k' → get_field k' (remove_field k d) = get_field k' d.
Proof.
  intros Hne. induction d as [|[k1 v1] d IH]; simpl; [done|].
  destruct (String.eqb k1 k) eqn:E; simpl.
  - apply String.eqb_eq in E as ->.
    by apply String.eqb_neq in Hne as ->.
  - by rewrite IH.
Qed.

Lemma set_field_same k v d : get_field k d = Some v → set_field k v d = d.
Proof.
  induction d as [|[k1 v1] d IH]; simpl; [done|].
  destruct (String.eqb k1 k) eqn:E.
  - apply String.eqb_eq in E as ->. by intros [= ->].
  - intros H. by rewrite IH.
Qed.

Lemma mem_elem_of (x : value) (l : list value) : mem x l = true ↔ x ∈ l.
Proof.
  unfold mem. rewrite existsb_exists. split.
  - intros (y & Hy & E). apply value_eqb_spec in E as ->.
    by apply list_elem_of_In.
  - intros H. exists x. split; [by apply list_elem_of_In|apply value_eqb_refl].
Qed.

Lemma mem_not_elem_of (x : value) (l : list value) : mem x l = false ↔ x ∉ l.
Proof.
  rewrite <- mem_elem_of. destruct (mem x l); split; congruence.
Qed.
End Field_lemmas.

Lemma mapM_ok {A B : Type} (f : A → result B) (g : A → B) (l : list A) :
  (∀ x, x ∈ l → f x = Ok (g x)) → mapM f l = Ok (map g l).
Proof.
  induction l as [|x l IH]; intros H; simpl; [done|].
  rewrite (H x) by left. simpl. rewrite IH; [done|].
  intros y Hy. apply H. by right.
Qed.

Lemma elem_of_concat {A : Type} (x : A) (ls : list (list A)) :
  x ∈ concat ls ↔ ∃ l, l ∈ ls ∧ x ∈ l.
Proof.
  rewrite list_elem_of_In, in_concat. split.
  - intros (l & Hl & Hx). exists l. by rewrite !list_elem_of_In.
  - intros (l & Hl & Hx). exists l. by rewrite <- !list_elem_of_In.
Qed.

Lemma elem_of_filter {A : Type} (f : A → bool) (x : A) (l : list A) :
  x ∈ List.filter f l ↔ x ∈ l ∧ f x = true.
Proof. by rewrite !list_elem_of_In, filter_In. Qed.

Lemma mapM_map_ok {A B C : Type} (f : B → result C) (h : A → B) (g : A → C)
    (l : list A) :
  (∀ x, x ∈ l → f (h x) = Ok (g x)) → mapM f (map h l) = Ok (map g l).
Proof.
  induction l as [|x l IH]; intros H; simpl; [done|].
  rewrite (H x) by left. simpl. rewrite IH; [done|].
  intros y Hy. apply H. by right.
Qed.

(** ** Traversal: the deduplicating tail of the pipeline *)

Section Dedup.
(** The key of [$group]: the ["ID"] of the document, [null] without one. *)
Definition group_key (d : document) : value := or_null (get_field "ID" d).

(** First document of every key, in order of first appearance. *)
Fixpoint first_by_key (ds : list document) (seen : list value) : list document :=
  match ds with
  | [] => []
  | d :: ds' =>
      if mem (group_key d) seen then first_by_key ds' seen
      else d :: first_by_key ds' (group_key d :: seen)
  end.

Lemma first_per_key_docs (ds : list document) (seen : list value) :
  first_per_key (map (λ d, (group_key d, VDoc d)) ds) seen
  = map (λ d, (group_key d, VDoc d)) (first_by_key ds seen).
Proof.
  revert seen. induction ds as [|d ds IH]; intros seen; simpl; [done|].
  destruct (mem (group_key d) seen); simpl; by rewrite IH.
Qed.

Lemma first_by_key_sub (ds : list document) (seen : list value) (d : document) :
  d ∈ first_by_key ds seen → d ∈ ds ∧ group_key d ∉ seen.
Proof.
  revert seen. induction ds as [|x ds IH]; intros seen; simpl.
  - by intros ?%elem_of_nil.
  - destruct (mem (group_key x) seen) eqn:E.
    + intros [??]%IH. split; [by right|done].
    + intros [->|H]%elem_of_cons.
      * split; [by left|]. by apply mem_not_elem_of.
      * apply IH in H as [? Hn]. split; [by right|].
        intros ?. apply Hn. by right.
Qed.

Lemma first_by_key_NoDup (ds : list document) (seen : list value) :
  NoDup (map group_key (first_by_key ds seen)).
Proof.
  revert seen. induction ds as [|x ds IH]; intros seen; simpl.
  - constructor.
  - destruct (mem (group_key x) seen); [apply IH|].
    simpl. constructor; [|apply IH].
    intros (d & E & Hd)%list_elem_of_fmap.
    apply first_by_key_sub in Hd as [_ Hn]. apply Hn. rewrite E. by left.
Qed.
End Dedup.

Section Pipeline_tail.
Variable c : Collection.

Lemma group_row_root (d : document) :
  group_row (EField ["ID"]) (EVar "ROOT" []) d = Ok (group_key d, VDoc d).
Proof. reflexivity. Qed.

Lemma group_by_ID (ds : list document) :
  group (EField ["ID"]) "document" (EVar "ROOT" []) ds
  = Ok (map (λ d, [("_id", group_key d); ("document", VDoc d)])
          (first_by_key ds [])).
Proof.
  unfold group.
  rewrite (mapM_ok _ (λ d, (group_key d, VDoc d))) by (intros; apply group_row_root).
  cbn [mbind result_bind]. rewrite first_per_key_docs, map_map. reflexivity.
Qed.

Lemma replace_root_document (k : value) (d : document) :
  replace_root (EField ["document"]) [("_id", k); ("document", VDoc d)] = Ok d.
Proof. reflexivity. Qed.

(** The last three stages keep the first document of every ["ID"] and
    drop its [_id]. *)
Lemma run_dedup_tail (ds : list document) :
  run_stages c
    [ SGroup (EField ["ID"]) "document" (EVar "ROOT" []);
      SReplaceRoot (EField ["document"]);
      SProject ["_id"] ] ds
  = Ok (map (remove_field "_id") (first_by_key ds [])).
Proof.
  cbn [run_stages run_stage]. rewrite group_by_ID. cbn [mbind result_bind].
  rewrite (mapM_map_ok _ _ (λ d, d))
    by (intros; apply replace_root_document).
  cbn [mbind result_bind]. by rewrite map_id.
Qed.
End Pipeline_tail.

Lemma result_ids_NoDup (ds : list document) :
  NoDup (map (get_field "ID") (map (remove_field "_id") (first_by_key ds []))).
Proof.
  rewrite map_map.
  pose proof (first_by_key_NoDup ds []) as H.
  induction (first_by_key ds []) as [|d l IH]; simpl; [constructor|].
  simpl in H. apply NoDup_cons in H as [Hd Hl].
  constructor; [|by apply IH].
  intros (d' & E & Hd')%list_elem_of_fmap. apply Hd.
  apply list_elem_of_fmap. exists d'. split; [|done].
  rewrite !get_field_remove_field_ne in E by done.
  unfold group_key. by rewrite E.
Qed.


Lemma run_stages_app (c : Collection) (p q : list stage) (ds : list document) :
  run_stages c (p ++ q) ds = ds' ← run_stages c p ds; run_stages c q ds'.
Proof.
  revert ds. induction p as [|s p IH]; intros ds; simpl; [done|].
  destruct (run_stage c s ds); simpl; [apply IH|done].
Qed.

(** The pipeline in two parts: the search, and the deduplication. *)
Definition search_stages (self : MongoDBGraphStore) (seeds : list string)
    (depth : Z) : list stage :=
  take 4 (pipeline self seeds depth).

Definition dedup_stages (self : MongoDBGraphStore) (seeds : list string)
    (depth : Z) : list stage :=
  drop 4 (pipeline self seeds depth).

Lemma run_pipeline (self : MongoDBGraphStore) (seeds : list string) (depth : Z)
    (ds : list document) :
  run_stages (collection self) (pipeline self seeds depth) ds
  = found ← run_stages (collection self) (search_stages self seeds depth) ds;
    Ok (map (remove_field "_id") (first_by_key found [])).
Proof.
  rewrite <- (take_drop 4 (pipeline self seeds depth)) at 1.
  rewrite run_stages_app. fold (search_stages self seeds depth).
  destruct (run_stages _ (search_stages _ _ _) ds) as [found|e]; [|done].
  cbn [mbind result_bind]. apply run_dedup_tail.
Qed.

(** Whatever the first four stages produce, the answer is its
    deduplication. *)
Lemma related_entities_shape (self : MongoDBGraphStore) (seeds : list string)
    (depth : Z) (l : list document) :
  related_entities self seeds depth = Ok l →
  ∃ found, l = map (remove_field "_id") (first_by_key found []).
Proof.
  unfold related_entities, aggregate.
  destruct (forallb valid_stage _); [|done].
  rewrite run_pipeline.
  destruct (run_stages _ _ _) as [found|e]; [|done].
  intros [= <-]. by eexists.
Qed.

(** C6.  The list returned by [related_entities] holds no two documents
    with the same ["ID"]: [$group] keeps one document per identifier, however
    many seeds or paths lead to it. *)
Theorem related_entities_dedup (self : MongoDBGraphStore) (seeds : list string)
    (depth : Z) (l : list document) :
  related_entities self seeds depth = Ok l →
  NoDup (map (get_field "ID") l)
  ∧ ∀ i j a b, l !! i = Some a → l !! j = Some b →
      get_field "ID" a = get_field "ID" b → i = j.
Proof.
  intros [found ->]%related_entities_shape.
  pose proof (result_ids_NoDup found) as H. split; [done|].
  intros i j a b Ha Hb E.
  eapply NoDup_lookup; [exact H| |].
  - rewrite list_lookup_fmap, Ha. reflexivity.
  - rewrite list_lookup_fmap, Hb. simpl. by rewrite E.
Qed.

(** ** Traversal: the search stages *)

Section Start_values.
(** A document can be traversed when its ["relationships"], if any, map
    every relationship type to an array; [add_documents] stores them so. *)
Definition arrays_only (fs : document) : bool :=
  forallb (λ kv, match snd kv with VArr _ => true | _ => false end) fs.

Definition traversable (d : document) : bool :=
  match get_field "relationships" d with
  | None | Some VNull => true
  | Some (VDoc fs) => arrays_only fs
  | Some _ => false
  end.

Definition target_of (x : value) : option value :=
  match x with
  | VDoc g => get_field "target" g
  | _ => None
  end.

(** The ["target"] of every descriptor of every relationship type. *)
Definition targets_of (fs : document) : list value :=
  concat (map (λ kv, match snd kv with
                     | VArr l => omap target_of l
                     | _ => []
                     end) fs).

Definition start_of (d : document) : value :=
  match get_field "relationships" d with
  | Some (VDoc fs) => VArr (targets_of fs)
  | _ => VNull
  end.

Definition entry (kv : string * value) : value :=
  VDoc [("k", VStr (fst kv)); ("v", snd kv)].

(** One round of the [$reduce]: [$concatArrays] of [$$value] and
    [$$this.v.target]. *)
Definition concat_step (d : document) (this : value) (acc : option value)
    : result (option value) :=
  eval d [("this", Some this); ("value", acc); ("ROOT", Some (VDoc d))]
    (EConcatArrays [EVar "value" []; EVar "this" ["v"; "target"]]).

Lemma eval_all_targets_unfold (d : document) :
  eval_in d all_targets
  = match get_field "relationships" d with
    | None | Some VNull => Ok (Some VNull)
    | Some (VDoc fs) =>
        reduce_loop (concat_step d) (map entry fs) (Some (VArr []))
    | Some _ => Raise OperationFailure
    end.
Proof.
  unfold eval_in, all_targets. cbn [eval eval_path mbind result_bind].
  by destruct (get_field "relationships" d) as [[| | | | | |fs]|].
Qed.

Lemma concat_step_array (d : document) (k : string) (l acc : list value) :
  concat_step d (entry (k, VArr l)) (Some (VArr acc))
  = Ok (Some (VArr (acc ++ omap target_of l))).
Proof. reflexivity. Qed.

Lemma reduce_targets (d : document) (fs : document) (acc : list value) :
  arrays_only fs = true →
  reduce_loop (concat_step d) (map entry fs) (Some (VArr acc))
  = Ok (Some (VArr (acc ++ targets_of fs))).
Proof.
  revert acc. induction fs as [|[k v] fs IH]; intros acc Hfs.
  - simpl. by rewrite app_nil_r.
  - simpl in Hfs. apply andb_true_iff in Hfs as [Hv Hfs].
    destruct v as [| | | | |l|]; try done.
    cbn [map reduce_loop]. rewrite concat_step_array.
    cbn [mbind result_bind]. rewrite IH by done.
    unfold targets_of. simpl. by rewrite <- app_assoc.
Qed.

Lemma eval_all_targets (d : document) :
  traversable d = true → eval_in d all_targets = Ok (Some (start_of d)).
Proof.
  rewrite eval_all_targets_unfold. unfold traversable, start_of.
  destruct (get_field "relationships" d) as [[| | | | | |fs]|]; try done.
  intros Hfs. by rewrite reduce_targets.
Qed.
End Start_values.

Section Search_stages.
Variables (self : MongoDBGraphStore) (seeds : list string) (depth : Z).

Let c := collection self.
Let rounds := Z.to_nat (py_or depth (max_depth self)).

(** The documents the traversal starts from. *)
Definition seed_docs : list document :=
  List.filter (matches [("ID", VDoc [("$in", VArr (map VStr seeds))])]) (docs c).

(** What [$graphLookup] collects for one starting document. *)
Definition connections_of (d : document) : list document :=
  search (docs c) "ID" "ID" rounds (start_values (Some (start_of d))) [].

Lemma resolve_self : resolve c (name c) = docs c.
Proof. unfold resolve. by rewrite String.eqb_refl. Qed.

Lemma graph_lookup_traversable (d : document) :
  traversable d = true →
  graph_lookup (docs c) all_targets "ID" "ID" "connections" rounds d
  = Ok (set_field "connections" (VArr (map VDoc (connections_of d))) d).
Proof.
  intros H. unfold graph_lookup. by rewrite eval_all_targets.
Qed.

Definition connection (x : document) : document :=
  match get_field "connections" x with
  | Some (VDoc r) => r
  | _ => []
  end.

Lemma replace_root_connection (x r : document) :
  get_field "connections" x = Some (VDoc r) →
  replace_root (EField ["connections"]) x = Ok (connection x).
Proof.
  intros H. unfold replace_root, connection, eval_in.
  cbn [eval eval_path mbind result_bind]. by rewrite H.
Qed.

Lemma unwind_connections (d : document) (rs : list document) :
  unwind "connections" (set_field "connections" (VArr (map VDoc rs)) d)
  = map (λ r, set_field "connections" (VDoc r)
                (set_field "connections" (VArr (map VDoc rs)) d)) rs.
Proof.
  unfold unwind. rewrite get_field_set_field_eq. by rewrite map_map.
Qed.

Lemma run_search_stages :
  (0 ≤ py_or depth (max_depth self))%Z →
  (∀ d, d ∈ docs c → traversable d = true) →
  run_stages c (search_stages self seeds depth) (docs c)
  = Ok (concat (map connections_of seed_docs)).
Proof.
  intros Hdepth Hwf. unfold search_stages, pipeline.
  cbn [take run_stages run_stage mbind result_bind]. fold c.
  rewrite resolve_self. fold rounds. fold seed_docs.
  rewrite (mapM_ok _
    (λ d, set_field "connections" (VArr (map VDoc (connections_of d))) d)).
  2:{ intros d [Hd _]%elem_of_filter.
      by apply graph_lookup_traversable, Hwf. }
  cbn [mbind result_bind].
  rewrite (mapM_ok _ connection).
  2:{ intros x (xs & Hxs & Hx)%elem_of_concat.
      apply list_elem_of_fmap in Hxs as (y & -> & Hy).
      apply list_elem_of_fmap in Hy as (d & -> & Hd).
      rewrite unwind_connections in Hx.
      apply list_elem_of_fmap in Hx as (r & -> & Hr).
      eapply replace_root_connection, get_field_set_field_eq. }
  cbn [mbind result_bind]. f_equal. induction seed_docs as [|d ds IH]; [done|].
  cbn [map concat]. rewrite map_app, IH. f_equal.
  rewrite unwind_connections, map_map.
  unfold connection.
  rewrite (map_ext _ (λ r, r)); [apply map_id|].
  intros r. by rewrite get_field_set_field_eq.
Qed.
End Search_stages.

(** ** Traversal: the visited set *)

Section Visited.
Variables (coll : list document) (from_field to_field : string).

Lemma same_id_spec (d r : document) :
  same_id d r = true ↔ get_field "_id" d = get_field "_id" r.
Proof.
  unfold same_id.
  destruct (get_field "_id" d) as [a|], (get_field "_id" r) as [b|];
    try (split; [discriminate|congruence]); [|tauto].
  rewrite value_eqb_spec. split; congruence.
Qed.

Lemma visited_spec (visited : list document) (r : document) :
  existsb (λ d, same_id d r) visited = true
  ↔ get_field "_id" r ∈ map (get_field "_id") visited.
Proof.
  rewrite existsb_exists, list_elem_of_fmap. split.
  - intros (d & Hd & E). exists d. apply same_id_spec in E.
    by rewrite list_elem_of_In.
  - intros (d & E & Hd). exists d. rewrite same_id_spec.
    by rewrite <- list_elem_of_In.
Qed.

(** Invariant of the fold over one round: the visited documents come from
    the collection or were there before, and no [_id] occurs twice. *)
Definition visited_ok (before visited : list document) : Prop :=
  (∀ r, r ∈ visited → r ∈ before ∨ r ∈ coll)
  ∧ NoDup (map (get_field "_id") visited).

Lemma visit_round (found before : list document)
    (st : list document * list value * bool) :
  (∀ r, r ∈ found → r ∈ coll) →
  visited_ok before st.1.1 →
  visited_ok before (fold_left (visit from_field) found st).1.1.
Proof.
  revert st. induction found as [|r found IH]; intros st Hf Hst; [done|].
  cbn [fold_left]. apply IH; [intros; apply Hf; by right|].
  destruct st as [[visited frontier] added]. unfold visit.
  destruct (existsb _ visited) eqn:E; [done|].
  destruct Hst as [Hsub Hnd]. split; simpl in *.
  - intros x [Hx|Hx%list_elem_of_singleton]%elem_of_app; [by apply Hsub|].
    subst x. right. apply Hf. by left.
  - rewrite map_app. apply NoDup_app. split; [done|]. split.
    + intros v Hv Hv'%list_elem_of_singleton. subst v.
      apply visited_spec in Hv. congruence.
    + apply NoDup_singleton.
Qed.

Lemma search_visited_ok (fuel : nat) (frontier : list value)
    (before visited : list document) :
  visited_ok before visited →
  visited_ok before (search coll from_field to_field fuel frontier visited).
Proof.
  revert frontier visited.
  induction fuel as [|n IH]; intros frontier visited Hv; cbn [search];
    pose proof (visit_round (List.filter (reached frontier to_field) coll)
                  before (visited, [], false)) as Hround;
    destruct (fold_left _ _ _) as [[visited' frontier'] added];
    assert (visited_ok before visited') as Hv'
      by (apply Hround; [|done]; by intros r [? _]%elem_of_filter).
  - by destruct added.
  - destruct added; [by apply IH|done].
Qed.

(** A search never returns more documents than the collection has,
    however its edges run. *)
Lemma search_bounded (fuel : nat) (frontier : list value) :
  let found := search coll from_field to_field fuel frontier [] in
  (∀ r, r ∈ found → r ∈ coll) ∧ NoDup found ∧ (length found ≤ length coll)%nat.
Proof.
  intros found.
  destruct (search_visited_ok fuel frontier [] []) as [Hsub Hnd].
  { split; [by intros r ?%elem_of_nil|constructor]. }
  assert (Hin : ∀ r, r ∈ found → r ∈ coll).
  { intros r [Hr|Hr]%Hsub; [by apply elem_of_nil in Hr|done]. }
  assert (Hnd' : NoDup found) by (eapply NoDup_fmap_1, Hnd).
  split; [done|]. split; [done|].
  apply submseteq_length, NoDup_submseteq; done.
Qed.
End Visited.

(** C7 (amended).  On every collection whose documents keep their
    relationships as arrays, cyclic or not, and for every depth the pipeline
    accepts, the traversal returns: each [$graphLookup] collects every
    document at most once (never more than the collection holds), and the
    list returned is no longer than the collection. *)
Theorem related_entities_terminates (self : MongoDBGraphStore)
    (seeds : list string) (depth : Z) :
  (0 ≤ py_or depth (max_depth self))%Z →
  forallb traversable (docs (collection self)) = true →
  (∀ d, NoDup (connections_of self depth d)
        ∧ (length (connections_of self depth d)
           ≤ length (docs (collection self)))%nat)
  ∧ ∃ l, related_entities self seeds depth = Ok l
         ∧ (length l ≤ length (docs (collection self)))%nat.
Proof.
  intros Hdepth Hwf. split.
  { intros d. unfold connections_of.
    destruct (search_bounded (docs (collection self)) "ID" "ID"
                (Z.to_nat (py_or depth (max_depth self)))
                (start_values (Some (start_of d)))) as (_ & ? & ?).
    done. }
  assert (Hwf' : ∀ d, d ∈ docs (collection self) → traversable d = true).
  { intros d Hd. rewrite forallb_forall in Hwf. by apply Hwf, list_elem_of_In. }
  unfold related_entities, aggregate.
  assert (forallb valid_stage (pipeline self seeds depth) = true) as ->.
  { unfold pipeline. cbn [forallb valid_stage andb].
    apply Z.leb_le in Hdepth. by rewrite Hdepth. }
  rewrite run_pipeline, run_search_stages by done.
  cbn [mbind result_bind]. eexists. split; [done|].
  rewrite length_map.
  set (found := concat _).
  apply submseteq_length, NoDup_submseteq.
  - eapply NoDup_fmap_1, first_by_key_NoDup.
  - intros r [Hr _]%first_by_key_sub.
    apply elem_of_concat in Hr as (rs & Hrs & Hr).
    apply list_elem_of_fmap in Hrs as (d & -> & _).
    unfold connections_of in Hr.
    by eapply (search_bounded (docs (collection self)) "ID" "ID").
Qed.

(** ** Updates: what the paths of an upsert can touch *)

Section Update_paths.
Lemma split_properties (k : string) :
  split_path ("properties." ++ k) = "properties" :: split_path k.
Proof. reflexivity. Qed.

Lemma split_relationships (k : string) :
  split_path ("relationships." ++ k) = "relationships" :: split_path k.
Proof. reflexivity. Qed.

(** The first component of a path. *)
Definition head_is (c : string) (p : string) : Prop :=
  ∃ rest, split_path p = c :: rest.

Definition in_sections (kv : string * value) : Prop :=
  head_is "properties" (fst kv) ∨ head_is "relationships" (fst kv).

Lemma set_field_Forall (P : string * value → Prop) (k : string) (v : value)
    (d : document) :
  P (k, v) → Forall P d → Forall P (set_field k v d).
Proof.
  intros Hk Hd. induction Hd as [|[k' v'] d Hx Hd IH]; simpl.
  - by repeat constructor.
  - destruct (String.eqb k' k); constructor; done.
Qed.

Lemma dict_merge_Forall (P : string * value → Prop) (a b : document) :
  Forall P a → Forall P b → Forall P (dict_merge a b).
Proof.
  unfold dict_merge. intros Ha Hb. revert a Ha.
  induction Hb as [|[k v] b Hx Hb IH]; intros a Ha; simpl; [done|].
  apply IH. by apply set_field_Forall.
Qed.

Lemma dict_of_Forall (P : string * value → Prop) (items : document) :
  Forall P items → Forall P (dict_of items).
Proof. intros H. by apply (dict_merge_Forall P [] items). Qed.

Lemma operation_paths (e : Entity) :
  Forall in_sections (addToSet (update (operation e))).
Proof.
  cbn [operation update addToSet].
  apply dict_merge_Forall; apply dict_of_Forall, Forall_forall;
    intros kv (x & -> & _)%list_elem_of_fmap.
  - left. eexists. apply split_properties.
  - right. eexists. apply split_relationships.
Qed.
End Update_paths.

Section Update_frame.
Implicit Types (d : document) (f : string).

Lemma apply_at_frame (leaf : option value → result value) (p c f : string)
    (d d' : document) :
  head_is c p → c ≠ f →
  apply_at leaf p d = Ok d' → get_field f d' = get_field f d.
Proof.
  intros [rest Hp] Hne. unfold apply_at. rewrite Hp. cbn [update_path].
  destruct (update_path leaf rest (get_field c d)) as [v|]; [|done].
  cbn [mbind result_bind]. intros [= <-].
  by apply get_field_set_field_ne.
Qed.

Lemma apply_addToSet_frame (spec : document) (f : string) (d d' : document) :
  Forall in_sections spec → f ≠ "properties" → f ≠ "relationships" →
  apply_addToSet spec d = Ok d' → get_field f d' = get_field f d.
Proof.
  intros Hspec Hp Hr. revert d.
  induction Hspec as [|[p arg] spec Hx Hspec IH]; intros d; simpl.
  - by intros [= <-].
  - destruct (each_arg arg) as [new|]; [|done]. cbn [mbind result_bind].
    destruct (apply_at (add_leaf new) p d) as [d1|] eqn:E1; [|done].
    cbn [mbind result_bind]. intros H. rewrite (IH _ H).
    destruct Hx as [Hx|Hx]; eapply apply_at_frame; eauto.
Qed.

(** Merging into a stored document leaves every field other than
    ["properties"] and ["relationships"] alone. *)
Lemma merge_frame (e : Entity) (f : string) (d d' : document) :
  f ≠ "properties" → f ≠ "relationships" →
  apply_update (update (operation e)) false d = Ok d' →
  get_field f d' = get_field f d.
Proof.
  intros Hp Hr. unfold apply_update.
  destruct (valid_update _); [|done]. cbn [mbind result_bind].
  apply apply_addToSet_frame; [apply operation_paths|done..].
Qed.

(** The document an upsert inserts carries the entity's ["ID"] and
    ["type"]. *)
Lemma insert_identity (e : Entity) (oid : nat) (d' : document) :
  apply_update (update (operation e)) true
    (new_document (filter (operation e)) oid) = Ok d' →
  get_field "_id" d' = Some (VOid oid)
  ∧ get_field "ID" d' = Some (VStr (ID e))
  ∧ get_field "type" d' = Some (VStr (type e)).
Proof.
  unfold apply_update. destruct (valid_update _); [|done].
  change (apply_set _ _)
    with (Ok [("_id", VOid oid); ("ID", VStr (ID e)); ("type", VStr (type e))]).
  cbn [mbind result_bind]. intros H.
  pose proof (λ f Hp Hr,
    apply_addToSet_frame _ f _ _ (operation_paths e) Hp Hr H) as Hf.
  rewrite !Hf by done. done.
Qed.
End Update_frame.

(** ** Updates: one operation on the collection *)

Section Execute.
Implicit Types (c : Collection) (op : UpdateOne) (d : document).

(** [d] at position [i] is the first document that [flt] selects. *)
Definition first_match (flt : document) (ds : list document) (i : nat)
    (d : document) : Prop :=
  ds !! i = Some d ∧ matches flt d = true
  ∧ ∀ j d0, (j < i)%nat → ds !! j = Some d0 → matches flt d0 = false.

Lemma update_first_None (flt : document) (f : document → result document)
    (ds : list document) :
  update_first flt f ds = None ↔ Forall (λ d, matches flt d = false) ds.
Proof.
  induction ds as [|d ds IH]; simpl; [by split; [constructor|]|].
  destruct (matches flt d) eqn:E.
  - split; [done|]. intros H. apply Forall_cons in H as [? _]. congruence.
  - destruct (update_first flt f ds).
    + split; [done|]. intros H. apply Forall_cons in H as [_ H].
      by apply IH in H.
    + split; [|done]. intros _. constructor; [done|]. by apply IH.
Qed.

Lemma update_first_Some (flt : document) (f : document → result document)
    (ds : list document) (r : result (list document)) :
  update_first flt f ds = Some r →
  ∃ i d, first_match flt ds i d
         ∧ r = match f d with
               | Ok d' => Ok (<[i := d']> ds)
               | Raise e => Raise e
               end.
Proof.
  revert r. induction ds as [|d ds IH]; intros r; simpl; [done|].
  destruct (matches flt d) eqn:E.
  - intros [= <-]. exists 0%nat, d. split.
    + split; [done|]. split; [done|]. intros j d0 Hj. lia.
    + by destruct (f d).
  - destruct (update_first flt f ds) as [r0|]; [|done].
    intros [= <-]. destruct (IH r0 eq_refl) as (i & d1 & (Hi & Hm & Hlt) & ->).
    exists (S i), d1. split.
    + split; [done|]. split; [done|]. intros [|j] d0 Hj; simpl.
      * by intros [= <-].
      * apply Hlt. lia.
    + by destruct (f d1).
Qed.

Lemma first_match_update (flt : document) (f : document → result document)
    (ds : list document) (i : nat) (d : document) :
  first_match flt ds i d →
  update_first flt f ds
  = Some (match f d with
          | Ok d' => Ok (<[i := d']> ds)
          | Raise e => Raise e
          end).
Proof.
  intros (Hi & Hm & Hlt).
  destruct (update_first flt f ds) as [r|] eqn:E.
  - apply update_first_Some in E as (i' & d1 & (Hi' & Hm' & Hlt') & ->).
    destruct (Nat.lt_trichotomy i i') as [H|[->|H]].
    + rewrite (Hlt' _ _ H Hi) in Hm. done.
    + by simplify_eq.
    + rewrite (Hlt _ _ H Hi') in Hm'. done.
  - apply update_first_None in E. rewrite Forall_forall in E.
    rewrite E in Hm; [done|]. by eapply list_elem_of_lookup_2.
Qed.

(** The two ways an upsert can succeed. *)
Definition merged op c c' : Prop :=
  ∃ i d d', first_match (filter op) (docs c) i d
            ∧ apply_update (update op) false d = Ok d'
            ∧ c' = {| name := name c; docs := <[i := d']> (docs c);
                      next_oid := next_oid c |}.

Definition inserted op c c' : Prop :=
  ∃ d', Forall (λ d, matches (filter op) d = false) (docs c)
        ∧ apply_update (update op) true
            (new_document (filter op) (next_oid c)) = Ok d'
        ∧ c' = {| name := name c; docs := docs c ++ [d'];
                  next_oid := S (next_oid c) |}.

Lemma execute_upsert op c c' (acc acc' : BulkWriteResult) :
  upsert op = true →
  execute op c acc = Ok (c', acc') → merged op c c' ∨ inserted op c c'.
Proof.
  intros Hup. unfold execute.
  destruct (update_first _ _ _) as [r|] eqn:E.
  - apply update_first_Some in E as (i & d & Hfm & ->).
    destruct (apply_update (update op) false d) as [d'|] eqn:Ed; [|done].
    cbn [mbind result_bind]. intros [= <- _]. left. by exists i, d, d'.
  - rewrite Hup. apply update_first_None in E.
    destruct (apply_update _ true _) as [d'|] eqn:Ed; [|done].
    cbn [mbind result_bind]. intros [= <- _]. right. by exists d'.
Qed.
End Execute.

(** ** add_documents as a sequence of upserts *)

Section Steps.
(** Whatever relates the collection before and after every accepted
    upsert, and is reflexive and transitive, relates the collection before
    and after [add_documents], whether the call returns or raises. *)
Variable R : Collection → Collection → Prop.
Hypothesis R_refl : ∀ c, R c c.
Hypothesis R_trans : ∀ a b c, R a b → R b c → R a c.
Hypothesis R_step : ∀ e c c' acc acc',
  execute (operation e) c acc = Ok (c', acc') → R c c'.

Lemma run_ops_steps (es : list Entity) (c c' : Collection)
    (acc : BulkWriteResult) (r : result BulkWriteResult) :
  run_ops (map operation es) c acc = (c', r) → R c c'.
Proof.
  revert c acc. induction es as [|e es IH]; intros c acc; cbn [map run_ops].
  - intros [= <- _]. apply R_refl.
  - destruct (execute (operation e) c acc) as [[c1 acc1]|err] eqn:E.
    + intros H. eapply R_trans; [by eapply R_step|by eapply IH].
    + intros [= <- _]. apply R_refl.
Qed.

Lemma bulk_write_steps (es : list Entity) (c c' : Collection)
    (r : result BulkWriteResult) :
  bulk_write (map operation es) c = (c', r) → R c c'.
Proof.
  destruct es as [|e es].
  - intros [= <- _]. apply R_refl.
  - apply (run_ops_steps (e :: es)).
Qed.

Lemma add_documents_loop_steps (extract_entities : string → list Entity)
    (documents : list Document) (c c' : Collection)
    (res : list BulkWriteResult) (r : result (list BulkWriteResult)) :
  add_documents_loop extract_entities documents c res = (c', r) → R c c'.
Proof.
  revert c res.
  induction documents as [|doc ds IH]; intros c res; cbn [add_documents_loop].
  - intros [= <- _]. apply R_refl.
  - destruct (map operation (extract_entities (page_content doc)))
      as [|o os] eqn:Eops; [apply IH|].
    rewrite <- Eops.
    destruct (bulk_write _ c) as [c1 [r1|err]] eqn:Eb.
    + intros H. eapply R_trans; [by eapply bulk_write_steps|by eapply IH].
    + intros [= <- _]. by eapply bulk_write_steps.
Qed.

Lemma add_documents_steps (extract_entities : string → list Entity)
    (self self' : MongoDBGraphStore) (documents : documents_arg)
    (r : result (list BulkWriteResult)) :
  add_documents extract_entities self documents = (self', r) →
  R (collection self) (collection self') ∧ max_depth self' = max_depth self.
Proof.
  unfold add_documents.
  destruct (add_documents_loop _ _ _ _) as [c' r'] eqn:E.
  intros [= <- _]. split; [|done]. by eapply add_documents_loop_steps.
Qed.
End Steps.

(** ** Identity of stored entities *)

Section Identity.
Implicit Types (c : Collection) (d : document).

(** The set-once part of an entity document. *)
Definition identity (d : document) : option value * option value :=
  (get_field "ID" d, get_field "type" d).

Definition identities (c : Collection) : list (option value * option value) :=
  map identity (docs c).

Lemma unmatched_ID (id : string) (d : document) :
  matches [("ID", VStr id)] d = false → get_field "ID" d ≠ Some (VStr id).
Proof.
  unfold matches. cbn [forallb fst snd cond_match]. intros H E.
  rewrite E in H. cbn [eq_match] in H. by rewrite value_eqb_refl in H.
Qed.

(** An accepted upsert either leaves all identities as they are, or adds
    a document with the entity's identifier and type at the end, and then
    no document carried that identifier before. *)
Lemma step_identities (e : Entity) c c' (acc acc' : BulkWriteResult) :
  execute (operation e) c acc = Ok (c', acc') →
  identities c' = identities c
  ∨ (identities c' = identities c ++ [(Some (VStr (ID e)), Some (VStr (type e)))]
     ∧ ∀ d, d ∈ docs c → get_field "ID" d ≠ Some (VStr (ID e))).
Proof.
  intros H.
  apply execute_upsert in H
    as [(i & d & d' & (Hi & _) & Hd' & ->)|(d' & Hno & Hd' & ->)]; [| |done].
  - left. unfold identities. cbn [docs].
    rewrite list_fmap_insert. apply list_insert_id.
    rewrite list_lookup_fmap, Hi. cbn. unfold identity.
    by rewrite !(merge_frame e _ d d').
  - right. unfold identities. cbn [docs]. rewrite map_app. split.
    + apply insert_identity in Hd' as (_ & HID & Hty).
      cbn [map]. unfold identity at 2. by rewrite HID, Hty.
    + intros d Hd. rewrite Forall_forall in Hno. by apply unmatched_ID, Hno.
Qed.

Lemma identities_grow (extract_entities : string → list Entity)
    (self self' : MongoDBGraphStore) (documents : documents_arg)
    (r : result (list BulkWriteResult)) :
  add_documents extract_entities self documents = (self', r) →
  identities (collection self) `prefix_of` identities (collection self').
Proof.
  intros H.
  apply (add_documents_steps (λ c c', identities c `prefix_of` identities c'))
    in H as [H _]; [done|done|by intros; etrans|].
  intros e c c' acc acc' [->|[-> _]]%step_identities; [done|].
  by apply prefix_app_r.
Qed.
End Identity.

(** C2.  Whatever is merged, every document that was stored keeps its
    place, its ["ID"] and its ["type"], also when an extracted entity with
    the same identifier carries another type: [$setOnInsert] writes the two
    fields only into the document that an upsert inserts. *)
Theorem add_documents_keeps_identity (extract_entities : string → list Entity)
    (self self' : MongoDBGraphStore) (documents : documents_arg)
    (r : result (list BulkWriteResult)) (i : nat) (d : document) :
  add_documents extract_entities self documents = (self', r) →
  docs (collection self) !! i = Some d →
  ∃ d', docs (collection self') !! i = Some d'
        ∧ get_field "ID" d' = get_field "ID" d
        ∧ get_field "type" d' = get_field "type" d.
Proof.
  intros H Hi. apply identities_grow in H.
  assert (identities (collection self') !! i = Some (identity d)) as Hi'.
  { eapply prefix_lookup_Some; [|done].
    unfold identities. by rewrite list_lookup_fmap, Hi. }
  unfold identities in Hi'. rewrite list_lookup_fmap in Hi'.
  destruct (docs (collection self') !! i) as [d'|]; [|done].
  exists d'. split; [done|]. by injection Hi' as -> ->.
Qed.

(** ** Uniqueness of identifiers *)

Section Unique.
(** For every identifier there is at most one entity document. *)
Definition unique_ids (ds : list document) : Prop :=
  ∀ i j d d' v, ds !! i = Some d → ds !! j = Some d' →
    get_field "ID" d = Some v → get_field "ID" d' = Some v → i = j.

Definition unique_in (l : list (option value * option value)) : Prop :=
  ∀ i j v t t', l !! i = Some (Some v, t) → l !! j = Some (Some v, t') → i = j.

Lemma unique_ids_identities (c : Collection) :
  unique_ids (docs c) ↔ unique_in (identities c).
Proof.
  unfold unique_ids, unique_in, identities. split.
  - intros H i j v t t'. rewrite !list_lookup_fmap.
    destruct (docs c !! i) as [d|] eqn:Ei; [|done].
    destruct (docs c !! j) as [d'|] eqn:Ej; [|done].
    cbn. unfold identity. intros [= Hv _] [= Hv' _]. by eapply H.
  - intros H i j d d' v Hi Hj Hv Hv'.
    apply (H i j v (get_field "type" d) (get_field "type" d'));
      rewrite list_lookup_fmap.
    + rewrite Hi. cbn. unfold identity. by rewrite Hv.
    + rewrite Hj. cbn. unfold identity. by rewrite Hv'.
Qed.

Lemma unique_in_snoc (l : list (option value * option value)) (v : value)
    (t : option value) :
  unique_in l → (∀ t', (Some v, t') ∉ l) → unique_in (l ++ [(Some v, t)]).
Proof.
  intros Hl Hnew i j w t1 t2 Hi Hj.
  destruct (decide (i < length l)%nat) as [Hil|Hil],
           (decide (j < length l)%nat) as [Hjl|Hjl].
  - rewrite lookup_app_l in Hi, Hj by done. by eapply Hl.
  - rewrite lookup_app_l in Hi by done.
    rewrite lookup_app_r in Hj by lia.
    apply list_lookup_singleton_Some in Hj as [_ [= <- _]].
    exfalso. eapply Hnew. by eapply list_elem_of_lookup_2.
  - rewrite lookup_app_l in Hj by done.
    rewrite lookup_app_r in Hi by lia.
    apply list_lookup_singleton_Some in Hi as [_ [= <- _]].
    exfalso. eapply Hnew. by eapply list_elem_of_lookup_2.
  - rewrite lookup_app_r in Hi, Hj by lia.
    apply list_lookup_singleton_Some in Hi as [Hi _].
    apply list_lookup_singleton_Some in Hj as [Hj _]. lia.
Qed.

Lemma step_unique (e : Entity) (c c' : Collection) (acc acc' : BulkWriteResult) :
  execute (operation e) c acc = Ok (c', acc') →
  unique_ids (docs c) → unique_ids (docs c').
Proof.
  rewrite !unique_ids_identities.
  intros [->|[-> Hnew]]%step_identities Hu; [done|].
  apply unique_in_snoc; [done|].
  intros t' (d & [= HID _] & Hd)%list_elem_of_fmap. by eapply Hnew.
Qed.
End Unique.

(** C4.  Starting from a collection in which no two documents share an
    ["ID"], every [add_documents] call (each entity upserted under the
    filter on its ["ID"]) ends in such a collection, whether it returns or
    raises half-way. *)
Theorem add_documents_unique_ids (extract_entities : string → list Entity)
    (self self' : MongoDBGraphStore) (documents : documents_arg)
    (r : result (list BulkWriteResult)) :
  unique_ids (docs (collection self)) →
  add_documents extract_entities self documents = (self', r) →
  unique_ids (docs (collection self')).
Proof.
  intros Hu H.
  apply (add_documents_steps
           (λ c c', unique_ids (docs c) → unique_ids (docs c')))
    in H as [H _]; [by apply H|done|by auto|].
  intros e c c' acc acc'. apply step_unique.
Qed.

(** * Worked examples *)

Module Sample.

Definition target (t : string) : value := VDoc [("target", VStr t)].

(** Three entities in a chain A → B → C, as [add_documents] stores them. *)
Definition doc_A : document :=
  [("_id", VOid 0); ("ID", VStr "A"); ("type", VStr "Person");
   ("properties", VDoc [("position", VArr [VStr "CEO"])]);
   ("relationships", VDoc [("friend", VArr [target "B"])])].

Definition doc_B : document :=
  [("_id", VOid 1); ("ID", VStr "B"); ("type", VStr "Person");
   ("relationships", VDoc [("friend", VArr [target "C"])])].

Definition doc_C : document :=
  [("_id", VOid 2); ("ID", VStr "C"); ("type", VStr "Person")].

(** The same with an edge back from C to A. *)
Definition doc_C_back : document :=
  [("_id", VOid 2); ("ID", VStr "C"); ("type", VStr "Person");
   ("relationships", VDoc [("friend", VArr [target "A"; target "B"])])].

Definition chain : MongoDBGraphStore :=
  {| collection := {| name := "entities"; docs := [doc_A; doc_B; doc_C];
                      next_oid := 3 |};
     max_depth := 2 |}.

Definition cycle : MongoDBGraphStore :=
  {| collection := {| name := "entities"; docs := [doc_A; doc_B; doc_C_back];
                      next_oid := 3 |};
     max_depth := 2 |}.

Definition empty_store : MongoDBGraphStore :=
  {| collection := {| name := "entities"; docs := []; next_oid := 0 |};
     max_depth := 2 |}.

(** Entities as the extraction model returns them. *)
Definition entity_A : Entity :=
  {| ID := "A"; type := "Person";
     properties := [("position", VStr "CEO")];
     relationships := [("friend", [target "B"])] |}.

Definition entity_B : Entity :=
  {| ID := "B"; type := "Person"; properties := [];
     relationships := [("friend", [target "C"])] |}.

Definition entity_C : Entity :=
  {| ID := "C"; type := "Person"; properties := []; relationships := [] |}.

(** A second mention of A, under another type and with new facts. *)
Definition entity_A_again : Entity :=
  {| ID := "A"; type := "Organization";
     properties := [("position", VStr "Founder"); ("since", VInt 2018)];
     relationships := [("friend", [target "B"; target "C"])] |}.

(** An extraction model that knows three texts. *)
Definition extract (text : string) : list Entity :=
  if String.eqb text "A knows B, B knows C." then [entity_A; entity_B; entity_C]
  else if String.eqb text "A founded it in 2018." then [entity_A_again]
  else [].

Definition text (s : string) : Document := {| page_content := s |}.

Example chain_is_built :
  add_documents extract empty_store (One (text "A knows B, B knows C."))
  = (chain, Ok [{| matched_count := 0; upserted_count := 3 |}]).
Proof. reflexivity. Qed.

End Sample.

(** ** Traversal: how far it reaches *)

(** What the docstring of [related_entities] describes, in its own terms:
    [r] is a relationship target of [d] ([edge]), and [r] is connected to [d]
    by a path of [n + 1] edges ([connected], [n] being the recursion depth at
    which a traversal along the edges finds it). *)
Definition edge (ds : list document) (d r : document) : Prop :=
  d ∈ ds ∧ r ∈ ds
  ∧ ∃ fs t l x, get_field "relationships" d = Some (VDoc fs)
                ∧ (t, VArr l) ∈ fs ∧ x ∈ l
                ∧ is_Some (target_of x)
                ∧ target_of x = get_field "ID" r.

Inductive connected (ds : list document) : nat → document → document → Prop :=
| connected_direct d r : edge ds d r → connected ds 0 d r
| connected_step n d m r :
    connected ds n d m → edge ds m r → connected ds (S n) d r.

Lemma chain_edge_A_B :
  edge (docs (collection Sample.chain)) Sample.doc_A Sample.doc_B.
Proof.
  split; [by left|]. split; [by right; left|].
  eexists _, "friend", _, (Sample.target "B").
  split; [reflexivity|]. split; [by left|]. split; [by left|].
  split; [by eexists|reflexivity].
Qed.

Lemma chain_edge_B_C :
  edge (docs (collection Sample.chain)) Sample.doc_B Sample.doc_C.
Proof.
  split; [by right; left|]. split; [by right; right; left|].
  eexists _, "friend", _, (Sample.target "C").
  split; [reflexivity|]. split; [by left|]. split; [by left|].
  split; [by eexists|reflexivity].
Qed.

(** C5 (fails on the code).  In the chain A → B → C the entity C is
    connected to A at recursion depth 1, but [related_entities] started at A
    returns B alone, for the default depth 3 and for every other depth:
    [$graphLookup] is given ["ID"] as [connectFromField], so from a document
    it finds it only looks up that same document again and never follows
    its relationship targets. *)
Theorem related_entities_single_hop :
  connected (docs (collection Sample.chain)) 1 Sample.doc_A Sample.doc_C
  ∧ related_entities Sample.chain ["A"] default_depth
    = Ok [remove_field "_id" Sample.doc_B]
  ∧ ∀ depth, (0 ≤ py_or depth (max_depth Sample.chain))%Z →
      related_entities Sample.chain ["A"] depth
      = Ok [remove_field "_id" Sample.doc_B].
Proof.
  split; [|split].
  - eapply connected_step; [apply connected_direct, chain_edge_A_B|].
    apply chain_edge_B_C.
  - reflexivity.
  - intros depth Hdepth. unfold related_entities, aggregate.
    assert (forallb valid_stage (pipeline Sample.chain ["A"] depth) = true) as ->.
    { unfold pipeline. cbn [forallb valid_stage andb].
      apply Z.leb_le in Hdepth. by rewrite Hdepth. }
    rewrite run_pipeline, run_search_stages; [|done|].
    + change (seed_docs Sample.chain ["A"]) with [Sample.doc_A].
      unfold connections_of. cbn [map concat mbind result_bind].
      destruct (Z.to_nat _) as [|[|n]]; reflexivity.
    + intros d Hd. cbn in Hd.
      repeat (apply elem_of_cons in Hd as [->|Hd]; [reflexivity|]).
      by apply elem_of_nil in Hd.
Qed.

(** ** The theorems at concrete inputs *)

(** The chain after a second text mentions A again, as an organization. *)
Definition chain_after_second_text : MongoDBGraphStore :=
  Eval vm_compute in
    fst (add_documents Sample.extract Sample.chain
           (One (Sample.text "A founded it in 2018."))).

Definition cycle_neighbours : list document :=
  Eval vm_compute in
    match related_entities Sample.cycle ["A"; "B"] default_depth with
    | Ok l => l
    | Raise _ => []
    end.

Lemma chain_unique_ids : unique_ids (docs (collection Sample.chain)).
Proof.
  intros i j d d' v Hi Hj Hv Hv'.
  destruct i as [|[|[|i]]], j as [|[|[|j]]]; try done;
    cbn in Hi, Hj; simplify_eq; cbn in Hv, Hv'; congruence.
Qed.

Lemma add_documents_skips_empty_witness :
  Sample.extract (page_content (Sample.text "Nobody is named here.")) = []
  ∧ add_documents Sample.extract Sample.chain
      (One (Sample.text "Nobody is named here."))
    = (Sample.chain, Ok []).
Proof.
  split; [reflexivity|].
  apply (add_documents_skips_empty Sample.extract Sample.chain
           (Sample.text "Nobody is named here.")).
  reflexivity.
Defined.

Lemma related_entities_dedup_witness :
  related_entities Sample.cycle ["A"; "B"] default_depth = Ok cycle_neighbours
  ∧ NoDup (map (get_field "ID") cycle_neighbours).
Proof.
  split; [reflexivity|].
  apply (related_entities_dedup Sample.cycle ["A"; "B"] default_depth
           cycle_neighbours).
  reflexivity.
Defined.

Lemma related_entities_terminates_witness :
  ∃ l, related_entities Sample.cycle ["A"; "B"] default_depth = Ok l
       ∧ (length l ≤ 3)%nat.
Proof.
  apply (related_entities_terminates Sample.cycle ["A"; "B"] default_depth).
  - vm_compute. discriminate.
  - reflexivity.
Defined.

(** A collection written by other hands: the relationships of A are a
    string. *)
Definition doc_A_note : document :=
  [("_id", VOid 0); ("ID", VStr "A"); ("type", VStr "Person");
   ("relationships", VStr "knows B")].

Definition noted_store : MongoDBGraphStore :=
  {| collection := {| name := "entities";
                      docs := [doc_A_note; Sample.doc_B; Sample.doc_C];
                      next_oid := 3 |};
     max_depth := 2 |}.

(** C7 as stated fails: not on every finite store does the traversal return
    a list.  Where the ["relationships"] of a starting document are no
    document, [$objectToArray] cannot be evaluated and the call raises; and
    on any store, a negative depth is handed to [$graphLookup] as it is and
    the pipeline is refused. *)
Lemma related_entities_raises :
  related_entities noted_store ["A"] default_depth = Raise OperationFailure
  ∧ related_entities Sample.cycle ["A"] (-1) = Raise OperationFailure.
Proof. split; reflexivity. Qed.

Lemma add_documents_keeps_identity_witness :
  ∃ d', docs (collection chain_after_second_text) !! 0%nat = Some d'
        ∧ get_field "ID" d' = Some (VStr "A")
        ∧ get_field "type" d' = Some (VStr "Person").
Proof.
  apply (add_documents_keeps_identity Sample.extract Sample.chain
           chain_after_second_text (One (Sample.text "A founded it in 2018."))
           (Ok [{| matched_count := 1; upserted_count := 0 |}])
           0 Sample.doc_A); reflexivity.
Defined.

Lemma add_documents_unique_ids_witness :
  unique_ids (docs (collection chain_after_second_text)).
Proof.
  apply (add_documents_unique_ids Sample.extract Sample.chain
           chain_after_second_text (One (Sample.text "A founded it in 2018."))
           (Ok [{| matched_count := 1; upserted_count := 0 |}])).
  - apply chain_unique_ids.
  - reflexivity.
Defined.

(** * Merging: set semantics *)

(** ** Keys that name one field *)

(** A key without ["."] gives a path of one component. *)
Fixpoint no_dot (s : string) : bool :=
  match s with
  | EmptyString => true
  | String c s' => negb (Ascii.eqb c "."%char) && no_dot s'
  end.

(** A plain key names a field: not empty, no ["."], no positional
    operator. *)
Definition plain (k : string) : bool := no_dot k && valid_component k.

Lemma split_no_dot (k : string) : no_dot k = true → split_path k = [k].
Proof.
  unfold split_path. induction k as [|c k IH]; simpl; [done|].
  destruct (Ascii.eqb c ".") eqn:E; simpl; [done|].
  intros H. by rewrite IH.
Qed.

Lemma split_property_key (k : string) :
  no_dot k = true → split_path ("properties." ++ k) = ["properties"; k].
Proof. intros H. by rewrite split_properties, split_no_dot. Qed.

Lemma split_relationship_key (k : string) :
  no_dot k = true → split_path ("relationships." ++ k) = ["relationships"; k].
Proof. intros H. by rewrite split_relationships, split_no_dot. Qed.

(** ** $addToSet on an array *)

Lemma add_each_spec (new l : list value) (x : value) :
  x ∈ add_each new l ↔ x ∈ l ∨ x ∈ new.
Proof.
  revert l. induction new as [|y new IH]; intros l; simpl.
  - split; [by left|]. intros [?|H]; [done|]. by apply elem_of_nil in H.
  - rewrite IH. destruct (mem y l) eqn:E.
    + apply mem_elem_of in E. rewrite elem_of_cons. split; [tauto|].
      intros [?|[->|?]]; tauto.
    + rewrite elem_of_app, list_elem_of_singleton, elem_of_cons. tauto.
Qed.

Lemma add_each_prefix (new l : list value) : l `prefix_of` add_each new l.
Proof.
  revert l. induction new as [|y new IH]; intros l; simpl; [done|].
  destruct (mem y l); [apply IH|].
  etrans; [|apply IH]. by apply prefix_app_r.
Qed.

Lemma add_each_present (new l : list value) :
  (∀ x, x ∈ new → x ∈ l) → add_each new l = l.
Proof.
  revert l. induction new as [|y new IH]; intros l H; simpl; [done|].
  assert (mem y l = true) as -> by (apply mem_elem_of, H; by left).
  apply IH. intros x Hx. apply H. by right.
Qed.

(** [result] is the union of the array [old] and the values [new] as
    [$addToSet] forms it: [old] stays in front as it was, and behind it
    comes every new value that [old] lacks, once. *)
Definition union_of (old new result : list value) : Prop :=
  ∃ extra, result = old ++ extra ∧ NoDup extra
           ∧ ∀ x, x ∈ extra ↔ x ∈ new ∧ x ∉ old.

Lemma add_each_union (new l : list value) : union_of l new (add_each new l).
Proof.
  revert l. induction new as [|y new IH]; intros l; cbn [add_each].
  - exists []. split; [by rewrite app_nil_r|]. split; [constructor|].
    intros x. split; [by intros ?%elem_of_nil|by intros [?%elem_of_nil _]].
  - destruct (mem y l) eqn:E.
    + apply mem_elem_of in E. destruct (IH l) as (extra & -> & Hnd & Hx).
      exists extra. split; [done|]. split; [done|]. intros x. rewrite Hx.
      rewrite elem_of_cons. split; [tauto|]. intros [[->|?] ?]; tauto.
    + apply mem_not_elem_of in E.
      destruct (IH (l ++ [y])) as (extra & -> & Hnd & Hx).
      exists (y :: extra). split; [by rewrite <- app_assoc|]. split.
      * constructor; [|done]. rewrite Hx. intros [_ Hy]. apply Hy.
        apply elem_of_app. right. by left.
      * intros x. rewrite !elem_of_cons, Hx, elem_of_app,
          list_elem_of_singleton.
        destruct (value_eqb x y) eqn:Exy.
        -- apply value_eqb_spec in Exy as ->. tauto.
        -- assert (x ≠ y) by (intros ?%value_eqb_spec; congruence). tauto.
Qed.

(** ** Two-component paths: slots *)

Section Slots.
Implicit Types (sec k : string) (d : document) (cur : option value).

(** What the component [k] reads below [cur]. *)
Definition below (k : string) (cur : option value) : result (option value) :=
  match cur with
  | None => Ok None
  | Some (VDoc fs) => Ok (get_field k fs)
  | Some (VArr l) =>
      match parse_index k with
      | Some i => Ok (l !! i)
      | None => Raise BulkWriteError
      end
  | Some _ => Raise BulkWriteError
  end.

(** [cur] with [v] written under [k]. *)
Definition rebuild (k : string) (v : value) (cur : option value) : value :=
  match cur with
  | Some (VDoc fs) => VDoc (set_field k v fs)
  | Some (VArr l) =>
      match parse_index k with
      | Some i => VArr (set_index i v l)
      | None => VArr l
      end
  | _ => VDoc [(k, v)]
  end.

(** The slot that the path [sec.k] addresses in a document. *)
Definition slot (sec k : string) (d : document) : result (option value) :=
  below k (get_field sec d).

Definition fill (sec k : string) (v : value) (d : document) : document :=
  set_field sec (rebuild k v (get_field sec d)) d.

Lemma update_path_one (leaf : option value → result value) k cur :
  update_path leaf [k] cur
  = c ← below k cur; v ← leaf c; Ok (rebuild k v cur).
Proof.
  destruct cur as [[| | | | |l|fs]|];
    cbn [update_path below rebuild mbind result_bind]; try done;
    try destruct (parse_index k); cbn [mbind result_bind]; try done;
    by destruct (leaf _).
Qed.

Lemma apply_at_two (leaf : option value → result value) (p : string) sec k d :
  split_path p = [sec; k] →
  apply_at leaf p d = c ← slot sec k d; v ← leaf c; Ok (fill sec k v d).
Proof.
  intros Hp. unfold apply_at, slot, fill. rewrite Hp.
  change (update_path leaf [sec; k] (Some (VDoc d)))
    with (v ← update_path leaf [k] (get_field sec d);
          Ok (VDoc (set_field sec v d))).
  rewrite update_path_one.
  destruct (below k (get_field sec d)) as [c|]; [|done].
  cbn [mbind result_bind]. by destruct (leaf c).
Qed.

Lemma lookup_set_index_eq (i : nat) (v : value) (l : list value) :
  set_index i v l !! i = Some v.
Proof.
  unfold set_index. destruct (Nat.ltb_spec i (length l)).
  - by apply list_lookup_insert_eq.
  - rewrite lookup_app_r by done. rewrite lookup_app_r; rewrite length_replicate.
    + by replace (i - length l - (i - length l))%nat with 0%nat by lia.
    + lia.
Qed.

Lemma lookup_set_index_ne (i j : nat) (v w : value) (l : list value) :
  i ≠ j → l !! j = Some w → set_index i v l !! j = Some w.
Proof.
  intros Hne Hj. unfold set_index. destruct (Nat.ltb_spec i (length l)).
  - by rewrite list_lookup_insert_ne.
  - rewrite lookup_app_l; [done|]. by eapply lookup_lt_Some.
Qed.

Lemma slot_fill_eq sec k v d (c : option value) :
  slot sec k d = Ok c → slot sec k (fill sec k v d) = Ok (Some v).
Proof.
  unfold slot, fill. rewrite get_field_set_field_eq.
  destruct (get_field sec d) as [[| | | | |l|fs]|]; cbn [below rebuild]; try done.
  - destruct (parse_index k) as [i|] eqn:E; [|done]. cbn [below].
    intros _. by rewrite lookup_set_index_eq.
  - intros _. by rewrite get_field_set_field_eq.
  - intros _. cbn. by rewrite String.eqb_refl.
Qed.

(** Filling one slot leaves what the others hold, unless they are the same
    slot. *)
Lemma slot_fill_other sec k v d (c : option value) sec' k' (w : value) :
  slot sec k d = Ok c →
  slot sec' k' d = Ok (Some w) →
  slot sec' k' (fill sec k v d) = Ok (Some w)
  ∨ (c = Some w ∧ slot sec' k' (fill sec k v d) = Ok (Some v)).
Proof.
  unfold slot, fill. destruct (String.eqb_spec sec sec') as [<-|Hsec].
  2:{ rewrite get_field_set_field_ne by done. by left. }
  rewrite get_field_set_field_eq.
  destruct (get_field sec d) as [[| | | | |l|fs]|]; cbn [below rebuild]; try done.
  - destruct (parse_index k) as [i|] eqn:Ei; [|done].
    destruct (parse_index k') as [j|] eqn:Ej; [|done].
    intros [= <-] [= Hj]. cbn [below].
    destruct (decide (i = j)) as [->|Hne].
    + right. split; [done|]. by rewrite lookup_set_index_eq.
    + left. by rewrite (lookup_set_index_ne i j v w).
  - intros [= <-] [= Hk]. destruct (String.eqb_spec k k') as [<-|Hne].
    + right. split; [done|]. by rewrite get_field_set_field_eq.
    + left. by rewrite get_field_set_field_ne, Hk.
Qed.

Lemma fill_same sec k v d : slot sec k d = Ok (Some v) → fill sec k v d = d.
Proof.
  unfold slot, fill. intros H. apply set_field_same.
  destruct (get_field sec d) as [[| | | | |l|fs]|]; cbn [below rebuild] in *;
    try done.
  - destruct (parse_index k) as [i|]; [|done]. injection H as H.
    do 2 f_equal. unfold set_index.
    rewrite (proj2 (Nat.ltb_lt _ _)) by (by eapply lookup_lt_Some).
    symmetry. by apply list_insert_id.
  - injection H as H. by rewrite set_field_same.
Qed.
End Slots.

(** ** When an $addToSet has nothing left to add *)

Section Satisfied.
Implicit Types (sec k p : string) (d : document) (new : list value).

(** The slot [sec.k] is an array that holds all of [new]. *)
Definition holds sec k new d : Prop :=
  ∃ l, slot sec k d = Ok (Some (VArr l)) ∧ ∀ x, x ∈ new → x ∈ l.

(** All paths of a [$addToSet] document have two components. *)
Definition two_level (spec : document) : Prop :=
  Forall (λ kv, ∃ sec k, split_path (fst kv) = [sec; k]) spec.

Definition satisfied_entry (d : document) (kv : string * value) : Prop :=
  ∃ sec k new, split_path (fst kv) = [sec; k]
               ∧ each_arg (snd kv) = Ok new ∧ holds sec k new d.

Definition satisfied (spec : document) (d : document) : Prop :=
  Forall (satisfied_entry d) spec.

Lemma add_leaf_inv new (c : option value) (v : value) :
  add_leaf new c = Ok v →
  ∃ old, v = VArr (add_each new old)
         ∧ (c = None ∧ old = [] ∨ c = Some (VArr old)).
Proof.
  destruct c as [[| | | | |l|]|]; cbn; try done; intros [= <-].
  - exists l. by split; [|right].
  - exists []. by split; [|left].
Qed.

Lemma step_holds p sec k new d d' :
  split_path p = [sec; k] →
  apply_at (add_leaf new) p d = Ok d' → holds sec k new d'.
Proof.
  intros Hp. rewrite (apply_at_two _ p sec k) by done.
  destruct (slot sec k d) as [c|] eqn:Hc; [|done]. cbn [mbind result_bind].
  destruct (add_leaf new c) as [v|] eqn:Hv; [|done]. cbn [mbind result_bind].
  intros [= <-]. apply add_leaf_inv in Hv as (old & -> & _).
  eexists. split; [by eapply slot_fill_eq|].
  intros x Hx. apply add_each_spec. by right.
Qed.

Lemma step_keeps p sec k new d d' sec' k' new' :
  split_path p = [sec; k] →
  apply_at (add_leaf new) p d = Ok d' →
  holds sec' k' new' d → holds sec' k' new' d'.
Proof.
  intros Hp. rewrite (apply_at_two _ p sec k) by done.
  destruct (slot sec k d) as [c|] eqn:Hc; [|done]. cbn [mbind result_bind].
  destruct (add_leaf new c) as [v|] eqn:Hv; [|done]. cbn [mbind result_bind].
  intros [= <-] (l' & Hl' & Hnew').
  destruct (slot_fill_other sec k v d c sec' k' (VArr l') Hc Hl')
    as [H|[-> H]].
  - by exists l'.
  - apply add_leaf_inv in Hv as (old & -> & [[? _]|[= <-]]); [done|].
    eexists. split; [done|]. intros x Hx. apply add_each_spec. left. auto.
Qed.

Lemma step_noop p sec k new d :
  split_path p = [sec; k] →
  holds sec k new d → apply_at (add_leaf new) p d = Ok d.
Proof.
  intros Hp (l & Hl & Hnew). rewrite (apply_at_two _ p sec k) by done.
  rewrite Hl. cbn [mbind result_bind add_leaf].
  rewrite add_each_present by done. by rewrite fill_same.
Qed.

Lemma addToSet_keeps (spec : document) d d' sec k new :
  two_level spec →
  apply_addToSet spec d = Ok d' → holds sec k new d → holds sec k new d'.
Proof.
  intros Hspec. revert d.
  induction Hspec as [|[p arg] spec (sec1 & k1 & Hp) Hspec IH]; intros d; simpl.
  - by intros [= <-].
  - destruct (each_arg arg) as [new1|]; [|done]. cbn [mbind result_bind].
    destruct (apply_at (add_leaf new1) p d) as [d1|] eqn:E1; [|done].
    cbn [mbind result_bind]. intros H Hh. apply (IH _ H).
    by eapply step_keeps.
Qed.

(** After an accepted [$addToSet], every entry finds its elements in
    place... *)
Lemma addToSet_satisfies (spec : document) d d' :
  two_level spec → apply_addToSet spec d = Ok d' → satisfied spec d'.
Proof.
  intros Hspec. revert d.
  induction Hspec as [|[p arg] spec (sec & k & Hp) Hspec IH]; intros d; simpl.
  - constructor.
  - destruct (each_arg arg) as [new|] eqn:Earg; [|done]. cbn [mbind result_bind].
    destruct (apply_at (add_leaf new) p d) as [d1|] eqn:E1; [|done].
    cbn [mbind result_bind]. intros H. constructor; [|by eapply IH].
    exists sec, k, new. split; [done|]. split; [done|].
    eapply addToSet_keeps; [done..|]. by eapply step_holds.
Qed.

(** ... so that the same [$addToSet] changes nothing any more... *)
Lemma satisfied_noop (spec : document) d :
  satisfied spec d → apply_addToSet spec d = Ok d.
Proof.
  induction 1 as [|[p arg] spec (sec & k & new & Hp & Harg & Hh) _ IH]; simpl;
    [done|].
  cbn in Hp, Harg. rewrite Harg. cbn [mbind result_bind].
  by rewrite (step_noop p sec k).
Qed.

(** ... and stays so under every other accepted [$addToSet]. *)
Lemma satisfied_keeps (spec spec' : document) d d' :
  two_level spec' →
  apply_addToSet spec' d = Ok d' → satisfied spec d → satisfied spec d'.
Proof.
  intros Hspec' H Hs. eapply Forall_impl; [exact Hs|].
  intros kv (sec & k & new & Hp & Harg & Hh). exists sec, k, new.
  split; [done|]. split; [done|]. by eapply addToSet_keeps.
Qed.
End Satisfied.

(** ** Entities whose keys name one field each *)

Section Dotless.
Implicit Types (e : Entity) (c : Collection).

Definition dotless (e : Entity) : bool :=
  forallb (λ kv, no_dot (fst kv)) (properties e)
  && forallb (λ kv, no_dot (fst kv)) (relationships e).

Lemma operation_two_level e :
  dotless e = true → two_level (addToSet (update (operation e))).
Proof.
  intros [Hp Hr]%andb_true_iff. rewrite forallb_forall in Hp, Hr.
  cbn [operation update addToSet].
  apply dict_merge_Forall; apply dict_of_Forall, Forall_forall;
    intros kv (x & -> & Hx)%list_elem_of_fmap; apply list_elem_of_In in Hx.
  - exists "properties", (fst x). cbn. apply split_property_key. by apply Hp.
  - exists "relationships", (fst x). cbn. apply split_relationship_key.
    by apply Hr.
Qed.

(** The steps of [add_documents] again, for entities that satisfy [P]. *)
Variable P : Entity → Prop.
Variable R : Collection → Collection → Prop.
Hypothesis R_refl : ∀ c, R c c.
Hypothesis R_trans : ∀ a b c, R a b → R b c → R a c.
Hypothesis R_step : ∀ e c c' acc acc',
  P e → execute (operation e) c acc = Ok (c', acc') → R c c'.

Lemma run_ops_steps_where (es : list Entity) c c' (acc : BulkWriteResult)
    (r : result BulkWriteResult) :
  Forall P es → run_ops (map operation es) c acc = (c', r) → R c c'.
Proof.
  intros HP. revert c acc.
  induction HP as [|e es He HP IH]; intros c acc; cbn [map run_ops].
  - intros [= <- _]. apply R_refl.
  - destruct (execute (operation e) c acc) as [[c1 acc1]|err] eqn:E.
    + intros H. eapply R_trans; [by eapply R_step|by eapply IH].
    + intros [= <- _]. apply R_refl.
Qed.

Lemma bulk_write_steps_where (es : list Entity) c c'
    (r : result BulkWriteResult) :
  Forall P es → bulk_write (map operation es) c = (c', r) → R c c'.
Proof.
  intros HP. destruct es as [|e es].
  - intros [= <- _]. apply R_refl.
  - by apply (run_ops_steps_where (e :: es)).
Qed.

Lemma loop_steps_where (extract_entities : string → list Entity)
    (documents : list Document) c c' (res : list BulkWriteResult)
    (r : result (list BulkWriteResult)) :
  Forall (λ doc, Forall P (extract_entities (page_content doc))) documents →
  add_documents_loop extract_entities documents c res = (c', r) → R c c'.
Proof.
  intros HP. revert c res.
  induction HP as [|doc ds Hdoc HP IH]; intros c res; cbn [add_documents_loop].
  - intros [= <- _]. apply R_refl.
  - destruct (map operation (extract_entities (page_content doc)))
      as [|o os] eqn:Eops; [apply IH|].
    rewrite <- Eops.
    destruct (bulk_write _ c) as [c1 [r1|err]] eqn:Eb.
    + intros H. eapply R_trans; [by eapply bulk_write_steps_where|by eapply IH].
    + intros [= <- _]. by eapply bulk_write_steps_where.
Qed.
End Dotless.

(** ** Settled upserts *)

Section Settled.
Implicit Types (e : Entity) (c : Collection) (d : document) (op : UpdateOne).

(** An upsert is settled in a collection when the document it selects
    already holds everything the upsert would add. *)
Definition settled op c : Prop :=
  valid_update (update op) = true
  ∧ ∃ i d, first_match (filter op) (docs c) i d
           ∧ satisfied (addToSet (update op)) d.

Lemma apply_update_merge_inv (u : update_spec) d d' :
  apply_update u false d = Ok d' →
  valid_update u = true ∧ apply_addToSet (addToSet u) d = Ok d'.
Proof. unfold apply_update. by destruct (valid_update u). Qed.

Lemma apply_update_insert_inv (u : update_spec) d d' :
  apply_update u true d = Ok d' →
  valid_update u = true
  ∧ ∃ d1, apply_set (setOnInsert u) d = Ok d1
          ∧ apply_addToSet (addToSet u) d1 = Ok d'.
Proof.
  unfold apply_update. destruct (valid_update u); [|done].
  destruct (apply_set _ d) as [d1|]; [|done]. cbn [mbind result_bind].
  intros H. split; [done|]. by exists d1.
Qed.

Lemma matches_ID e d d' :
  get_field "ID" d' = get_field "ID" d →
  matches (filter (operation e)) d' = matches (filter (operation e)) d.
Proof. intros H. unfold matches. cbn. by rewrite H. Qed.

Lemma matches_own_ID e d :
  get_field "ID" d = Some (VStr (ID e)) → matches (filter (operation e)) d = true.
Proof.
  intros H. unfold matches. cbn. rewrite H. cbn.
  by rewrite String.eqb_refl.
Qed.

Lemma first_match_insert (flt : document) (ds : list document) (i j : nat)
    d dj dj' :
  first_match flt ds i d → ds !! j = Some dj →
  matches flt dj' = matches flt dj →
  first_match flt (<[j := dj']> ds) i (if decide (i = j) then dj' else d).
Proof.
  intros (Hi & Hm & Hlt) Hj Hsame.
  assert (Hlen : (j < length ds)%nat) by (by eapply lookup_lt_Some).
  split; [|split].
  - destruct (decide (i = j)) as [->|Hne].
    + by apply list_lookup_insert_eq.
    + by rewrite list_lookup_insert_ne.
  - destruct (decide (i = j)) as [->|Hne]; [|done].
    rewrite Hsame. by simplify_eq.
  - intros m d0 Hm0. destruct (decide (m = j)) as [->|Hne].
    + rewrite list_lookup_insert_eq by done. intros [= <-].
      rewrite Hsame. by eapply Hlt.
    + rewrite list_lookup_insert_ne by done. by eapply Hlt.
Qed.

Lemma first_match_snoc (flt : document) (ds : list document) (i : nat) d d' :
  first_match flt ds i d → first_match flt (ds ++ [d']) i d.
Proof.
  intros (Hi & Hm & Hlt).
  assert (Hlen : (i < length ds)%nat) by (by eapply lookup_lt_Some).
  split; [by rewrite lookup_app_l|]. split; [done|].
  intros j d0 Hj. rewrite lookup_app_l by lia. by apply Hlt.
Qed.

(** An accepted upsert is settled afterwards. *)
Lemma execute_settles e c c' (acc acc' : BulkWriteResult) :
  dotless e = true →
  execute (operation e) c acc = Ok (c', acc') → settled (operation e) c'.
Proof.
  intros He H.
  apply execute_upsert in H
    as [(i & d & d' & Hfm & Hd' & ->)|(d' & Hno & Hd' & ->)]; [| |done].
  - pose proof (merge_frame e "ID" d d' ltac:(done) ltac:(done) Hd') as HID.
    apply apply_update_merge_inv in Hd' as [Hv Hd']. split; [done|].
    exists i, d'. split.
    + pose proof (first_match_insert _ _ i i d d d' Hfm (proj1 Hfm)
                    (matches_ID e d d' HID)) as H.
      by rewrite decide_True in H.
    + eapply addToSet_satisfies; [by apply operation_two_level|done].
  - pose proof (insert_identity e _ d' Hd') as (_ & HID & _).
    apply apply_update_insert_inv in Hd' as (Hv & d1 & _ & Hd'). split; [done|].
    exists (length (docs c)), d'. split.
    + split; [|split].
      * cbn. rewrite lookup_app_r by done. by rewrite Nat.sub_diag.
      * by apply matches_own_ID.
      * intros j d0 Hj Hd0. cbn in Hd0. rewrite lookup_app_l in Hd0 by done.
        rewrite Forall_forall in Hno. eapply Hno.
        by eapply list_elem_of_lookup_2.
    + eapply addToSet_satisfies; [by apply operation_two_level|done].
Qed.

(** A settled upsert changes nothing. *)
Lemma settled_noop op c (acc : BulkWriteResult) :
  settled op c → ∃ acc', execute op c acc = Ok (c, acc').
Proof.
  intros (Hv & i & d & Hfm & Hs). unfold execute.
  rewrite (first_match_update _ _ _ i d) by done.
  unfold apply_update. rewrite Hv. cbn [mbind result_bind].
  rewrite satisfied_noop by done. cbn [mbind result_bind].
  rewrite list_insert_id by apply Hfm. destruct c. by eexists.
Qed.

(** A settled upsert stays settled under every other accepted upsert. *)
Lemma settled_keeps e e' c c' (acc acc' : BulkWriteResult) :
  dotless e' = true →
  execute (operation e') c acc = Ok (c', acc') →
  settled (operation e) c → settled (operation e) c'.
Proof.
  intros He' H (Hv & i & d & Hfm & Hs). split; [done|].
  apply execute_upsert in H
    as [(j & dj & dj' & Hfmj & Hdj' & ->)|(d' & Hno & Hd' & ->)]; [| |done].
  - pose proof (merge_frame e' "ID" dj dj' ltac:(done) ltac:(done) Hdj') as HID.
    apply apply_update_merge_inv in Hdj' as [_ Hdj'].
    exists i, (if decide (i = j) then dj' else d). split.
    + apply first_match_insert with dj; [done|apply Hfmj|by apply matches_ID].
    + destruct (decide (i = j)) as [->|Hne]; [|done].
      assert (d = dj) as -> by (destruct Hfm, Hfmj; by simplify_eq).
      eapply satisfied_keeps; [by apply operation_two_level|done..].
  - exists i, d. split; [|done]. by apply first_match_snoc.
Qed.

(** Whether an upsert is accepted does not depend on the counters. *)
Lemma execute_raise_any op c (acc acc2 : BulkWriteResult) (err : exn) :
  execute op c acc = Raise err → execute op c acc2 = Raise err.
Proof.
  unfold execute. destruct (update_first _ _ _) as [[ds|err']|].
  - done.
  - done.
  - destruct (upsert op); [|done]. by destruct (apply_update _ true _).
Qed.
End Settled.

(** ** Merging twice *)

Section Replay.
Variable extract_entities : string → list Entity.
Implicit Types (c : Collection) (es : list Entity).

Definition is_Ok {A : Type} (r : result A) : Prop :=
  match r with
  | Ok _ => True
  | Raise _ => False
  end.

(** Upserts that were settled stay settled through a whole batch... *)
Lemma settled_through_batch e es c c' (acc : BulkWriteResult)
    (r : result BulkWriteResult) :
  forallb dotless es = true →
  run_ops (map operation es) c acc = (c', r) →
  settled (operation e) c → settled (operation e) c'.
Proof.
  intros Hes H.
  refine (run_ops_steps_where (λ e, dotless e = true)
            (λ c c', settled (operation e) c → settled (operation e) c')
            _ _ _ es c c' acc r _ H).
  - auto.
  - auto.
  - intros e' c1 c2 acc1 acc2 He'. by apply settled_keeps.
  - apply Forall_forall. intros x Hx. rewrite forallb_forall in Hes.
    by apply Hes, list_elem_of_In.
Qed.

(** ... and through all the batches of an [add_documents] call. *)
Lemma settled_through_loop e (documents : list Document) c c'
    (res : list BulkWriteResult) (r : result (list BulkWriteResult)) :
  forallb (λ doc, forallb dotless (extract_entities (page_content doc)))
    documents = true →
  add_documents_loop extract_entities documents c res = (c', r) →
  settled (operation e) c → settled (operation e) c'.
Proof.
  intros Hdocs H.
  refine (loop_steps_where (λ e, dotless e = true)
            (λ c c', settled (operation e) c → settled (operation e) c')
            _ _ _ extract_entities documents c c' res r _ H).
  - auto.
  - auto.
  - intros e' c1 c2 acc1 acc2 He'. by apply settled_keeps.
  - apply Forall_forall. intros doc Hdoc. rewrite forallb_forall in Hdocs.
    apply list_elem_of_In, Hdocs in Hdoc. rewrite forallb_forall in Hdoc.
    apply Forall_forall. intros x Hx. by apply Hdoc, list_elem_of_In.
Qed.

(** A batch that was accepted leaves all its upserts settled. *)
Lemma batch_settles es c c' (acc acc' : BulkWriteResult) :
  forallb dotless es = true →
  run_ops (map operation es) c acc = (c', Ok acc') →
  Forall (λ e, settled (operation e) c') es.
Proof.
  revert c acc. induction es as [|e es IH]; intros c acc Hes; [constructor|].
  cbn [forallb] in Hes. apply andb_true_iff in Hes as [He Hes].
  cbn [map run_ops].
  destruct (execute (operation e) c acc) as [[c1 acc1]|err] eqn:E; [|done].
  intros H. constructor; [|by eapply IH].
  eapply settled_through_batch; [done..|]. by eapply execute_settles.
Qed.

(** Settled upserts run through without a change. *)
Lemma settled_batch es c (acc : BulkWriteResult) :
  Forall (λ e, settled (operation e) c) es →
  ∃ acc', run_ops (map operation es) c acc = (c, Ok acc').
Proof.
  intros Hes. revert acc.
  induction Hes as [|e es He Hes IH]; intros acc; cbn [map run_ops].
  - by eexists.
  - destruct (settled_noop _ c acc He) as [acc1 ->]. apply IH.
Qed.

(** A batch that was rejected is rejected again, where it stopped. *)
Lemma rejected_batch es c c' (acc acc2 : BulkWriteResult) (err : exn) :
  forallb dotless es = true →
  run_ops (map operation es) c acc = (c', Raise err) →
  ∃ err', run_ops (map operation es) c' acc2 = (c', Raise err').
Proof.
  revert c acc acc2. induction es as [|e es IH]; intros c acc acc2 Hes; [done|].
  cbn [forallb] in Hes. apply andb_true_iff in Hes as [He Hes].
  cbn [map run_ops].
  destruct (execute (operation e) c acc) as [[c1 acc1]|err1] eqn:E.
  - intros H.
    assert (settled (operation e) c') as Hs.
    { eapply settled_through_batch; [done..|]. by eapply execute_settles. }
    destruct (settled_noop _ c' acc2 Hs) as [acc3 ->]. by eapply IH.
  - intros [= <- <-]. exists err1.
    by rewrite (execute_raise_any _ _ acc acc2 err1).
Qed.

Lemma loop_replay (documents : list Document) c c'
    (res res2 : list BulkWriteResult) (r : result (list BulkWriteResult)) :
  forallb (λ doc, forallb dotless (extract_entities (page_content doc)))
    documents = true →
  add_documents_loop extract_entities documents c res = (c', r) →
  ∃ r2, add_documents_loop extract_entities documents c' res2 = (c', r2)
        ∧ (is_Ok r → is_Ok r2).
Proof.
  revert c res res2.
  induction documents as [|doc ds IH]; intros c res res2 Hdocs;
    cbn [add_documents_loop].
  - intros [= <- <-]. by eexists.
  - cbn [forallb] in Hdocs. apply andb_true_iff in Hdocs as [Hdoc Hds].
    destruct (extract_entities (page_content doc)) as [|e es] eqn:Ees;
      cbn [map]; [by apply IH|].
    change (operation e :: map operation es) with (map operation (e :: es)).
    unfold bulk_write. cbn [map].
    change (operation e :: map operation es) with (map operation (e :: es)).
    destruct (run_ops (map operation (e :: es)) c no_writes)
      as [c1 [b|err]] eqn:Eb.
    + intros H.
      assert (Forall (λ e, settled (operation e) c') (e :: es)) as Hs.
      { eapply Forall_impl; [by eapply batch_settles|].
        intros x Hx. by eapply settled_through_loop. }
      destruct (settled_batch _ c' no_writes Hs) as [b2 ->].
      by eapply IH.
    + intros [= <- <-].
      destruct (rejected_batch _ _ _ _ no_writes _ Hdoc Eb) as [err' ->].
      by eexists.
Qed.
End Replay.

(** X20.  For entities whose property and relationship names contain no
    ["."], merging the same documents a second time leaves the store
    exactly as the first merge left it, whatever the store held before and
    whether the first call returned or raised; a call that returned returns
    again. *)
Theorem add_documents_idempotent (extract_entities : string → list Entity)
    (self self1 : MongoDBGraphStore) (documents : documents_arg)
    (r1 : result (list BulkWriteResult)) :
  forallb (λ doc, forallb dotless (extract_entities (page_content doc)))
    (as_list documents) = true →
  add_documents extract_entities self documents = (self1, r1) →
  ∃ r2, add_documents extract_entities self1 documents = (self1, r2)
        ∧ (is_Ok r1 → is_Ok r2).
Proof.
  intros Hdocs. unfold add_documents.
  destruct (add_documents_loop _ _ (collection self) []) as [c1 r] eqn:E.
  intros [= <- <-]. cbn [collection max_depth].
  destruct (loop_replay extract_entities _ _ _ _ [] _ Hdocs E) as (r2 & -> & Hok).
  by exists r2.
Qed.

Lemma add_documents_idempotent_witness :
  ∃ r2, add_documents Sample.extract chain_after_second_text
          (One (Sample.text "A founded it in 2018."))
        = (chain_after_second_text, r2)
        ∧ (is_Ok (Ok [{| matched_count := 1; upserted_count := 0 |}]) → is_Ok r2).
Proof.
  apply (add_documents_idempotent Sample.extract Sample.chain
           chain_after_second_text (One (Sample.text "A founded it in 2018."))
           (Ok [{| matched_count := 1; upserted_count := 0 |}]));
    reflexivity.
Defined.

(** *** Keys with a ["."] *)

(** A property whose value is a list is stored as one element... *)
Definition listed_entity : Entity :=
  {| ID := "D"; type := "Thing";
     properties := [("a", VArr [VStr "x"])]; relationships := [] |}.

(** ... and a key ["a.0"] is the path to the first element of [a]. *)
Definition indexed_entity : Entity :=
  {| ID := "D"; type := "Thing";
     properties := [("a.0", VStr "y")]; relationships := [] |}.

Definition extract_indexed (text : string) : list Entity :=
  [listed_entity; indexed_entity].

Definition merged_once : MongoDBGraphStore :=
  fst (add_documents extract_indexed Sample.empty_store (One (Sample.text "D"))).

Definition merged_twice : MongoDBGraphStore :=
  fst (add_documents extract_indexed merged_once (One (Sample.text "D"))).

(** C3 (fails on the code).  The update paths are built as
    ["properties." + key] without escaping, so the key ["a.0"] is the path to
    the first element of [a].  Starting from the empty collection, the first
    merge of the two entities stores [a = [["x", "y"]]] (the second entity
    extends the element that the first one stored), and merging the same
    document again stores [["x"]] once more next to it: the second merge
    changes the store, against the set semantics that [$addToSet] is used
    for (["# Update without overwriting"]). *)
Lemma add_documents_twice_differs :
  docs (collection merged_once)
  = [[("_id", VOid 0); ("ID", VStr "D"); ("type", VStr "Thing");
      ("properties", VDoc [("a", VArr [VArr [VStr "x"; VStr "y"]])])]]
  ∧ docs (collection merged_twice)
    = [[("_id", VOid 0); ("ID", VStr "D"); ("type", VStr "Thing");
        ("properties",
         VDoc [("a", VArr [VArr [VStr "x"; VStr "y"]; VArr [VStr "x"]])])]]
  ∧ merged_twice ≠ merged_once.
Proof.
  split; [reflexivity|]. split; [reflexivity|].
  intros H. apply (f_equal (λ s, docs (collection s))) in H.
  vm_compute in H. discriminate.
Qed.

(** ** Merging into a well-formed entity document *)

Section Dicts.
Implicit Types (k : string) (v : value) (d : document).

Lemma set_field_fresh k v d : k ∉ map fst d → set_field k v d = d ++ [(k, v)].
Proof.
  induction d as [|[k' v'] d IH]; simpl; [done|].
  intros H. apply not_elem_of_cons in H as [Hne H].
  destruct (String.eqb_spec k' k) as [->|_]; [done|]. by rewrite IH.
Qed.

(** Distinct keys: the dict holds the items as they were given. *)
Lemma dict_merge_NoDup (a b : document) :
  NoDup (map fst (a ++ b)) → dict_merge a b = a ++ b.
Proof.
  unfold dict_merge. revert a.
  induction b as [|[k v] b IH]; intros a; simpl; [by rewrite app_nil_r|].
  intros H. rewrite set_field_fresh.
  - rewrite IH; rewrite <- app_assoc; done.
  - rewrite map_app in H. apply NoDup_app in H as (_ & H & _).
    intros Hk. apply (H k); [done|]. by left.
Qed.

Lemma dict_of_NoDup (items : document) :
  NoDup (map fst items) → dict_of items = items.
Proof. intros H. by apply (dict_merge_NoDup [] items). Qed.
End Dicts.

Section Entity_updates.
Implicit Types (e : Entity) (k : string).

(** The entity is a pair of dicts with plain keys; no property value is an
    [{"$each": ..}] document, which [$addToSet] would read as a modifier. *)
Definition literal (v : value) : bool :=
  match v with
  | VDoc ((k, _) :: _) => negb (String.eqb k "$each")
  | _ => true
  end.

Record entity_ok (e : Entity) : Prop := {
  properties_plain : Forall (λ kv, plain (fst kv) = true) (properties e);
  properties_literal : Forall (λ kv, literal (snd kv) = true) (properties e);
  properties_dict : NoDup (map fst (properties e));
  relationships_plain : Forall (λ kv, plain (fst kv) = true) (relationships e);
  relationships_dict : NoDup (map fst (relationships e))
}.

Definition property_item (kv : string * value) : string * value :=
  (("properties." ++ fst kv)%string, snd kv).

Definition relationship_item (kv : string * list value) : string * value :=
  (("relationships." ++ fst kv)%string, VDoc [("$each", VArr (snd kv))]).

Definition items (e : Entity) : document :=
  map property_item (properties e) ++ map relationship_item (relationships e).

Lemma append_inj (p a b : string) : (p ++ a = p ++ b)%string → a = b.
Proof. induction p as [|c p IH]; simpl; [done|]. intros [= H]. auto. Qed.

Lemma items_keys_NoDup e :
  NoDup (map fst (properties e)) → NoDup (map fst (relationships e)) →
  NoDup (map fst (items e)).
Proof.
  intros Hp Hr. unfold items. rewrite map_app, !map_map. cbn [property_item
    relationship_item fst].
  apply NoDup_app. split; [|split].
  - rewrite <- (map_map fst (λ k, ("properties." ++ k)%string)).
    apply NoDup_fmap_2; [|done]. intros a b. apply append_inj.
  - intros p (x & -> & _)%list_elem_of_fmap (y & E & _)%list_elem_of_fmap.
    discriminate E.
  - rewrite <- (map_map fst (λ k, ("relationships." ++ k)%string)).
    apply NoDup_fmap_2; [|done]. intros a b. apply append_inj.
Qed.

Lemma operation_items e :
  NoDup (map fst (properties e)) → NoDup (map fst (relationships e)) →
  addToSet (update (operation e)) = items e.
Proof.
  intros Hp Hr. pose proof (items_keys_NoDup e Hp Hr) as H.
  cbn [operation update addToSet]. unfold items in *.
  pose proof H as H0.
  rewrite map_app in H. apply NoDup_app in H as (H1 & _ & H2).
  fold property_item relationship_item.
  rewrite !dict_of_NoDup by done. by apply dict_merge_NoDup.
Qed.
End Entity_updates.

Section Valid_updates.
Implicit Types (s k : string) (ks : list string) (ps : list (list string)).

Lemma conflict_free_app ps qs :
  conflict_free ps = true → conflict_free qs = true →
  Forall (λ p, Forall (λ q, conflict p q = false) qs) ps →
  conflict_free (ps ++ qs) = true.
Proof.
  intros Hps Hqs Hcross. induction Hcross as [|p ps Hp Hcross IH]; [done|].
  cbn [app conflict_free] in *. apply andb_true_iff in Hps as [Hp' Hps].
  apply andb_true_iff. split; [|by apply IH].
  rewrite forallb_app, Hp'. cbn. apply forallb_forall.
  intros q Hq. rewrite Forall_forall in Hp.
  by rewrite Hp by (by apply list_elem_of_In).
Qed.

Lemma conflict_two s k s' k' :
  conflict [s; k] [s'; k'] = String.eqb s s' && String.eqb k k'.
Proof.
  unfold conflict. cbn. rewrite !andb_true_r.
  rewrite (String.eqb_sym s' s), (String.eqb_sym k' k). apply orb_diag.
Qed.

Lemma conflict_one_two a s k :
  String.eqb a s = false → conflict [a] [s; k] = false.
Proof.
  intros H. unfold conflict. cbn. rewrite H. cbn. apply andb_false_r.
Qed.

Lemma section_conflict_free s ks :
  NoDup ks → conflict_free (map (λ k, [s; k]) ks) = true.
Proof.
  induction 1 as [|k ks Hk Hks IH]; [done|]. cbn [map conflict_free].
  rewrite IH, andb_true_r. apply forallb_forall.
  intros q (k' & <- & Hk')%in_map_iff. rewrite conflict_two, String.eqb_refl.
  cbn. apply negb_true_iff, String.eqb_neq. intros ->.
  by apply Hk, list_elem_of_In.
Qed.

Lemma sections_apart s s' ks ks' :
  String.eqb s s' = false →
  Forall (λ p, Forall (λ q, conflict p q = false) (map (λ k, [s'; k]) ks'))
    (map (λ k, [s; k]) ks).
Proof.
  intros H. apply Forall_forall. intros p (k & -> & _)%list_elem_of_fmap.
  apply Forall_forall. intros q (k' & -> & _)%list_elem_of_fmap.
  by rewrite conflict_two, H.
Qed.

Lemma one_apart a s ks :
  String.eqb a s = false →
  forallb (λ q, negb (conflict [a] q)) (map (λ k, [s; k]) ks) = true.
Proof.
  intros H. apply forallb_forall. intros q (k & <- & _)%in_map_iff.
  by rewrite conflict_one_two.
Qed.

Lemma plain_no_dot k : plain k = true → no_dot k = true.
Proof. by intros [? _]%andb_true_iff. Qed.

Lemma plain_valid k : plain k = true → valid_component k = true.
Proof. by intros [_ ?]%andb_true_iff. Qed.

Lemma items_paths (e : Entity) :
  entity_ok e →
  map (λ kv, split_path (fst kv)) (items e)
  = map (λ k, ["properties"; k]) (map fst (properties e))
    ++ map (λ k, ["relationships"; k]) (map fst (relationships e)).
Proof.
  intros He. unfold items. rewrite map_app, !map_map. f_equal.
  - apply map_ext_Forall. eapply Forall_impl; [apply (properties_plain e He)|].
    intros kv Hkv. by apply split_property_key, plain_no_dot.
  - apply map_ext_Forall. eapply Forall_impl; [apply (relationships_plain e He)|].
    intros kv Hkv. by apply split_relationship_key, plain_no_dot.
Qed.

(** The update built for a well-formed entity passes the parser. *)
Lemma operation_valid (e : Entity) :
  entity_ok e → valid_update (update (operation e)) = true.
Proof.
  intros He. unfold valid_update.
  rewrite operation_items by apply He. cbn [operation update setOnInsert].
  cbn [app map fst]. rewrite items_paths by done.
  change (split_path "ID") with ["ID"]. change (split_path "type") with ["type"].
  apply andb_true_iff. split.
  - cbn [forallb].
    replace (valid_component "ID") with true by reflexivity.
    replace (valid_component "type") with true by reflexivity. cbn [andb].
    rewrite forallb_app. apply andb_true_iff.
    split; apply forallb_forall; intros p (k & <- & Hk)%in_map_iff;
      apply in_map_iff in Hk as (kv & <- & Hkv); cbn [forallb];
      rewrite andb_true_r;
      [replace (valid_component "properties") with true by reflexivity
      |replace (valid_component "relationships") with true by reflexivity];
      cbn [andb]; apply plain_valid.
    + pose proof (properties_plain e He) as H. rewrite Forall_forall in H.
      by apply H, list_elem_of_In.
    + pose proof (relationships_plain e He) as H. rewrite Forall_forall in H.
      by apply H, list_elem_of_In.
  - cbn [conflict_free forallb].
    change (conflict ["ID"] ["type"]) with false.
    rewrite !forallb_app, !one_apart by done. cbn [negb andb].
    apply conflict_free_app.
    + apply section_conflict_free, He.
    + apply section_conflict_free, He.
    + by apply sections_apart.
Qed.
End Valid_updates.

Section Entity_documents.
Implicit Types (sec k : string) (d : document) (l new : list value).

(** A section (["properties"] or ["relationships"]) of a stored entity is
    absent or a document of arrays. *)
Definition section_ok (sec : string) (d : document) : bool :=
  match get_field sec d with
  | None => true
  | Some (VDoc fs) => arrays_only fs
  | Some _ => false
  end.

Definition entity_document (d : document) : bool :=
  section_ok "properties" d && section_ok "relationships" d.

(** The array stored for a key of a section; empty when there is none. *)
Definition stored (sec k : string) (d : document) : list value :=
  match get_field sec d with
  | Some (VDoc fs) =>
      match get_field k fs with
      | Some (VArr l) => l
      | _ => []
      end
  | _ => []
  end.

Lemma arrays_only_get (fs : document) k (v : value) :
  arrays_only fs = true → get_field k fs = Some v → ∃ l, v = VArr l.
Proof.
  induction fs as [|[k' v'] fs IH]; simpl; [done|].
  intros [Hv Hfs]%andb_true_iff. destruct (String.eqb k' k); [|by apply IH].
  intros [= <-]. destruct v'; try done. by eexists.
Qed.

Lemma arrays_only_set (fs : document) k l :
  arrays_only fs = true → arrays_only (set_field k (VArr l) fs) = true.
Proof.
  induction fs as [|[k' v'] fs IH]; simpl; [done|].
  intros [Hv Hfs]%andb_true_iff. destruct (String.eqb k' k); simpl.
  - done.
  - by rewrite Hv, IH.
Qed.

Lemma slot_ok sec k d :
  section_ok sec d = true →
  slot sec k d = Ok None ∧ stored sec k d = []
  ∨ slot sec k d = Ok (Some (VArr (stored sec k d))).
Proof.
  unfold section_ok, slot, stored.
  destruct (get_field sec d) as [[| | | | | |fs]|]; try done; [|by left].
  intros Hfs. cbn [below]. destruct (get_field k fs) as [v|] eqn:E; [|by left].
  destruct (arrays_only_get fs k v Hfs E) as [l ->]. by right.
Qed.

Lemma apply_at_ok (p : string) sec k new d :
  section_ok sec d = true → split_path p = [sec; k] →
  apply_at (add_leaf new) p d
  = Ok (fill sec k (VArr (add_each new (stored sec k d))) d).
Proof.
  intros Hd Hp. rewrite (apply_at_two _ p sec k) by done.
  by destruct (slot_ok sec k d Hd) as [[-> ->]| ->].
Qed.

Lemma stored_fill sec k l d sec' k' :
  section_ok sec d = true →
  stored sec' k' (fill sec k (VArr l) d)
  = if String.eqb sec sec' && String.eqb k k' then l else stored sec' k' d.
Proof.
  unfold section_ok, stored, fill. intros Hd.
  destruct (String.eqb_spec sec sec') as [<-|Hsec]; cbn [andb].
  2:{ by rewrite get_field_set_field_ne. }
  rewrite get_field_set_field_eq.
  destruct (get_field sec d) as [[| | | | | |fs]|]; try done; cbn [rebuild].
  - destruct (String.eqb_spec k k') as [<-|Hk].
    + by rewrite get_field_set_field_eq.
    + by rewrite get_field_set_field_ne.
  - cbn [get_field]. by destruct (String.eqb k k').
Qed.

Lemma section_ok_fill sec k l d sec' :
  section_ok sec d = true → section_ok sec' d = true →
  section_ok sec' (fill sec k (VArr l) d) = true.
Proof.
  unfold section_ok, fill. intros Hd Hd'.
  destruct (String.eqb_spec sec sec') as [<-|Hsec].
  2:{ by rewrite get_field_set_field_ne. }
  rewrite get_field_set_field_eq.
  destruct (get_field sec d) as [[| | | | | |fs]|]; try done; cbn [rebuild].
  by apply arrays_only_set.
Qed.
End Entity_documents.

Section Exact_merge.
Implicit Types (sec k : string) (d : document) (spec : document).

Definition at_slot (sec k : string) (path : list string) : bool :=
  match path with
  | [a; b] => String.eqb a sec && String.eqb b k
  | _ => false
  end.

Lemma at_slot_spec sec k (path : list string) :
  at_slot sec k path = true ↔ path = [sec; k].
Proof.
  destruct path as [|a [|b [|? ?]]]; cbn; try (split; [done|congruence]).
  rewrite andb_true_iff, !String.eqb_eq. split; [by intros [-> ->]|].
  by intros [= -> ->].
Qed.

(** The elements that a [$addToSet] document adds to the slot [sec.k]. *)
Fixpoint adds spec (sec k : string) : list value :=
  match spec with
  | [] => []
  | (p, arg) :: spec' =>
      if at_slot sec k (split_path p) then
        match each_arg arg with
        | Ok new => new
        | Raise _ => []
        end
      else adds spec' sec k
  end.

Lemma adds_absent spec sec k :
  [sec; k] ∉ map (λ kv, split_path (fst kv)) spec → adds spec sec k = [].
Proof.
  induction spec as [|[p arg] spec IH]; simpl; [done|].
  intros [Hp H]%not_elem_of_cons.
  destruct (at_slot sec k (split_path p)) eqn:E; [|by apply IH].
  apply at_slot_spec in E. congruence.
Qed.

Lemma adds_present spec sec k (p : string) (arg : value) (new : list value) :
  NoDup (map (λ kv, split_path (fst kv)) spec) →
  (p, arg) ∈ spec → split_path p = [sec; k] → each_arg arg = Ok new →
  adds spec sec k = new.
Proof.
  intros Hnd Hin Hp Harg.
  induction spec as [|[p' arg'] spec IH]; [by apply elem_of_nil in Hin|].
  cbn [map fst] in Hnd. apply NoDup_cons in Hnd as [Hfresh Hnd]. cbn [adds].
  apply elem_of_cons in Hin as [[= <- <-]|Hin].
  - rewrite Hp. rewrite (proj2 (at_slot_spec sec k _) eq_refl). by rewrite Harg.
  - destruct (at_slot sec k (split_path p')) eqn:E; [|by apply IH].
    apply at_slot_spec in E. exfalso. apply Hfresh. rewrite E, <- Hp.
    apply list_elem_of_fmap. by exists (p, arg).
Qed.

Definition in_entity_sections (kv : string * value) : Prop :=
  (∃ k, split_path (fst kv) = ["properties"; k]
        ∨ split_path (fst kv) = ["relationships"; k])
  ∧ is_Ok (each_arg (snd kv)).

Lemma entity_document_fill sec k l d :
  sec = "properties" ∨ sec = "relationships" →
  entity_document d = true → entity_document (fill sec k (VArr l) d) = true.
Proof.
  unfold entity_document. intros Hsec [Hp Hr]%andb_true_iff.
  apply andb_true_iff.
  destruct Hsec as [-> | ->]; split; by apply section_ok_fill.
Qed.

(** On an entity document the [$addToSet] is accepted, and each slot ends
    up with what it held plus what the update adds to it. *)
Lemma apply_addToSet_ok spec d :
  Forall in_entity_sections spec →
  NoDup (map (λ kv, split_path (fst kv)) spec) →
  entity_document d = true →
  ∃ d', apply_addToSet spec d = Ok d'
        ∧ entity_document d' = true
        ∧ ∀ sec k, stored sec k d' = add_each (adds spec sec k) (stored sec k d).
Proof.
  intros Hspec. revert d.
  induction Hspec as [|[p arg] spec [[k0 Hp] Harg] Hspec IH]; intros d Hnd Hd.
  - exists d. by repeat split.
  - cbn [map fst] in Hnd. apply NoDup_cons in Hnd as [Hfresh Hnd].
    cbn [fst snd] in Hp, Harg. cbn [apply_addToSet adds].
    destruct (each_arg arg) as [new|]; [|done]. cbn [mbind result_bind].
    assert (∃ sec, split_path p = [sec; k0]
                   ∧ (sec = "properties" ∨ sec = "relationships")) as (sec & Hp' & Hsec).
    { destruct Hp as [Hp|Hp]; eexists; (split; [exact Hp|]); auto. }
    assert (section_ok sec d = true) as Hsd.
    { apply andb_true_iff in Hd as [? ?]. by destruct Hsec as [-> | ->]. }
    rewrite (apply_at_ok p sec k0) by done. cbn [mbind result_bind].
    set (d1 := fill sec k0 _ d).
    destruct (IH d1 Hnd) as (d' & Hd' & Hok & Hst).
    { by apply entity_document_fill. }
    exists d'. split; [done|]. split; [done|].
    intros s k. rewrite Hst. unfold d1. rewrite stored_fill by done.
    rewrite Hp'. cbn [at_slot].
    rewrite (String.eqb_sym sec s), (String.eqb_sym k0 k).
    destruct (String.eqb_spec s sec) as [->|Hs]; cbn [andb]; [|done].
    destruct (String.eqb_spec k k0) as [->|Hk]; [|done].
    rewrite adds_absent; [done|]. by rewrite <- Hp'.
Qed.
End Exact_merge.

(** ** The merge as a set union *)

Section Union.
Implicit Types (e : Entity) (d : document).

Fixpoint distinct (ks : list string) : bool :=
  match ks with
  | [] => true
  | k :: ks' => negb (existsb (String.eqb k) ks') && distinct ks'
  end.

Lemma distinct_NoDup (ks : list string) : distinct ks = true → NoDup ks.
Proof.
  induction ks as [|k ks IH]; simpl; [constructor|].
  intros [Hk Hks]%andb_true_iff. constructor; [|by apply IH].
  intros Hin. apply negb_true_iff in Hk.
  assert (existsb (String.eqb k) ks = true); [|congruence].
  apply existsb_exists. exists k. split; [by apply list_elem_of_In|].
  apply String.eqb_refl.
Qed.

(** The checks that make an extracted entity well-formed: two dicts with
    plain keys, and property values that are no [$each] documents. *)
Definition well_formed (e : Entity) : bool :=
  forallb (λ kv, plain (fst kv) && literal (snd kv)) (properties e)
  && distinct (map fst (properties e))
  && forallb (λ kv, plain (fst kv)) (relationships e)
  && distinct (map fst (relationships e)).

Lemma well_formed_ok e : well_formed e = true → entity_ok e.
Proof.
  intros [[[Hp Hpd]%andb_true_iff Hr]%andb_true_iff Hrd]%andb_true_iff.
  rewrite forallb_forall in Hp, Hr.
  split; try (by apply distinct_NoDup); apply Forall_forall; intros kv Hkv;
    apply list_elem_of_In in Hkv.
  - by apply Hp, andb_true_iff in Hkv as [? _].
  - by apply Hp, andb_true_iff in Hkv as [_ ?].
  - by apply Hr.
Qed.

(** What C1 asks of the document [d'] that replaces [d]: under every key of
    the entity the stored array is the union of what it held and what was
    extracted, the arrays under the other keys are as they were, and no
    stored array lost or changed an element. *)
Definition merged_by_union e (d d' : document) : Prop :=
  (∀ k v, (k, v) ∈ properties e →
     union_of (stored "properties" k d) [v] (stored "properties" k d'))
  ∧ (∀ k vs, (k, vs) ∈ relationships e →
       union_of (stored "relationships" k d) vs (stored "relationships" k d'))
  ∧ (∀ k, k ∉ map fst (properties e) →
       stored "properties" k d' = stored "properties" k d)
  ∧ (∀ k, k ∉ map fst (relationships e) →
       stored "relationships" k d' = stored "relationships" k d)
  ∧ (∀ sec k, stored sec k d `prefix_of` stored sec k d').

Lemma literal_each (v : value) : literal v = true → each_arg v = Ok [v].
Proof.
  destruct v as [| | | | | |[|[k a] fs]]; try done. cbn.
  by intros ->%negb_true_iff.
Qed.

Lemma items_in_sections e :
  entity_ok e → Forall in_entity_sections (items e).
Proof.
  intros He. unfold items. apply Forall_app. split; apply Forall_forall;
    intros kv (x & -> & Hx)%list_elem_of_fmap.
  - pose proof (properties_plain e He) as Hp.
    pose proof (properties_literal e He) as Hl.
    rewrite Forall_forall in Hp. rewrite Forall_forall in Hl. split.
    + exists (fst x). left. by apply split_property_key, plain_no_dot, Hp.
    + cbn. by rewrite literal_each by (by apply Hl).
  - pose proof (relationships_plain e He) as Hr. rewrite Forall_forall in Hr.
    split; [|done].
    exists (fst x). right. by apply split_relationship_key, plain_no_dot, Hr.
Qed.

Lemma items_paths_NoDup e :
  entity_ok e → NoDup (map (λ kv, split_path (fst kv)) (items e)).
Proof.
  intros He. rewrite items_paths by done. apply NoDup_app. split; [|split].
  - apply NoDup_fmap_2; [|apply He]. by intros a b [=].
  - by intros p (a & -> & _)%list_elem_of_fmap (b & [=] & _)%list_elem_of_fmap.
  - apply NoDup_fmap_2; [|apply He]. by intros a b [=].
Qed.

(** Merging a well-formed entity into a stored entity document. *)
Lemma merge_entity_document e d :
  entity_ok e → entity_document d = true →
  ∃ d', apply_update (update (operation e)) false d = Ok d'
        ∧ entity_document d' = true ∧ merged_by_union e d d'.
Proof.
  intros He Hd. unfold apply_update. rewrite operation_valid by done.
  cbn [mbind result_bind]. rewrite operation_items by apply He.
  destruct (apply_addToSet_ok (items e) d (items_in_sections e He)
              (items_paths_NoDup e He) Hd) as (d' & Hd' & Hok & Hst).
  exists d'. split; [done|]. split; [done|].
  pose proof (properties_plain e He) as Hp.
  pose proof (properties_literal e He) as Hl.
  pose proof (relationships_plain e He) as Hr.
  rewrite Forall_forall in Hp. rewrite Forall_forall in Hl.
  rewrite Forall_forall in Hr.
  assert (Hown : ∀ sec k,
            [sec; k] ∈ map (λ kv, split_path (fst kv)) (items e) →
            (sec = "properties" ∧ k ∈ map fst (properties e))
            ∨ (sec = "relationships" ∧ k ∈ map fst (relationships e))).
  { intros sec k. rewrite items_paths by done.
    intros [H|H]%elem_of_app;
      apply list_elem_of_fmap in H as (k' & [= -> ->] & Hk'); tauto. }
  split; [|split; [|split; [|split]]].
  - intros k v Hkv. rewrite Hst.
    rewrite (adds_present (items e) "properties" k
               ("properties." ++ k)%string v [v]).
    + apply add_each_union.
    + by apply items_paths_NoDup.
    + unfold items. apply elem_of_app. left.
      apply list_elem_of_fmap. by exists (k, v).
    + apply split_property_key, plain_no_dot. by apply (Hp (k, v)).
    + apply literal_each. by apply (Hl (k, v)).
  - intros k vs Hkv. rewrite Hst.
    rewrite (adds_present (items e) "relationships" k
               ("relationships." ++ k)%string
               (VDoc [("$each", VArr vs)]) vs).
    + apply add_each_union.
    + by apply items_paths_NoDup.
    + unfold items. apply elem_of_app. right.
      apply list_elem_of_fmap. by exists (k, vs).
    + apply split_relationship_key, plain_no_dot. by apply (Hr (k, vs)).
    + done.
  - intros k Hk. rewrite Hst, adds_absent; [done|].
    intros [[_ ?]|[[=] _]]%Hown. done.
  - intros k Hk. rewrite Hst, adds_absent; [done|].
    intros [[[=] _]|[_ ?]]%Hown. done.
  - intros sec k. rewrite Hst. apply add_each_prefix.
Qed.
End Union.

(** X19.  Let the collection keep ["properties"] and ["relationships"] of
    the selected document as documents of arrays, and let a document carry
    one entity, which is well-formed (distinct keys that are plain field
    names, property values that are no [$each] documents).  If the
    identifier of the entity names a stored document, the merge is accepted
    and replaces that document by one in which, under every property key of
    the entity, the array is what it was followed by the extracted value if
    it was not there; under every relationship type of the entity, what it
    was followed by the extracted descriptors that were not there, each
    once; and under every other key, what it was. *)
Theorem merge_is_union (extract_entities : string → list Entity)
    (self : MongoDBGraphStore) (doc : Document) (e : Entity) (i : nat)
    (d : document) :
  extract_entities (page_content doc) = [e] →
  well_formed e = true →
  entity_document d = true →
  first_match (filter (operation e)) (docs (collection self)) i d →
  ∃ d', add_documents extract_entities self (One doc)
        = ({| collection :=
                {| name := name (collection self);
                   docs := <[i := d']> (docs (collection self));
                   next_oid := next_oid (collection self) |};
              max_depth := max_depth self |},
           Ok [{| matched_count := 1; upserted_count := 0 |}])
        ∧ entity_document d' = true
        ∧ merged_by_union e d d'.
Proof.
  intros Hdoc He Hd Hfm.
  destruct (merge_entity_document e d (well_formed_ok e He) Hd)
    as (d' & Hd' & Hok & Hunion).
  exists d'. split; [|done].
  unfold add_documents. cbn [as_list add_documents_loop]. rewrite Hdoc.
  cbn [map bulk_write run_ops]. unfold execute.
  rewrite (first_match_update _ _ _ i d) by done. rewrite Hd'.
  reflexivity.
Qed.

Lemma merge_is_union_witness :
  ∃ d', add_documents Sample.extract Sample.chain
          (One (Sample.text "A founded it in 2018."))
        = ({| collection :=
                {| name := "entities";
                   docs := [d'; Sample.doc_B; Sample.doc_C];
                   next_oid := 3 |};
              max_depth := 2 |},
           Ok [{| matched_count := 1; upserted_count := 0 |}])
        ∧ entity_document d' = true
        ∧ merged_by_union Sample.entity_A_again Sample.doc_A d'.
Proof.
  apply (merge_is_union Sample.extract Sample.chain
           (Sample.text "A founded it in 2018.") Sample.entity_A_again
           0 Sample.doc_A).
  - reflexivity.
  - reflexivity.
  - reflexivity.
  - split; [reflexivity|]. split; [reflexivity|]. intros j d0 Hj. lia.
Defined.

(** *** A key that is a path *)

Definition listed_doc : document :=
  [("_id", VOid 0); ("ID", VStr "D"); ("type", VStr "Thing");
   ("properties", VDoc [("a", VArr [VArr [VStr "x"]])])].

Definition indexed_doc : document :=
  [("_id", VOid 0); ("ID", VStr "D"); ("type", VStr "Thing");
   ("properties", VDoc [("a", VArr [VArr [VStr "x"; VStr "y"]])])].

Definition listed_store : MongoDBGraphStore :=
  {| collection := {| name := "entities"; docs := [listed_doc]; next_oid := 1 |};
     max_depth := 2 |}.

Example listed_store_is_built :
  add_documents (λ _, [listed_entity]) Sample.empty_store (One (Sample.text "D"))
  = (listed_store, Ok [{| matched_count := 0; upserted_count := 1 |}]).
Proof. reflexivity. Qed.

(** C1 (fails on the code).  The update paths are built as
    ["properties." + key] without escaping.  The stored document is an
    entity document and the entity names it, but its key ["a.0"] is the path
    to the first element of the array stored under ["a"]; the merge rewrites
    that element, so the value [["x"]] stored under ["a"] is gone, against
    the comment on that [$addToSet] (["# Update without overwriting"]). *)
Lemma merge_overwrites_element :
  entity_document listed_doc = true
  ∧ first_match (filter (operation indexed_entity))
      (docs (collection listed_store)) 0 listed_doc
  ∧ add_documents (λ _, [indexed_entity]) listed_store (One (Sample.text "D"))
    = ({| collection := {| name := "entities"; docs := [indexed_doc];
                           next_oid := 1 |};
          max_depth := 2 |},
       Ok [{| matched_count := 1; upserted_count := 0 |}])
  ∧ stored "properties" "a" listed_doc = [VArr [VStr "x"]]
  ∧ stored "properties" "a" indexed_doc = [VArr [VStr "x"; VStr "y"]]
  ∧ ¬ merged_by_union indexed_entity listed_doc indexed_doc.
Proof.
  split; [reflexivity|]. split.
  { split; [reflexivity|]. split; [reflexivity|]. intros j d0 Hj. lia. }
  split; [reflexivity|]. split; [reflexivity|]. split; [reflexivity|].
  intros (_ & _ & _ & _ & H). destruct (H "properties" "a") as [k Hk].
  cbn in Hk. discriminate Hk.
Qed.

(** ** The interpreter on small inputs *)

Example split_path_nested :
  split_path "properties.a.0" = ["properties"; "a"; "0"].
Proof. reflexivity. Qed.

Example valid_components :
  valid_component "position" = true ∧ valid_component "$discount" = true
  ∧ valid_component "" = false ∧ valid_component "$" = false
  ∧ valid_component "$[]" = false ∧ valid_component "$[elem]" = false.
Proof. by repeat split. Qed.

Example parse_index_numerals :
  parse_index "0" = Some 0%nat ∧ parse_index "12" = Some 12%nat
  ∧ parse_index "01" = None ∧ parse_index "a" = None.
Proof. by repeat split. Qed.

(** [$addToSet] adds a list as one element, [$each] its elements. *)
Example addToSet_with_and_without_each :
  apply_addToSet
    [("tags", VArr [VStr "a"; VStr "b"]);
     ("names", VDoc [("$each", VArr [VStr "a"; VStr "b"; VStr "a"])])]
    [("names", VArr [VStr "b"])]
  = Ok [("names", VArr [VStr "b"; VStr "a"]);
        ("tags", VArr [VArr [VStr "a"; VStr "b"]])].
Proof. reflexivity. Qed.

(** A property stored as a scalar makes [$addToSet] fail: the batch is
    rejected and the collection stays as it was. *)
Definition scalar_store : MongoDBGraphStore :=
  {| collection :=
       {| name := "entities";
          docs := [[("_id", VOid 0); ("ID", VStr "A"); ("type", VStr "Person");
                    ("properties", VDoc [("position", VStr "CEO")])]];
          next_oid := 1 |};
     max_depth := 2 |}.

Example merge_rejected_on_scalar :
  add_documents Sample.extract scalar_store
    (One (Sample.text "A founded it in 2018."))
  = (scalar_store, Raise BulkWriteError).
Proof. reflexivity. Qed.

(** On the cycle A → B → C → A the traversal from A returns B only, and
    from A and B it returns B and C. *)
Example cycle_from_A :
  related_entities Sample.cycle ["A"] default_depth
  = Ok [remove_field "_id" Sample.doc_B].
Proof. reflexivity. Qed.

Example cycle_from_A_and_B :
  related_entities Sample.cycle ["A"; "B"] default_depth
  = Ok [remove_field "_id" Sample.doc_B; remove_field "_id" Sample.doc_C_back].
Proof. reflexivity. Qed.

(** * More of graph.py *)

(** ** find_entity_by_name and similarity_search *)

Module Lookup.

(** [Collection.find]: the documents that a filter selects, in order. *)
Definition find (c : Collection) (flt : document) : list document :=
  List.filter (matches flt) (docs c).

(** [find_entity_by_name]: [list(self.collection.find({"ID": name}))]. *)
Definition find_entity_by_name (self : MongoDBGraphStore) (name : string)
    : list document :=
  find (collection self) [("ID", VStr name)].

Section Search.
(** [extract_entity_names] asks the language model for the identifiers
    mentioned in a text. *)
Variable extract_entity_names : string → list string.

(** [similarity_search]: the traversal is called without a depth, so with
    the default of its parameter. *)
Definition similarity_search (self : MongoDBGraphStore) (input_document : string)
    : result (list document) :=
  let starting_ids := extract_entity_names input_document in
  related_entities self starting_ids default_depth.
End Search.

End Lookup.
Export Lookup.

(** ** add_documents: how calls compose *)

Section Composition.
Variable extract_entities : string → list Entity.
Implicit Types (c : Collection) (ds : list Document)
  (res : list BulkWriteResult).

Lemma loop_app ds1 ds2 c res :
  add_documents_loop extract_entities (ds1 ++ ds2) c res
  = match add_documents_loop extract_entities ds1 c res with
    | (c1, Ok res1) => add_documents_loop extract_entities ds2 c1 res1
    | (c1, Raise e) => (c1, Raise e)
    end.
Proof.
  revert c res. induction ds1 as [|d ds1 IH]; intros c res;
    cbn [app add_documents_loop]; [done|].
  destruct (map operation (extract_entities (page_content d))) as [|o os];
    [apply IH|].
  destruct (bulk_write (o :: os) c) as [c1 [r|e]]; [apply IH|done].
Qed.

(** The results only grow at the end. *)
Lemma loop_results_prefix ds c c' res results :
  add_documents_loop extract_entities ds c res = (c', Ok results) →
  res `prefix_of` results.
Proof.
  revert c res. induction ds as [|d ds IH]; intros c res;
    cbn [add_documents_loop].
  - by intros [= _ <-].
  - destruct (map operation (extract_entities (page_content d))) as [|o os];
      [apply IH|].
    destruct (bulk_write (o :: os) c) as [c1 [r|e]]; [|done].
    intros H. apply IH in H. etrans; [|exact H]. by apply prefix_app_r.
Qed.

(** Starting with other results only changes the front of the answer. *)
Lemma loop_results_shift ds c res res0 :
  add_documents_loop extract_entities ds c (res0 ++ res)
  = match add_documents_loop extract_entities ds c res with
    | (c', Ok results) => (c', Ok (res0 ++ results))
    | (c', Raise e) => (c', Raise e)
    end.
Proof.
  revert c res. induction ds as [|d ds IH]; intros c res;
    cbn [add_documents_loop]; [done|].
  destruct (map operation (extract_entities (page_content d))) as [|o os];
    [apply IH|].
  destruct (bulk_write (o :: os) c) as [c1 [r|e]]; [|done].
  rewrite <- app_assoc. apply IH.
Qed.
End Composition.

(** X1.  One call on the documents [ds1 ++ ds2] does what a call on [ds1]
    followed by a call on [ds2] does: the same store, and the results of the
    first call followed by those of the second. *)
Theorem add_documents_app (extract_entities : string → list Entity)
    (self self1 self2 : MongoDBGraphStore) (ds1 ds2 : list Document)
    (res1 res2 : list BulkWriteResult) :
  add_documents extract_entities self (Many ds1) = (self1, Ok res1) →
  add_documents extract_entities self1 (Many ds2) = (self2, Ok res2) →
  add_documents extract_entities self (Many (ds1 ++ ds2))
  = (self2, Ok (res1 ++ res2)).
Proof.
  unfold add_documents. cbn [as_list]. rewrite loop_app.
  destruct (add_documents_loop _ ds1 _ []) as [c1 [r1|e1]]; [|done].
  intros [= <- <-]. cbn [collection max_depth].
  rewrite <- (app_nil_r r1) at 1. rewrite loop_results_shift.
  destruct (add_documents_loop _ ds2 c1 []) as [c2 [r2|e2]]; [|done].
  by intros [= <- <-].
Qed.

Section Batches.
Variable extract_entities : string → list Entity.
Implicit Types (ops : list UpdateOne) (c : Collection)
  (acc : BulkWriteResult) (doc : Document).

Lemma run_ops_app ops1 ops2 c acc :
  run_ops (ops1 ++ ops2) c acc
  = match run_ops ops1 c acc with
    | (c1, Ok acc1) => run_ops ops2 c1 acc1
    | (c1, Raise e) => (c1, Raise e)
    end.
Proof.
  revert c acc. induction ops1 as [|op ops1 IH]; intros c acc;
    cbn [app run_ops]; [done|].
  by destruct (execute op c acc) as [[c1 acc1]|e].
Qed.

(** The counters do not steer a batch: where it gets to, and whether it is
    rejected there, is the same from any count. *)
Lemma run_ops_any_counters ops c c' acc acc' acc2 :
  run_ops ops c acc = (c', Ok acc') →
  ∃ acc2', run_ops ops c acc2 = (c', Ok acc2').
Proof.
  revert c acc acc2. induction ops as [|op ops IH]; intros c acc acc2;
    cbn [run_ops].
  - intros [= <- _]. by eexists.
  - unfold execute. destruct (update_first _ _ _) as [[ds|err]|]; cbn.
    + apply IH.
    + done.
    + destruct (upsert op); [|apply IH].
      destruct (apply_update _ true _); cbn; [apply IH|done].
Qed.

(** One document of the loop. *)
Lemma loop_document doc (rest : list Document) c
    (res : list BulkWriteResult) :
  add_documents_loop extract_entities (doc :: rest) c res
  = match extract_entities (page_content doc) with
    | [] => add_documents_loop extract_entities rest c res
    | es =>
        match run_ops (map operation es) c no_writes with
        | (c', Ok r) => add_documents_loop extract_entities rest c' (res ++ [r])
        | (c', Raise e) => (c', Raise e)
        end
    end.
Proof.
  cbn [add_documents_loop].
  by destruct (extract_entities (page_content doc)).
Qed.

(** What the call on one document does to the collection is what its batch
    does. *)
Lemma one_document_batch (self self' : MongoDBGraphStore) doc
    (r : result (list BulkWriteResult)) :
  add_documents extract_entities self (One doc) = (self', r) →
  self' = {| collection := collection self'; max_depth := max_depth self |}
  ∧ match r with
    | Ok _ =>
        ∃ acc, run_ops (map operation (extract_entities (page_content doc)))
                 (collection self) no_writes = (collection self', Ok acc)
    | Raise e =>
        run_ops (map operation (extract_entities (page_content doc)))
          (collection self) no_writes = (collection self', Raise e)
    end.
Proof.
  unfold add_documents. cbn [as_list]. rewrite loop_document.
  destruct (extract_entities (page_content doc)) as [|e es].
  - cbn. intros [= <- <-]. split; [done|]. by eexists.
  - destruct (run_ops _ _ _) as [c' [acc|err]]; cbn.
    + intros [= <- <-]. split; [done|]. by eexists.
    + by intros [= <- <-].
Qed.
End Batches.

(** X2.  No rollback, and nothing after the rejected entity.  Let a document
    carry the entities [before], then [e], then others.  If the entities
    [before] are merged without error (as a document of their own) and [e]
    alone is rejected after them, then a call that comes to this document
    raises that error at once: the collection is left as it is after the
    earlier documents and the entities [before] were merged, and neither the
    entities after [e] nor the later documents are processed. *)
Theorem add_documents_stops_at_error (extract_entities : string → list Entity)
    (self self1 self2 : MongoDBGraphStore) (ds1 ds2 : list Document)
    (doc doc_before doc_e : Document) (e : Entity) (after : list Entity)
    (res1 res : list BulkWriteResult) (err : exn) :
  add_documents extract_entities self (Many ds1) = (self1, Ok res1) →
  extract_entities (page_content doc)
  = extract_entities (page_content doc_before) ++ e :: after →
  extract_entities (page_content doc_e) = [e] →
  add_documents extract_entities self1 (One doc_before) = (self2, Ok res) →
  add_documents extract_entities self2 (One doc_e) = (self2, Raise err) →
  add_documents extract_entities self (Many (ds1 ++ doc :: ds2))
  = (self2, Raise err).
Proof.
  intros H1 Hdoc He Hbefore Hrejected.
  apply one_document_batch in Hbefore as [Hself2 [acc Hacc]].
  apply one_document_batch in Hrejected as [_ Herr].
  rewrite He in Herr. cbn [map run_ops] in Herr.
  destruct (execute (operation e) (collection self2) no_writes)
    as [[c3 acc3]|err'] eqn:Ee; [done|].
  injection Herr as <-.
  revert H1. unfold add_documents. cbn [as_list]. rewrite loop_app.
  destruct (add_documents_loop _ ds1 _ []) as [c1 [r1|e1]]; [|done].
  intros [= <- <-]. cbn [collection max_depth] in *.
  rewrite loop_document, Hdoc.
  destruct (run_ops_any_counters _ _ _ _ _ no_writes Hacc) as [acc' Hacc'].
  assert (run_ops
            (map operation
               (extract_entities (page_content doc_before) ++ e :: after))
            c1 no_writes
          = (collection self2, Raise err')) as Hrun.
  { rewrite map_app, run_ops_app, Hacc'. cbn [map run_ops].
    by rewrite (execute_raise_any _ _ _ acc' _ Ee). }
  destruct (extract_entities (page_content doc_before) ++ e :: after)
    as [|e0 es] eqn:Ees.
  { by destruct (extract_entities (page_content doc_before)). }
  rewrite Hrun. by rewrite Hself2 at 2.
Qed.

(** ** add_documents: what it leaves alone *)

Section Frame.
Implicit Types (c : Collection) (d : document).

(** Every stored document is still at its place, and differs at most in
    ["properties"] and ["relationships"]. *)
Definition kept (c c' : Collection) : Prop :=
  ∀ i d, docs c !! i = Some d →
    ∃ d', docs c' !! i = Some d'
          ∧ ∀ f, f ≠ "properties" → f ≠ "relationships" →
              get_field f d' = get_field f d.

Lemma kept_refl c : kept c c.
Proof. intros i d Hi. by exists d. Qed.

Lemma kept_trans c1 c2 c3 : kept c1 c2 → kept c2 c3 → kept c1 c3.
Proof.
  intros H12 H23 i d Hi. destruct (H12 i d Hi) as (d2 & Hi2 & Hf2).
  destruct (H23 i d2 Hi2) as (d3 & Hi3 & Hf3). exists d3. split; [done|].
  intros f Hp Hr. by rewrite Hf3, Hf2.
Qed.

Lemma kept_step (e : Entity) c c' (acc acc' : BulkWriteResult) :
  execute (operation e) c acc = Ok (c', acc') → kept c c'.
Proof.
  intros H. apply execute_upsert in H
    as [(j & dj & dj' & (Hj & _) & Hdj' & ->)|(d' & _ & _ & ->)]; [| |done];
    intros i d Hi; cbn [docs].
  - destruct (decide (i = j)) as [->|Hne].
    + exists dj'. split.
      * apply list_lookup_insert_eq. by eapply lookup_lt_Some.
      * intros f Hp Hr. simplify_eq. by eapply merge_frame.
    + exists d. by rewrite list_lookup_insert_ne.
  - exists d. split; [|done]. rewrite lookup_app_l; [done|].
    by eapply lookup_lt_Some.
Qed.
End Frame.

(** X3.  [add_documents] never removes or moves a stored document, and in
    the documents it merges into it touches nothing but ["properties"] and
    ["relationships"]: [_id], ["ID"], ["type"] and any other field read the
    same afterwards, whether the call returns or raises. *)
Theorem add_documents_frame (extract_entities : string → list Entity)
    (self self' : MongoDBGraphStore) (documents : documents_arg)
    (r : result (list BulkWriteResult)) (i : nat) (d : document) :
  add_documents extract_entities self documents = (self', r) →
  docs (collection self) !! i = Some d →
  (length (docs (collection self)) ≤ length (docs (collection self')))%nat
  ∧ ∃ d', docs (collection self') !! i = Some d'
          ∧ ∀ f, f ≠ "properties" → f ≠ "relationships" →
              get_field f d' = get_field f d.
Proof.
  intros H Hi.
  apply (add_documents_steps kept kept_refl kept_trans) in H as [H _].
  2:{ intros e c c' acc acc'. apply kept_step. }
  split; [|by apply H].
  destruct (decide (length (docs (collection self))
                    ≤ length (docs (collection self')))%nat) as [|Hlt]; [done|].
  destruct (docs (collection self)) as [|d0 ds] eqn:E using rev_ind;
    [simpl; lia|].
  clear IHds.
  destruct (H (length ds) d0) as (d' & Hd' & _).
  { rewrite E. rewrite lookup_app_r by done. by rewrite Nat.sub_diag. }
  apply lookup_lt_Some in Hd'. rewrite length_app in Hlt |- *. simpl in *. lia.
Qed.

(** ** add_documents: the results it reports *)

Section Counts.
Variable extract_entities : string → list Entity.
Implicit Types (c : Collection) (acc : BulkWriteResult).

Definition writes (r : BulkWriteResult) : nat :=
  (matched_count r + upserted_count r)%nat.

Definition total_upserted (rs : list BulkWriteResult) : nat :=
  foldr (λ r n, (upserted_count r + n)%nat) 0%nat rs.

Lemma execute_counts (op : UpdateOne) c c' acc acc' :
  upsert op = true →
  execute op c acc = Ok (c', acc') →
  writes acc' = S (writes acc)
  ∧ (length (docs c') + upserted_count acc
     = length (docs c) + upserted_count acc')%nat.
Proof.
  intros Hup. unfold execute, writes.
  destruct (update_first _ _ _) as [r|] eqn:E.
  - apply update_first_Some in E as (i & d & Hfm & ->).
    destruct (apply_update (update op) false d) as [d'|]; [|done].
    cbn [mbind result_bind]. intros [= <- <-]. cbn.
    rewrite length_insert. lia.
  - rewrite Hup. destruct (apply_update _ true _) as [d'|]; [|done].
    cbn [mbind result_bind]. intros [= <- <-]. cbn.
    rewrite length_app. simpl. lia.
Qed.

Lemma run_ops_counts (es : list Entity) c c' acc acc' :
  run_ops (map operation es) c acc = (c', Ok acc') →
  writes acc' = (writes acc + length es)%nat
  ∧ (length (docs c') + upserted_count acc
     = length (docs c) + upserted_count acc')%nat.
Proof.
  revert c acc. induction es as [|e es IH]; intros c acc; cbn [map run_ops].
  - intros [= <- <-]. simpl. lia.
  - destruct (execute (operation e) c acc) as [[c1 acc1]|err] eqn:E; [|done].
    intros H. apply IH in H as [H1 H2].
    apply execute_counts in E as [E1 E2]; [|done]. simpl.
    lia.
Qed.

Lemma loop_counts (ds : list Document) c c' (res results : list BulkWriteResult) :
  add_documents_loop extract_entities ds c res = (c', Ok results) →
  ∃ new, results = res ++ new
         ∧ Forall2 (λ doc r,
              writes r = length (extract_entities (page_content doc)))
             (List.filter (has_entities extract_entities) ds) new
         ∧ length (docs c') = (length (docs c) + total_upserted new)%nat.
Proof.
  revert c res. induction ds as [|d ds IH]; intros c res;
    cbn [add_documents_loop List.filter].
  - intros [= <- <-]. exists []. rewrite app_nil_r. simpl.
    split; [done|]. split; [constructor|lia].
  - unfold has_entities at 1.
    destruct (extract_entities (page_content d)) as [|e es] eqn:Ees; cbn [map].
    + apply IH.
    + change (operation e :: map operation es) with (map operation (e :: es)).
      unfold bulk_write. cbn [map].
      change (operation e :: map operation es) with (map operation (e :: es)).
      destruct (run_ops (map operation (e :: es)) c no_writes)
        as [c1 [b|err]] eqn:Eb; [|done].
      intros H. apply IH in H as (new & -> & HF & Hlen).
      apply run_ops_counts in Eb as [Hw Hl].
      exists (b :: new). rewrite <- app_assoc. split; [done|].
      split; [constructor; [|done]|].
      * rewrite Hw. by rewrite Ees.
      * unfold total_upserted in *. cbn in Hl |- *. lia.
Qed.
End Counts.

(** X4.  When [add_documents] returns, its results account for every
    entity: there is one result per document that had entities, in order;
    in each, [matched_count + upserted_count] is the number of entities
    extracted from that document; and the collection has grown by exactly
    the upserted documents. *)
Theorem add_documents_accounts (extract_entities : string → list Entity)
    (self self' : MongoDBGraphStore) (documents : documents_arg)
    (results : list BulkWriteResult) :
  add_documents extract_entities self documents = (self', Ok results) →
  Forall2 (λ doc r, writes r = length (extract_entities (page_content doc)))
    (List.filter (has_entities extract_entities) (as_list documents)) results
  ∧ length (docs (collection self'))
    = (length (docs (collection self)) + total_upserted results)%nat.
Proof.
  unfold add_documents.
  destruct (add_documents_loop _ _ _ _) as [c' r] eqn:E. intros [= <- ->].
  by apply loop_counts in E as (new & -> & ? & ?).
Qed.

(** ** add_documents, then find_entity_by_name *)

Section Findable.
Variable extract_entities : string → list Entity.
Implicit Types (c : Collection) (d : document) (n : string).

(** Some stored document answers to the name [n]. *)
Definition named (n : string) (c : Collection) : Prop :=
  ∃ d, d ∈ docs c ∧ matches [("ID", VStr n)] d = true.

Lemma matches_name n d d' :
  get_field "ID" d' = get_field "ID" d →
  matches [("ID", VStr n)] d' = matches [("ID", VStr n)] d.
Proof. intros H. unfold matches. cbn. by rewrite H. Qed.

Lemma named_kept n c c' : kept c c' → named n c → named n c'.
Proof.
  intros Hk (d & Hd & Hm). apply list_elem_of_lookup in Hd as [i Hi].
  destruct (Hk i d Hi) as (d' & Hi' & Hf). exists d'.
  split; [by eapply list_elem_of_lookup_2|].
  by rewrite (matches_name n d d') by (by apply Hf).
Qed.

Lemma step_names (e : Entity) c c' (acc acc' : BulkWriteResult) :
  execute (operation e) c acc = Ok (c', acc') → named (ID e) c'.
Proof.
  intros H. apply execute_upsert in H
    as [(i & d & d' & (Hi & Hm & _) & Hd' & ->)|(d' & _ & Hd' & ->)]; [| |done].
  - exists d'. cbn [docs]. split.
    + eapply list_elem_of_lookup_2, list_lookup_insert_eq.
      by eapply lookup_lt_Some.
    + rewrite (matches_name _ d d'); [done|]. by eapply merge_frame.
  - exists d'. cbn [docs]. split; [apply elem_of_app; right; by left|].
    apply insert_identity in Hd' as (_ & HID & _).
    by apply (matches_own_ID e).
Qed.

Lemma run_ops_names (es : list Entity) c c' (acc acc' : BulkWriteResult) :
  run_ops (map operation es) c acc = (c', Ok acc') →
  Forall (λ e, named (ID e) c') es.
Proof.
  revert c acc. induction es as [|e es IH]; intros c acc; [constructor|].
  cbn [map run_ops].
  destruct (execute (operation e) c acc) as [[c1 acc1]|err] eqn:E; [|done].
  intros H. constructor; [|by eapply IH].
  eapply named_kept; [|by eapply step_names].
  eapply (run_ops_steps kept kept_refl kept_trans); [|exact H].
  intros e' ? ? ? ?. apply kept_step.
Qed.

Lemma loop_names (ds : list Document) c c' (res results : list BulkWriteResult)
    (doc : Document) (e : Entity) :
  add_documents_loop extract_entities ds c res = (c', Ok results) →
  doc ∈ ds → e ∈ extract_entities (page_content doc) → named (ID e) c'.
Proof.
  revert c res. induction ds as [|d ds IH]; intros c res H Hdoc He;
    [by apply elem_of_nil in Hdoc|].
  cbn [add_documents_loop] in H.
  destruct (extract_entities (page_content d)) as [|e0 es] eqn:Ees; cbn [map] in H.
  - apply elem_of_cons in Hdoc as [->|Hdoc]; [|by eapply IH].
    rewrite Ees in He. by apply elem_of_nil in He.
  - change (operation e0 :: map operation es)
      with (map operation (e0 :: es)) in H.
    unfold bulk_write in H. cbn [map] in H.
    change (operation e0 :: map operation es)
      with (map operation (e0 :: es)) in H.
    destruct (run_ops (map operation (e0 :: es)) c no_writes)
      as [c1 [b|err]] eqn:Eb; [|done].
    apply elem_of_cons in Hdoc as [->|Hdoc]; [|by eapply IH].
    apply run_ops_names in Eb. rewrite Forall_forall in Eb.
    rewrite Ees in He. eapply named_kept; [|by apply Eb].
    eapply (add_documents_loop_steps kept kept_refl kept_trans); [|exact H].
    intros e' ? ? ? ?. apply kept_step.
Qed.

(** No stored ["ID"] is an array (an array would answer to each of its
    elements). *)
Definition scalar_ids (ds : list document) : bool :=
  forallb (λ d, match get_field "ID" d with
                | Some (VArr _) => false
                | _ => true
                end) ds.

Lemma matches_scalar n d :
  match get_field "ID" d with Some (VArr _) => false | _ => true end = true →
  matches [("ID", VStr n)] d = true → get_field "ID" d = Some (VStr n).
Proof.
  unfold matches. cbn. destruct (get_field "ID" d) as [y|]; [|done].
  cbn. rewrite andb_true_r.
  destruct y; try done; cbn; rewrite ?orb_false_r;
    try (by intros _ ?%String.eqb_eq; subst).
Qed.

Lemma unique_ids_tail d (ds : list document) :
  unique_ids (d :: ds) → unique_ids ds.
Proof.
  intros H i j a b v Hi Hj Ha Hb.
  by injection (H (S i) (S j) a b v Hi Hj Ha Hb).
Qed.

Lemma filter_none_in {A : Type} (f : A → bool) (l : list A) :
  (∀ x, x ∈ l → f x = false) → List.filter f l = [].
Proof.
  induction l as [|x l IH]; intros H; simpl; [done|].
  rewrite (H x) by left. apply IH. intros y Hy. apply H. by right.
Qed.

Lemma find_at_most_one (ds : list document) n :
  unique_ids ds → scalar_ids ds = true →
  (length (List.filter (matches [("ID", VStr n)]) ds) ≤ 1)%nat.
Proof.
  induction ds as [|d ds IH]; intros Hu Hs; [simpl; lia|].
  cbn [scalar_ids forallb] in Hs. apply andb_true_iff in Hs as [Hd Hs].
  cbn [List.filter]. destruct (matches _ d) eqn:Hm;
    [|by apply IH; [eapply unique_ids_tail|]].
  rewrite filter_none_in; [simpl; lia|].
  intros d' Hd'. destruct (matches _ d') eqn:Hm'; [|done]. exfalso.
  apply matches_scalar in Hm; [|done].
  apply matches_scalar in Hm'.
  2:{ unfold scalar_ids in Hs. rewrite forallb_forall in Hs.
      by apply Hs, list_elem_of_In. }
  apply list_elem_of_lookup in Hd' as [j Hj].
  by specialize (Hu 0%nat (S j) d d' (VStr n) eq_refl Hj Hm Hm').
Qed.

(** Unique scalar identifiers are kept by every accepted upsert. *)
Definition ids_ok (c : Collection) : Prop :=
  unique_ids (docs c) ∧ scalar_ids (docs c) = true.

Lemma scalar_ids_identities c c' :
  identities c' = identities c → scalar_ids (docs c) = scalar_ids (docs c').
Proof.
  unfold identities, scalar_ids. revert c'. generalize (docs c) as ds.
  intros ds c'. generalize (docs c') as ds'. clear c c'.
  induction ds as [|d ds IH]; intros [|d' ds']; simpl; try done.
  unfold identity at 1 3. intros [= H1 _ H]. by rewrite H1, (IH ds').
Qed.

Lemma ids_ok_step (e : Entity) c c' (acc acc' : BulkWriteResult) :
  execute (operation e) c acc = Ok (c', acc') → ids_ok c → ids_ok c'.
Proof.
  intros H [Hu Hs]. split; [by eapply step_unique|].
  pose proof H as H'.
  apply step_identities in H as [H|[H _]].
  - by rewrite <- (scalar_ids_identities c c').
  - apply execute_upsert in H'
      as [(i & d & d' & (Hi & _) & Hd' & ->)|(d' & _ & Hd' & ->)]; [| |done].
    + exfalso. apply (f_equal length) in H. unfold identities in H.
      rewrite length_app, !length_map in H. cbn in H.
      rewrite length_insert in H. lia.
    + cbn [docs]. unfold scalar_ids. rewrite forallb_app.
      fold (scalar_ids (docs c)). rewrite Hs. cbn.
      apply insert_identity in Hd' as (_ & -> & _). done.
Qed.
End Findable.

(** X5.  Insert, then look up.  If the stored identifiers are unique and
    none is an array, then after [add_documents] has returned, every entity
    it extracted is stored exactly once: [find_entity_by_name] on its
    identifier gives one document, and that document carries the
    identifier. *)
Theorem extracted_entities_are_found (extract_entities : string → list Entity)
    (self self' : MongoDBGraphStore) (documents : documents_arg)
    (results : list BulkWriteResult) (doc : Document) (e : Entity) :
  unique_ids (docs (collection self)) →
  scalar_ids (docs (collection self)) = true →
  add_documents extract_entities self documents = (self', Ok results) →
  doc ∈ as_list documents →
  e ∈ extract_entities (page_content doc) →
  ∃ d, find_entity_by_name self' (ID e) = [d]
       ∧ get_field "ID" d = Some (VStr (ID e)).
Proof.
  intros Hu Hs H Hdoc He.
  assert (ids_ok (collection self')) as [Hu' Hs'].
  { apply (add_documents_steps (λ c c', ids_ok c → ids_ok c')) in H
      as [H _]; [by apply H|done|by auto|].
    intros e' c c' acc acc'. apply ids_ok_step. }
  assert (named (ID e) (collection self')) as (d & Hd & Hm).
  { unfold add_documents in H.
    destruct (add_documents_loop _ _ _ _) as [c' r] eqn:E.
    injection H as <- ->. by eapply loop_names. }
  pose proof (find_at_most_one _ (ID e) Hu' Hs') as Hlen.
  assert (d ∈ find_entity_by_name self' (ID e)) as Hin.
  { unfold find_entity_by_name, find. by apply elem_of_filter. }
  unfold find_entity_by_name, find in *.
  destruct (List.filter _ (docs (collection self'))) as [|d1 [|d2 l]];
    [by apply elem_of_nil in Hin| |simpl in Hlen; lia].
  apply list_elem_of_singleton in Hin as <-. exists d. split; [done|].
  apply matches_scalar; [|done].
  unfold scalar_ids in Hs'. rewrite forallb_forall in Hs'.
  by apply Hs', list_elem_of_In.
Qed.

(** ** add_documents: a new entity *)

Section Insert.
Implicit Types (e : Entity) (c : Collection).

Lemma add_each_NoDup (new l : list value) : NoDup l → NoDup (add_each new l).
Proof.
  revert l. induction new as [|x new IH]; intros l Hl; simpl; [done|].
  destruct (mem x l) eqn:E; [by apply IH|]. apply IH.
  apply NoDup_app. split; [done|]. split; [|apply NoDup_singleton].
  intros y Hy Hx%list_elem_of_singleton. subst y.
  by apply mem_not_elem_of in E.
Qed.

(** The document that the upsert of a well-formed entity inserts. *)
Lemma insert_entity_document e (oid : nat) :
  entity_ok e →
  ∃ d', apply_update (update (operation e)) true
          (new_document (filter (operation e)) oid) = Ok d'
        ∧ entity_document d' = true
        ∧ (∀ sec k, stored sec k d' = add_each (adds (items e) sec k) []).
Proof.
  intros He. unfold apply_update. rewrite operation_valid by done.
  change (apply_set _ _)
    with (Ok [("_id", VOid oid); ("ID", VStr (ID e)); ("type", VStr (type e))]).
  cbn [mbind result_bind]. rewrite operation_items by apply He.
  destruct (apply_addToSet_ok (items e)
              [("_id", VOid oid); ("ID", VStr (ID e)); ("type", VStr (type e))]
              (items_in_sections e He) (items_paths_NoDup e He) eq_refl)
    as (d' & Hd' & Hok & Hst).
  exists d'. split; [done|]. split; [done|]. intros sec k. rewrite Hst.
  f_equal. unfold stored. cbn [get_field].
  by repeat destruct (String.eqb _ sec).
Qed.
End Insert.

(** X6.  A well-formed entity whose identifier no stored document answers
    to is inserted as one new document at the end of the collection: it gets
    the next [_id], the entity's ["ID"] and ["type"], every property as the
    one-element array of its value, and every relationship type as the
    array of its descriptors without repetitions, in order of first
    occurrence. *)
Theorem new_entity_is_inserted (extract_entities : string → list Entity)
    (self : MongoDBGraphStore) (doc : Document) (e : Entity) :
  extract_entities (page_content doc) = [e] →
  well_formed e = true →
  forallb (λ d, negb (matches [("ID", VStr (ID e))] d))
    (docs (collection self)) = true →
  ∃ d', add_documents extract_entities self (One doc)
        = ({| collection :=
                {| name := name (collection self);
                   docs := docs (collection self) ++ [d'];
                   next_oid := S (next_oid (collection self)) |};
              max_depth := max_depth self |},
           Ok [{| matched_count := 0; upserted_count := 1 |}])
        ∧ get_field "_id" d' = Some (VOid (next_oid (collection self)))
        ∧ get_field "ID" d' = Some (VStr (ID e))
        ∧ get_field "type" d' = Some (VStr (type e))
        ∧ (∀ k v, (k, v) ∈ properties e → stored "properties" k d' = [v])
        ∧ (∀ k vs, (k, vs) ∈ relationships e →
             stored "relationships" k d' = add_each vs []
             ∧ NoDup (stored "relationships" k d')
             ∧ ∀ x, x ∈ stored "relationships" k d' ↔ x ∈ vs).
Proof.
  intros Hdoc He Hnew. apply well_formed_ok in He.
  destruct (insert_entity_document e (next_oid (collection self)) He)
    as (d' & Hd' & Hok & Hst).
  exists d'.
  pose proof (insert_identity e _ d' Hd') as (Hid & HID & Hty).
  pose proof (properties_plain e He) as Hp.
  pose proof (properties_literal e He) as Hl.
  pose proof (relationships_plain e He) as Hr.
  rewrite Forall_forall in Hp. rewrite Forall_forall in Hl.
  rewrite Forall_forall in Hr.
  assert (Hprops : ∀ k v, (k, v) ∈ properties e →
                    adds (items e) "properties" k = [v]).
  { intros k v Hkv.
    apply (adds_present (items e) "properties" k ("properties." ++ k)%string v).
    - by apply items_paths_NoDup.
    - unfold items. apply elem_of_app. left.
      apply list_elem_of_fmap. by exists (k, v).
    - apply split_property_key, plain_no_dot. by apply (Hp (k, v)).
    - apply literal_each. by apply (Hl (k, v)). }
  assert (Hrels : ∀ k vs, (k, vs) ∈ relationships e →
                    adds (items e) "relationships" k = vs).
  { intros k vs Hkv.
    apply (adds_present (items e) "relationships" k
             ("relationships." ++ k)%string (VDoc [("$each", VArr vs)])).
    - by apply items_paths_NoDup.
    - unfold items. apply elem_of_app. right.
      apply list_elem_of_fmap. by exists (k, vs).
    - apply split_relationship_key, plain_no_dot. by apply (Hr (k, vs)).
    - done. }
  split; [|split; [done|split; [done|split; [done|split]]]].
  - unfold add_documents. cbn [as_list add_documents_loop]. rewrite Hdoc.
    cbn [map bulk_write run_ops]. unfold execute.
    assert (update_first (filter (operation e))
              (apply_update (update (operation e)) false)
              (docs (collection self)) = None) as ->.
    { apply update_first_None, Forall_forall. intros d Hd.
      rewrite forallb_forall in Hnew.
      apply list_elem_of_In, Hnew in Hd. by apply negb_true_iff in Hd. }
    cbn [upsert operation]. fold (operation e). rewrite Hd'. reflexivity.
  - intros k v Hkv. by rewrite Hst, (Hprops k v).
  - intros k vs Hkv. rewrite Hst, (Hrels k vs) by done.
    split; [done|]. split; [apply add_each_NoDup; constructor|].
    intros x. rewrite add_each_spec. split; [|by right].
    intros [Hx|Hx]; [by apply elem_of_nil in Hx|done].
Qed.

(** ** add_documents: the shape of what is stored *)

Section Shape.
Implicit Types (e : Entity) (c : Collection) (d : document).

Definition entity_collection (c : Collection) : bool :=
  forallb entity_document (docs c).

Lemma entity_collection_step e c c' (acc acc' : BulkWriteResult) :
  well_formed e = true →
  execute (operation e) c acc = Ok (c', acc') →
  entity_collection c = true → entity_collection c' = true.
Proof.
  intros He H Hc. apply well_formed_ok in He. unfold entity_collection in *.
  rewrite forallb_forall in Hc. apply forallb_forall. intros x Hx.
  apply list_elem_of_In in Hx.
  apply execute_upsert in H
    as [(i & d & d' & (Hi & _) & Hd' & ->)|(d' & _ & Hd' & ->)]; [| |done];
    cbn [docs] in Hx.
  - apply list_elem_of_lookup in Hx as [j Hj].
    destruct (decide (j = i)) as [->|Hne].
    + rewrite list_lookup_insert_eq in Hj by (by eapply lookup_lt_Some).
      injection Hj as <-.
      destruct (merge_entity_document e d He) as (d2 & Hd2 & Hok & _).
      { by eapply Hc, list_elem_of_In, list_elem_of_lookup_2. }
      rewrite Hd' in Hd2. by injection Hd2 as <-.
    + rewrite list_lookup_insert_ne in Hj by done.
      by eapply Hc, list_elem_of_In, list_elem_of_lookup_2.
  - apply elem_of_app in Hx as [Hx|Hx%list_elem_of_singleton].
    + by apply Hc, list_elem_of_In.
    + subst x.
      destruct (insert_entity_document e (next_oid c) He) as (d2 & Hd2 & Hok & _).
      rewrite Hd' in Hd2. by injection Hd2 as <-.
Qed.

Lemma entity_document_traversable d :
  entity_document d = true → traversable d = true.
Proof.
  unfold entity_document, section_ok, traversable.
  intros [_ H]%andb_true_iff.
  by destruct (get_field "relationships" d) as [[| | | | | |fs]|].
Qed.
End Shape.

(** X7.  [add_documents] keeps the collection in shape: if in every stored
    document ["properties"] and ["relationships"] are absent or documents of
    arrays, and the extracted entities are well-formed, the same holds after
    the call, whether it returns or raises; so every document can be
    traversed by [related_entities]. *)
Theorem add_documents_keeps_shape (extract_entities : string → list Entity)
    (self self' : MongoDBGraphStore) (documents : documents_arg)
    (r : result (list BulkWriteResult)) :
  forallb (λ doc, forallb well_formed (extract_entities (page_content doc)))
    (as_list documents) = true →
  entity_collection (collection self) = true →
  add_documents extract_entities self documents = (self', r) →
  entity_collection (collection self') = true
  ∧ forallb traversable (docs (collection self')) = true.
Proof.
  intros Hdocs Hc H.
  assert (entity_collection (collection self') = true) as Hc'.
  { unfold add_documents in H.
    destruct (add_documents_loop _ _ _ _) as [c' r'] eqn:E.
    injection H as <- _. cbn [collection].
    refine (loop_steps_where (λ e, well_formed e = true)
              (λ c c', entity_collection c = true → entity_collection c' = true)
              _ _ _ extract_entities _ _ _ _ _ _ E Hc).
    - auto.
    - auto.
    - intros e c1 c2 acc1 acc2 He. by apply entity_collection_step.
    - apply Forall_forall. intros doc Hdoc. rewrite forallb_forall in Hdocs.
      apply list_elem_of_In, Hdocs in Hdoc. rewrite forallb_forall in Hdoc.
      apply Forall_forall. intros x Hx. by apply Hdoc, list_elem_of_In. }
  split; [done|]. unfold entity_collection in Hc'.
  rewrite forallb_forall in Hc'. apply forallb_forall.
  intros d Hd. by apply entity_document_traversable, Hc'.
Qed.

(** ** add_documents: names that cannot be field names *)

Section Bad_keys.
Implicit Types (e : Entity) (c : Collection) (k : string).

Lemma set_field_keys k (v : value) (d : document) k' :
  k' ∈ map fst (set_field k v d) ↔ k' = k ∨ k' ∈ map fst d.
Proof.
  induction d as [|[k1 v1] d IH]; simpl.
  - rewrite list_elem_of_singleton. split; [by left|].
    intros [?|H]; [done|by apply elem_of_nil in H].
  - destruct (String.eqb_spec k1 k) as [->|Hne]; simpl.
    + rewrite !elem_of_cons. tauto.
    + rewrite !elem_of_cons, IH. tauto.
Qed.

Lemma dict_merge_keys (a b : document) k :
  k ∈ map fst (dict_merge a b) ↔ k ∈ map fst a ∨ k ∈ map fst b.
Proof.
  unfold dict_merge. revert a. induction b as [|[k1 v1] b IH]; intros a; simpl.
  - split; [by left|]. intros [?|H]; [done|by apply elem_of_nil in H].
  - rewrite IH, set_field_keys, elem_of_cons. cbn. tauto.
Qed.

Lemma dict_of_keys (items : document) k :
  k ∈ map fst (dict_of items) ↔ k ∈ map fst items.
Proof.
  rewrite (dict_merge_keys [] items). split; [|by right].
  intros [H|H]; [by apply elem_of_nil in H|done].
Qed.

(** A name with an empty component: the empty name, ["a."], [".a"],
    ["a..b"]. *)
Definition bad_name (k : string) : bool :=
  existsb (String.eqb "") (split_path k).

Lemma bad_name_component (k : string) :
  bad_name k = true → forallb valid_component (split_path k) = false.
Proof.
  unfold bad_name. intros (c & Hc & E)%existsb_exists.
  apply String.eqb_eq in E as <-. apply not_true_is_false.
  intros H. rewrite forallb_forall in H. by apply H in Hc.
Qed.

Definition has_bad_name e : bool :=
  existsb (λ kv, bad_name (fst kv)) (properties e)
  || existsb (λ kv, bad_name (fst kv)) (relationships e).

Lemma bad_name_invalid e : has_bad_name e = true →
  valid_update (update (operation e)) = false.
Proof.
  intros H. unfold valid_update. apply andb_false_iff. left.
  apply not_true_is_false. intros Hall. rewrite forallb_forall in Hall.
  assert (∃ p, p ∈ map fst (addToSet (update (operation e)))
               ∧ forallb valid_component (split_path p) = false)
    as (p & Hp & Hbad).
  { cbn [operation update addToSet].
    apply orb_true_iff in H as [H|H]; apply existsb_exists in H
      as ([k v] & Hkv & Hk); cbn [fst] in Hk; apply bad_name_component in Hk;
      apply list_elem_of_In in Hkv.
    - exists ("properties." ++ k)%string. split.
      + apply dict_merge_keys. left. apply dict_of_keys.
        rewrite map_map. apply list_elem_of_fmap. by exists (k, v).
      + rewrite split_properties. cbn [forallb]. by rewrite Hk, andb_false_r.
    - exists ("relationships." ++ k)%string. split.
      + apply dict_merge_keys. right. apply dict_of_keys.
        rewrite map_map. apply list_elem_of_fmap. by exists (k, v).
      + rewrite split_relationships. cbn [forallb].
        by rewrite Hk, andb_false_r. }
  apply list_elem_of_fmap in Hp as ([p' arg] & -> & Hin).
  rewrite Hall in Hbad; [done|].
  apply in_map_iff. exists (p', arg). split; [done|].
  apply in_or_app. right. by apply list_elem_of_In.
Qed.

Lemma execute_bad_name e c (acc : BulkWriteResult) :
  has_bad_name e = true → execute (operation e) c acc = Raise BulkWriteError.
Proof.
  intros H. apply bad_name_invalid in H. unfold execute.
  destruct (update_first _ _ _) as [r|] eqn:E.
  - apply update_first_Some in E as (i & d & _ & ->).
    unfold apply_update. by rewrite H.
  - cbn [upsert operation]. fold (operation e). unfold apply_update.
    by rewrite H.
Qed.

Lemma execute_raises_BulkWriteError (op : UpdateOne) c (acc : BulkWriteResult)
    (err : exn) :
  execute op c acc = Raise err → err = BulkWriteError.
Proof.
  assert (Hu : ∀ leaf path cur err,
             (∀ x err, leaf x = Raise err → err = BulkWriteError) →
             update_path leaf path cur = Raise err → err = BulkWriteError).
  { intros leaf path. induction path as [|k path IH]; intros cur err0 Hleaf;
      cbn [update_path]; [apply Hleaf|].
    destruct cur as [[| | | | |l|fs]|]; try (by intros [= <-]).
    - destruct (parse_index k); [|by intros [= <-]].
      destruct (update_path leaf path (l !! n)) eqn:E; [done|].
      cbn. intros [= <-]. by eapply IH.
    - destruct (update_path leaf path (get_field k fs)) eqn:E; [done|].
      cbn. intros [= <-]. by eapply IH.
    - destruct (update_path leaf path None) eqn:E; [done|].
      cbn. intros [= <-]. by eapply IH. }
  assert (Hat : ∀ leaf p d err,
             (∀ x err, leaf x = Raise err → err = BulkWriteError) →
             apply_at leaf p d = Raise err → err = BulkWriteError).
  { intros leaf p d err0 Hleaf. unfold apply_at.
    destruct (update_path leaf _ _) as [v|e0] eqn:E.
    - cbn. destruct v; by intros [= <-].
    - cbn. intros [= <-]. by eapply Hu. }
  assert (Hset : ∀ spec d err, apply_set spec d = Raise err → err = BulkWriteError).
  { intros spec. induction spec as [|[p v] spec IH]; intros d err0; cbn; [done|].
    destruct (apply_at (set_leaf v) p d) as [d1|e0] eqn:E; cbn.
    - apply IH.
    - intros [= <-]. eapply Hat; [|exact E]. done. }
  assert (Hadd : ∀ spec d err,
             apply_addToSet spec d = Raise err → err = BulkWriteError).
  { intros spec. induction spec as [|[p arg] spec IH]; intros d err0; cbn; [done|].
    destruct (each_arg arg) as [new|e0] eqn:Ea; cbn.
    - destruct (apply_at (add_leaf new) p d) as [d1|e1] eqn:E; cbn.
      + apply IH.
      + intros [= <-]. eapply Hat; [|exact E].
        intros x e2. by destruct x as [[]|]; intros [= <-].
    - intros [= <-]. destruct arg as [| | | | | |[|[k a] fs]]; try done.
      cbn in Ea. destruct (String.eqb k "$each"); [|done].
      destruct a, fs; by inversion Ea. }
  assert (Hup : ∀ u b d err, apply_update u b d = Raise err → err = BulkWriteError).
  { intros u b d err0. unfold apply_update.
    destruct (valid_update u); [|by intros [= <-]].
    destruct b.
    - destruct (apply_set _ d) as [d1|e0] eqn:E; cbn; [apply Hadd|].
      intros [= <-]. by eapply Hset.
    - cbn. apply Hadd. }
  unfold execute. destruct (update_first _ _ _) as [r|] eqn:E.
  - apply update_first_Some in E as (i & d & _ & ->).
    destruct (apply_update (update op) false d) eqn:E'; [done|].
    cbn. intros [= <-]. by eapply Hup.
  - destruct (upsert op); [|done].
    destruct (apply_update (update op) true _) eqn:E'; [done|].
    cbn. intros [= <-]. by eapply Hup.
Qed.
End Bad_keys.

Lemma run_ops_bad_name (es : list Entity) (e : Entity) (c : Collection)
    (acc : BulkWriteResult) :
  e ∈ es → has_bad_name e = true →
  ∃ c', run_ops (map operation es) c acc = (c', Raise BulkWriteError).
Proof.
  intros He Hbad. revert c acc.
  induction es as [|e0 es IH]; intros c acc; [by apply elem_of_nil in He|].
  cbn [map run_ops].
  destruct (execute (operation e0) c acc) as [[c1 acc1]|err] eqn:E.
  - apply elem_of_cons in He as [->|He]; [|by apply IH].
    by rewrite execute_bad_name in E.
  - apply execute_raises_BulkWriteError in E as ->. by exists c.
Qed.

(** X8.  A property or relationship name with an empty component (the empty
    name, ["a."], [".a"], ["a..b"]) gives an update path with an empty field
    name: the batch of a document that has such an entity is always rejected
    with [BulkWriteError], and when that entity comes first nothing is
    written. *)
Theorem add_documents_rejects_bad_names
    (extract_entities : string → list Entity) (self : MongoDBGraphStore)
    (doc : Document) (e : Entity) :
  e ∈ extract_entities (page_content doc) →
  has_bad_name e = true →
  (∃ self', add_documents extract_entities self (One doc)
            = (self', Raise BulkWriteError))
  ∧ (∀ es, extract_entities (page_content doc) = e :: es →
       add_documents extract_entities self (One doc)
       = (self, Raise BulkWriteError)).
Proof.
  intros He Hbad. unfold add_documents. cbn [as_list add_documents_loop].
  destruct (extract_entities (page_content doc)) as [|e0 es] eqn:Ees;
    [by apply elem_of_nil in He|].
  cbn [map]. split.
  - change (operation e0 :: map operation es) with (map operation (e0 :: es)).
    unfold bulk_write. cbn [map].
    change (operation e0 :: map operation es) with (map operation (e0 :: es)).
    destruct (run_ops_bad_name (e0 :: es) e (collection self) no_writes He Hbad)
      as [c' ->].
    by eexists.
  - intros es' [= -> ->]. cbn [bulk_write run_ops].
    rewrite execute_bad_name by done. by destruct self.
Qed.

(** ** related_entities: what comes back *)

Section Returned.
Implicit Types (self : MongoDBGraphStore) (d : document).

Lemma get_field_remove_field_eq (k : string) d :
  get_field k (remove_field k d) = None.
Proof.
  induction d as [|[k' v] d IH]; simpl; [done|].
  destruct (String.eqb k' k) eqn:E; simpl; [done|]. by rewrite E.
Qed.

Lemma mapM_elem {A B : Type} (f : A → result B) (l : list A) (r : list B)
    (y : B) :
  mapM f l = Ok r → y ∈ r → ∃ x, x ∈ l ∧ f x = Ok y.
Proof.
  revert r. induction l as [|x l IH]; intros r; simpl.
  - intros [= <-] Hy. by apply elem_of_nil in Hy.
  - destruct (f x) as [y0|] eqn:E; simpl; [|done].
    destruct (mapM f l) as [ys|]; simpl; [|done].
    intros [= <-] [->|Hy]%elem_of_cons.
    + exists x. split; [by left|done].
    + destruct (IH ys eq_refl Hy) as (x' & Hx' & E'). exists x'.
      split; [by right|done].
Qed.

(** What the search stages hand on are documents of the collection. *)
Lemma search_stages_sub self (seeds : list string) (depth : Z)
    (found : list document) d :
  run_stages (collection self) (search_stages self seeds depth)
    (docs (collection self)) = Ok found →
  d ∈ found → d ∈ docs (collection self).
Proof.
  unfold search_stages, pipeline. cbn [take run_stages run_stage mbind result_bind].
  rewrite resolve_self.
  destruct (mapM (graph_lookup _ _ _ _ _ _) _) as [ds2|] eqn:E2; [|done].
  cbn [mbind result_bind].
  destruct (mapM (replace_root _) _) as [ds4|] eqn:E4; [|done].
  cbn [mbind result_bind]. intros [= <-] Hd.
  destruct (mapM_elem _ _ _ d E4 Hd) as (x & Hx & Hroot).
  apply elem_of_concat in Hx as (xs & Hxs & Hx).
  apply list_elem_of_fmap in Hxs as (y & -> & Hy).
  destruct (mapM_elem _ _ _ y E2 Hy) as (s & _ & Hlook).
  unfold graph_lookup in Hlook.
  destruct (eval_in s all_targets) as [v|]; [|done].
  cbn [mbind result_bind] in Hlook. injection Hlook as <-.
  unfold unwind in Hx. rewrite get_field_set_field_eq in Hx.
  apply list_elem_of_fmap in Hx as (r & -> & Hr).
  unfold replace_root, eval_in in Hroot.
  cbn [eval eval_path mbind result_bind] in Hroot.
  rewrite get_field_set_field_eq in Hroot.
  apply list_elem_of_fmap in Hr as (r' & -> & Hr'). injection Hroot as <-.
  by eapply (search_bounded (docs (collection self)) "ID" "ID").
Qed.
End Returned.

(** X9.  Whatever [related_entities] returns was stored: every returned
    document is a document of the collection with its [_id] removed, and so
    has no [_id] field. *)
Theorem related_entities_returns_stored (self : MongoDBGraphStore)
    (seeds : list string) (depth : Z) (l : list document) (x : document) :
  related_entities self seeds depth = Ok l →
  x ∈ l →
  get_field "_id" x = None
  ∧ ∃ d, d ∈ docs (collection self) ∧ x = remove_field "_id" d.
Proof.
  unfold related_entities, aggregate.
  destruct (forallb valid_stage _); [|done]. rewrite run_pipeline.
  destruct (run_stages _ (search_stages _ _ _) _) as [found|] eqn:E; [|done].
  cbn [mbind result_bind]. intros [= <-] (d & -> & Hd)%list_elem_of_fmap.
  split; [apply get_field_remove_field_eq|]. exists d. split; [|done].
  apply first_by_key_sub in Hd as [Hd _]. by eapply search_stages_sub.
Qed.

(** ** related_entities: the starting entities *)

Section Seeds.
Implicit Types (self : MongoDBGraphStore) (d : document) (seeds : list string).

Definition seed_filter seeds : document :=
  [("ID", VDoc [("$in", VArr (map VStr seeds))])].

(** The [$in] condition selects what some single name selects. *)
Lemma matches_seed_filter seeds d :
  matches (seed_filter seeds) d
  = existsb (λ s, matches [("ID", VStr s)] d) seeds.
Proof.
  unfold matches, seed_filter. cbn. rewrite andb_true_r.
  induction seeds as [|s seeds IH]; [done|].
  cbn [map existsb]. rewrite IH. cbn. by rewrite andb_true_r.
Qed.

Lemma valid_pipeline self seeds (depth : Z) :
  forallb valid_stage (pipeline self seeds depth)
  = (0 <=? py_or depth (max_depth self))%Z.
Proof. unfold pipeline. cbn. apply andb_true_r. Qed.

Lemma related_entities_unfold self seeds (depth : Z) :
  related_entities self seeds depth
  = if (0 <=? py_or depth (max_depth self))%Z then
      ds ← mapM (graph_lookup (docs (collection self)) all_targets "ID" "ID"
                   "connections" (Z.to_nat (py_or depth (max_depth self))))
             (List.filter (matches (seed_filter seeds)) (docs (collection self)));
      run_stages (collection self) (drop 2 (pipeline self seeds depth)) ds
    else Raise OperationFailure.
Proof.
  unfold related_entities, aggregate. rewrite valid_pipeline.
  destruct (0 <=? _)%Z; [|done].
  unfold pipeline. cbn [run_stages run_stage mbind result_bind drop].
  by rewrite resolve_self.
Qed.
End Seeds.

(** X10.  Starting entities that are not stored give the empty list: if
    [find_entity_by_name] finds no document for any of the names, then
    [related_entities] returns [[]] for every depth the pipeline accepts. *)
Theorem related_entities_unknown_seeds (self : MongoDBGraphStore)
    (seeds : list string) (depth : Z) :
  (0 ≤ py_or depth (max_depth self))%Z →
  forallb (λ s, match find_entity_by_name self s with
                | [] => true
                | _ :: _ => false
                end) seeds = true →
  related_entities self seeds depth = Ok [].
Proof.
  intros Hdepth Hnone. rewrite related_entities_unfold.
  apply Z.leb_le in Hdepth. rewrite Hdepth.
  rewrite filter_none_in; [reflexivity|].
  intros d Hd. rewrite matches_seed_filter.
  apply not_true_is_false. intros (s & Hs & Hm)%existsb_exists.
  rewrite forallb_forall in Hnone. specialize (Hnone s Hs).
  unfold find_entity_by_name, find in Hnone.
  assert (d ∈ List.filter (matches [("ID", VStr s)]) (docs (collection self)))
    as Hin by (by apply elem_of_filter).
  destruct (List.filter _ _); [by apply elem_of_nil in Hin|done].
Qed.

(** X11.  A negative depth is passed on as it is and the pipeline is
    refused: [related_entities] raises whenever [max_depth or
    self.max_depth] is negative, whatever the collection and the starting
    entities. *)
Theorem related_entities_negative_depth (self : MongoDBGraphStore)
    (seeds : list string) (depth : Z) :
  (py_or depth (max_depth self) < 0)%Z →
  related_entities self seeds depth = Raise OperationFailure.
Proof.
  intros H. rewrite related_entities_unfold.
  by apply Z.leb_gt in H as ->.
Qed.

(** X12.  Only the set of starting entities matters: two lists with the
    same names, in any order and with any repetitions, give the same
    answer. *)
Theorem related_entities_seed_set (self : MongoDBGraphStore)
    (seeds1 seeds2 : list string) (depth : Z) :
  (∀ s, s ∈ seeds1 ↔ s ∈ seeds2) →
  related_entities self seeds1 depth = related_entities self seeds2 depth.
Proof.
  intros Hset. rewrite !related_entities_unfold.
  assert (List.filter (matches (seed_filter seeds1)) (docs (collection self))
          = List.filter (matches (seed_filter seeds2)) (docs (collection self)))
    as ->; [|done].
  apply filter_ext. intros d. rewrite !matches_seed_filter.
  apply eq_true_iff_eq. rewrite !existsb_exists.
  split; intros (s & Hs & Hm); exists s; (split; [|done]);
    apply list_elem_of_In; apply list_elem_of_In in Hs; by apply Hset.
Qed.

(** ** related_entities: the depth *)

Section Depth.
Variable coll : list document.
Hypothesis Hscalar : scalar_ids coll = true.
Implicit Types (r d : document) (frontier : list value)
  (visited found : list document).

Definition known visited r : bool := existsb (λ d, same_id d r) visited.

Lemma known_app visited r d :
  known visited r = true → known (visited ++ [d]) r = true.
Proof. unfold known. rewrite existsb_app. by intros ->. Qed.

Lemma known_self visited r : known (visited ++ [r]) r = true.
Proof.
  unfold known. rewrite existsb_app. cbn.
  rewrite (proj2 (same_id_spec r r) eq_refl). by rewrite orb_true_r.
Qed.

(** A round that finds only known documents changes nothing. *)
Lemma round_of_known (from_field : string) found
    (st : list document * list value * bool) :
  (∀ r, r ∈ found → known st.1.1 r = true) →
  fold_left (visit from_field) found st = st.
Proof.
  revert st. induction found as [|r found IH]; intros st H; [done|].
  cbn [fold_left]. destruct st as [[visited frontier] added].
  cbn [fst] in H. unfold visit at 2. fold (known visited r).
  rewrite (H r) by left. apply IH. intros r' Hr'. apply H. by right.
Qed.

(** After a round every found document is known, and the next frontier
    comes from found documents. *)
Lemma round_marks (from_field : string) found
    (st : list document * list value * bool) :
  let st' := fold_left (visit from_field) found st in
  (∀ r, known st.1.1 r = true → known st'.1.1 r = true)
  ∧ (∀ r, r ∈ found → known st'.1.1 r = true)
  ∧ (∀ x, x ∈ st'.1.2 →
       x ∈ st.1.2 ∨ ∃ v, v ∈ found ∧ x ∈ field_values from_field v).
Proof.
  revert st. induction found as [|r found IH]; intros st; cbn [fold_left].
  - split; [done|]. split; [by intros r ?%elem_of_nil|]. intros x Hx. by left.
  - destruct (IH (visit from_field st r)) as (H1 & H2 & H3).
    assert (Hstep : (∀ r', known st.1.1 r' = true →
                      known (visit from_field st r).1.1 r' = true)
                    ∧ known (visit from_field st r).1.1 r = true
                    ∧ ∀ x, x ∈ (visit from_field st r).1.2 →
                        x ∈ st.1.2 ∨ x ∈ field_values from_field r).
    { destruct st as [[visited frontier] added]. unfold visit.
      fold (known visited r). destruct (known visited r) eqn:E; cbn.
      - split; [done|]. split; [done|]. intros x Hx. by left.
      - split; [intros r'; apply known_app|]. split; [apply known_self|].
        intros x Hx. by apply elem_of_app in Hx. }
    destruct Hstep as (S1 & S2 & S3). split; [|split].
    + intros r' Hr'. by apply H1, S1.
    + intros r' [->|Hr']%elem_of_cons; [by apply H1|by apply H2].
    + intros x Hx. destruct (H3 x Hx) as [Hx'|(v & Hv & Hxv)].
      * destruct (S3 x Hx') as [?|?]; [by left|].
        right. exists r. split; [by left|done].
      * right. exists v. split; [by right|done].
Qed.

Lemma scalar_id d :
  d ∈ coll →
  match get_field "ID" d with Some (VArr _) => false | _ => true end = true.
Proof.
  intros Hd. unfold scalar_ids in Hscalar. rewrite forallb_forall in Hscalar.
  by apply Hscalar, list_elem_of_In.
Qed.

(** With scalar identifiers, a document reached from the identifiers of
    found documents was itself found. *)
Lemma second_round_known frontier r (frontier' : list value) found :
  found = List.filter (reached frontier "ID") coll →
  (∀ x, x ∈ frontier' → ∃ v, v ∈ found ∧ x ∈ field_values "ID" v) →
  r ∈ List.filter (reached frontier' "ID") coll →
  r ∈ found.
Proof.
  intros -> Hfr [Hr Hreach]%elem_of_filter. apply elem_of_filter.
  split; [done|]. unfold reached in *.
  pose proof (scalar_id r Hr) as Hsr.
  destruct (get_field "ID" r) as [y|] eqn:Ey; [|done].
  apply existsb_exists in Hreach as (x & Hx & Hm).
  apply list_elem_of_In, Hfr in Hx as (v & [Hv Hvreach]%elem_of_filter & Hxv).
  pose proof (scalar_id v Hv) as Hsv. unfold field_values in Hxv.
  destruct (get_field "ID" v) as [z|] eqn:Ez; [|by apply elem_of_nil in Hxv].
  assert (x = z) as ->.
  { destruct z; try done; by apply list_elem_of_singleton in Hxv. }
  assert (y = z) as ->; [|done].
  cbn in Hm. apply orb_true_iff in Hm as [Hm|Hm]; [by apply value_eqb_spec|].
  by destruct y.
Qed.

(** So the search is over after its first round, whatever depth it is
    allowed. *)
Lemma search_one_round (fuel : nat) frontier :
  search coll "ID" "ID" fuel frontier [] = search coll "ID" "ID" 0 frontier [].
Proof.
  destruct fuel as [|n]; [done|]. cbn [search].
  set (found := List.filter (reached frontier "ID") coll).
  pose proof (round_marks "ID" found ([], [], false)) as (_ & Hknown & Hfr).
  destruct (fold_left (visit "ID") found ([], [], false))
    as [[visited1 frontier1] added1] eqn:E1. cbn [fst snd] in Hknown, Hfr.
  destruct added1; [|done].
  assert (fold_left (visit "ID")
            (List.filter (reached frontier1 "ID") coll) (visited1, [], false)
          = (visited1, [], false)) as Hstop.
  { apply round_of_known. intros r Hr. cbn [fst]. apply Hknown.
    eapply second_round_known; [done| |exact Hr].
    intros x Hx. destruct (Hfr x Hx) as [Hx'|?]; [|done].
    by apply elem_of_nil in Hx'. }
  destruct n as [|n]; cbn [search]; by rewrite Hstop.
Qed.

Lemma graph_lookup_one_round (startWith : expr) (as_field : string)
    (depth : nat) d :
  graph_lookup coll startWith "ID" "ID" as_field depth d
  = graph_lookup coll startWith "ID" "ID" as_field 0 d.
Proof.
  unfold graph_lookup. destruct (eval_in d startWith) as [v|e]; [|done].
  cbn. by rewrite search_one_round.
Qed.
End Depth.

Lemma mapM_ext {A B} (f g : A → result B) (l : list A) :
  (∀ x, f x = g x) → mapM f l = mapM g l.
Proof.
  intros H. induction l as [|x l IH]; [done|]. cbn. by rewrite H, IH.
Qed.

(** X13.  The depth has no effect.  When no stored ["ID"] is an array (as
    in every collection that [add_documents] has filled), [related_entities]
    gives the same answer for all depths the pipeline accepts: the search
    looks up the ["ID"] of the documents it has found, finds them again, and
    stops after its first round. *)
Theorem related_entities_any_depth (self : MongoDBGraphStore)
    (seeds : list string) (depth1 depth2 : Z) :
  scalar_ids (docs (collection self)) = true →
  (0 ≤ py_or depth1 (max_depth self))%Z →
  (0 ≤ py_or depth2 (max_depth self))%Z →
  related_entities self seeds depth1 = related_entities self seeds depth2.
Proof.
  intros Hs H1 H2. rewrite !related_entities_unfold.
  apply Z.leb_le in H1, H2. rewrite H1, H2.
  rewrite (mapM_ext _ _ _
    (graph_lookup_one_round _ Hs all_targets "connections"
       (Z.to_nat (py_or depth1 (max_depth self))))).
  rewrite (mapM_ext _ _ _
    (graph_lookup_one_round _ Hs all_targets "connections"
       (Z.to_nat (py_or depth2 (max_depth self))))).
  done.
Qed.

(** ** related_entities: what is returned *)

Section Neighbours.
Implicit Types (self : MongoDBGraphStore) (d r x : document)
  (ds found visited : list document).

(** Every stored ["ID"] is a string. *)
Definition string_ids ds : bool :=
  forallb (λ d, match get_field "ID" d with
                | Some (VStr _) => true
                | _ => false
                end) ds.

Lemma string_id ds d :
  string_ids ds = true → d ∈ ds → ∃ n, get_field "ID" d = Some (VStr n).
Proof.
  unfold string_ids. rewrite forallb_forall. intros H Hd.
  apply list_elem_of_In, H in Hd.
  destruct (get_field "ID" d) as [[]|]; try done. by eexists.
Qed.

Lemma string_ids_scalar ds : string_ids ds = true → scalar_ids ds = true.
Proof.
  unfold string_ids, scalar_ids. rewrite !forallb_forall. intros H d Hd.
  specialize (H d Hd). by destruct (get_field "ID" d) as [[]|].
Qed.

Lemma elem_of_targets_of (fs : document) (q : value) :
  q ∈ targets_of fs
  ↔ ∃ t l v, (t, VArr l) ∈ fs ∧ v ∈ l ∧ target_of v = Some q.
Proof.
  unfold targets_of. rewrite elem_of_concat. split.
  - intros (ls & Hls & Hq). apply list_elem_of_fmap in Hls as ([t v] & -> & Hkv).
    cbn in Hq. destruct v as [| | | | |l|]; try by apply elem_of_nil in Hq.
    apply list_elem_of_omap in Hq as (v & Hv & E). by exists t, l, v.
  - intros (t & l & v & Hkv & Hv & E). exists (omap target_of l). split.
    + apply list_elem_of_fmap. by exists (t, VArr l).
    + apply list_elem_of_omap. by exists v.
Qed.

(** A document with a string ["ID"] is reached from the targets of [d]
    exactly when it is the target of one of the relationships of [d]. *)
Lemma reached_edge ds d r n :
  d ∈ ds → r ∈ ds → get_field "ID" r = Some (VStr n) →
  reached (start_values (Some (start_of d))) "ID" r = true ↔ edge ds d r.
Proof.
  intros Hd Hr Hn. unfold reached, edge. rewrite Hn. split.
  - intros (q & Hq & Hm)%existsb_exists. apply list_elem_of_In in Hq.
    assert (q = VStr n) as ->.
    { unfold eq_match in Hm. rewrite orb_false_r in Hm.
      by apply value_eqb_spec in Hm. }
    split; [done|]. split; [done|]. unfold start_of in Hq.
    destruct (get_field "relationships" d) as [[| | | | | |fs]|] eqn:E;
      cbn in Hq; try (by apply list_elem_of_singleton in Hq).
    apply elem_of_targets_of in Hq as (t & l & v & Hkv & Hv & Ev).
    exists fs, t, l, v. rewrite Ev. by repeat split.
  - intros (_ & _ & fs & t & l & v & E & Hkv & Hv & _ & Ev).
    apply existsb_exists. exists (VStr n). split.
    + apply list_elem_of_In. unfold start_of. rewrite E. cbn.
      apply elem_of_targets_of. by exists t, l, v.
    + unfold eq_match. rewrite orb_false_r. by apply value_eqb_spec.
Qed.

Lemma search_zero (coll : list document) (f t : string)
    (frontier : list value) visited :
  search coll f t 0 frontier visited
  = (fold_left (visit f) (List.filter (reached frontier t) coll)
       (visited, [], false)).1.1.
Proof.
  cbn [search]. by destruct (fold_left _ _ _) as [[? ?] []].
Qed.

Lemma round_sub (f : string) found (st : list document * list value * bool) r :
  r ∈ (fold_left (visit f) found st).1.1 → r ∈ st.1.1 ∨ r ∈ found.
Proof.
  revert st. induction found as [|y found IH]; intros st; cbn [fold_left].
  - by left.
  - intros [H|H]%IH; [|by right; right].
    destruct st as [[visited frontier] added]. unfold visit in H.
    destruct (existsb _ visited); cbn in H |- *; [by left|].
    apply elem_of_app in H as [H|H%list_elem_of_singleton]; [by left|].
    subst. right. by left.
Qed.

Lemma NoDup_fmap_eq {A B} (f : A → B) (l : list A) (a b : A) :
  NoDup (map f l) → a ∈ l → b ∈ l → f a = f b → a = b.
Proof.
  intros Hnd [i Hi]%list_elem_of_lookup [j Hj]%list_elem_of_lookup E.
  assert (i = j) as ->; [|congruence].
  eapply NoDup_lookup; [exact Hnd| |].
  - by rewrite list_lookup_fmap, Hi.
  - rewrite list_lookup_fmap, Hj. cbn. by rewrite E.
Qed.

(** The search of one round returns what the frontier reaches. *)
Lemma search_zero_elem (coll : list document) (frontier : list value) r :
  NoDup (map (get_field "_id") coll) →
  r ∈ search coll "ID" "ID" 0 frontier []
  ↔ r ∈ coll ∧ reached frontier "ID" r = true.
Proof.
  intros Hnd. rewrite search_zero.
  set (found := List.filter (reached frontier "ID") coll).
  rewrite <- (elem_of_filter (reached frontier "ID")). fold found. split.
  - intros [H|H]%round_sub; [by apply elem_of_nil in H|done].
  - intros Hr.
    pose proof (round_marks "ID" found ([], [], false)) as (_ & Hk & _).
    specialize (Hk r Hr). unfold known in Hk.
    apply existsb_exists in Hk as (r' & Hr' & E).
    apply list_elem_of_In in Hr'. apply same_id_spec in E.
    assert (r' = r) as <-; [|done].
    apply (NoDup_fmap_eq (get_field "_id") coll); [done| | |done].
    + apply round_sub in Hr' as [H|H]; [by apply elem_of_nil in H|].
      by apply elem_of_filter in H as [? _].
    + by apply elem_of_filter in Hr as [? _].
Qed.

Lemma first_by_key_complete ds (seen : list value) d :
  d ∈ ds → group_key d ∉ seen →
  ∃ d', d' ∈ first_by_key ds seen ∧ group_key d' = group_key d.
Proof.
  revert seen. induction ds as [|y ds IH]; intros seen Hd Hn.
  - by apply elem_of_nil in Hd.
  - cbn [first_by_key]. destruct (mem (group_key y) seen) eqn:E.
    + apply mem_elem_of in E. apply elem_of_cons in Hd as [->|Hd]; [done|].
      by apply IH.
    + destruct (value_eqb (group_key y) (group_key d)) eqn:Ek.
      * apply value_eqb_spec in Ek. exists y. split; [by left|done].
      * assert (group_key y ≠ group_key d) as Hne.
        { intros Heq%value_eqb_spec. congruence. }
        apply elem_of_cons in Hd as [->|Hd]; [done|].
        destruct (IH (group_key y :: seen) Hd) as (d' & Hd' & Ed').
        { intros [?|?]%elem_of_cons; [congruence|done]. }
        exists d'. split; [by right|done].
Qed.
End Neighbours.

(** X14.  What [related_entities] returns.  In a collection whose documents
    have distinct [_id]s, string ["ID"]s and relationships stored as arrays,
    and for every depth the pipeline accepts, the call returns, and its
    answer is the direct relationship targets of the starting entities:
    every returned document is a stored document, without its [_id], that
    some starting document names as a target; and every stored document so
    named is returned under its ["ID"]. *)
Theorem related_entities_direct_targets (self : MongoDBGraphStore)
    (seeds : list string) (depth : Z) :
  (0 ≤ py_or depth (max_depth self))%Z →
  forallb traversable (docs (collection self)) = true →
  string_ids (docs (collection self)) = true →
  NoDup (map (get_field "_id") (docs (collection self))) →
  ∃ l, related_entities self seeds depth = Ok l
    ∧ (∀ x, x ∈ l →
         ∃ d r, d ∈ seed_docs self seeds
                ∧ edge (docs (collection self)) d r
                ∧ x = remove_field "_id" r)
    ∧ (∀ d r, d ∈ seed_docs self seeds →
         edge (docs (collection self)) d r →
         ∃ x, x ∈ l ∧ get_field "ID" x = get_field "ID" r).
Proof.
  intros Hdepth Htrav Hstr Hnd.
  pose proof (string_ids_scalar _ Hstr) as Hsc.
  assert (Hconn : ∀ d r, d ∈ docs (collection self) →
            r ∈ connections_of self depth d
            ↔ edge (docs (collection self)) d r).
  { intros d r Hd. unfold connections_of.
    rewrite (search_one_round _ Hsc), (search_zero_elem _ _ _ Hnd). split.
    - intros [Hr Hre]. destruct (string_id _ _ Hstr Hr) as [n Hn].
      by apply (reached_edge _ d r n).
    - intros He. pose proof He as (_ & Hr & _). split; [done|].
      destruct (string_id _ _ Hstr Hr) as [n Hn].
      by apply (reached_edge (docs (collection self)) d r n). }
  unfold related_entities, aggregate. rewrite valid_pipeline.
  apply Z.leb_le in Hdepth as Hle. rewrite Hle.
  rewrite run_pipeline, run_search_stages; [|done|].
  2:{ intros d Hd. rewrite forallb_forall in Htrav.
      by apply Htrav, list_elem_of_In. }
  cbn [mbind result_bind]. eexists. split; [reflexivity|]. split.
  - intros x (r & -> & Hr)%list_elem_of_fmap.
    apply first_by_key_sub in Hr as [Hr _].
    apply elem_of_concat in Hr as (rs & Hrs & Hr).
    apply list_elem_of_fmap in Hrs as (d & -> & Hd).
    exists d, r. split; [done|]. split; [|done].
    apply Hconn; [|done]. by apply elem_of_filter in Hd as [? _].
  - intros d r Hd He.
    assert (r ∈ concat (map (connections_of self depth) (seed_docs self seeds)))
      as Hr.
    { apply elem_of_concat. exists (connections_of self depth d). split.
      - apply list_elem_of_fmap. by exists d.
      - apply Hconn; [|done]. by apply elem_of_filter in Hd as [? _]. }
    destruct (first_by_key_complete _ [] r Hr) as (r' & Hr' & Ek).
    { by intros ?%elem_of_nil. }
    exists (remove_field "_id" r'). split.
    + apply list_elem_of_fmap. by exists r'.
    + rewrite get_field_remove_field_ne by done.
      apply first_by_key_sub in Hr' as [Hr' _].
      apply elem_of_concat in Hr' as (rs & Hrs & Hr'').
      apply list_elem_of_fmap in Hrs as (d' & -> & Hd').
      apply Hconn in Hr''; [|by apply elem_of_filter in Hd' as [? _]].
      destruct Hr'' as (_ & Hr'm & _). destruct He as (_ & Hrm & _).
      destruct (string_id _ _ Hstr Hr'm) as [n' Hn'].
      destruct (string_id _ _ Hstr Hrm) as [n Hn].
      unfold group_key in Ek. rewrite Hn, Hn' in Ek. cbn in Ek.
      by rewrite Hn, Hn', Ek.
Qed.

(** ** similarity_search: the depth it searches with *)

(** X15.  [similarity_search] calls [related_entities] without a depth, so
    the search runs with the default of that parameter, 3: the [max_depth]
    the store was built with has no effect on what [similarity_search]
    returns. *)
Theorem similarity_search_ignores_max_depth
    (extract_entity_names : string → list string)
    (self : MongoDBGraphStore) (depth : Z) (input_document : string) :
  similarity_search extract_entity_names
    {| collection := collection self; max_depth := depth |} input_document
  = similarity_search extract_entity_names self input_document.
Proof. reflexivity. Qed.

(** ** extract_entities, extract_entity_names: the answer of the model *)

(** Both functions take the text of the model's answer and, before it is
    parsed as JSON, apply
    [content.removeprefix("```json").removesuffix("```").strip()]. *)
Module Answer.

(** A Python [str]: its code points. *)
Definition str : Type := list N.

Definition of_string (s : string) : str :=
  map N_of_ascii (list_ascii_of_string s).

(** [str.isspace] on one character, which is what [strip] removes. *)
Definition is_space (c : N) : bool :=
  ((9 <=? c) && (c <=? 13) || (28 <=? c) && (c <=? 32)
   || (c =? 133) || (c =? 160) || (c =? 5760)
   || (8192 <=? c) && (c <=? 8202)
   || (c =? 8232) || (c =? 8233) || (c =? 8239) || (c =? 8287)
   || (c =? 12288))%N.

Fixpoint startswith (p s : str) : bool :=
  match p, s with
  | [], _ => true
  | _ :: _, [] => false
  | a :: p', b :: s' => (a =? b)%N && startswith p' s'
  end.

Definition endswith (p s : str) : bool := startswith (rev p) (rev s).

Definition removeprefix (p s : str) : str :=
  if startswith p s then drop (length p) s else s.

Definition removesuffix (p s : str) : str :=
  match p with
  | [] => s
  | _ :: _ => if endswith p s then take (length s - length p) s else s
  end.

Fixpoint lstrip (s : str) : str :=
  match s with
  | [] => []
  | c :: s' => if is_space c then lstrip s' else s
  end.

Definition rstrip (s : str) : str := rev (lstrip (rev s)).

Definition strip (s : str) : str := rstrip (lstrip s).

Definition fence_json : str := Eval vm_compute in of_string "```json".
Definition fence : str := Eval vm_compute in of_string "```".

Definition json_string (content : str) : str :=
  strip (removesuffix fence (removeprefix fence_json content)).

Section Strings.
Implicit Types (p s t ws : str) (c : N).

Lemma startswith_app p s : startswith p (p ++ s) = true.
Proof. induction p as [|a p IH]; [done|]. cbn. by rewrite N.eqb_refl. Qed.

Lemma startswith_short p s t :
  (length p ≤ length s)%nat → startswith p (s ++ t) = startswith p s.
Proof.
  revert s. induction p as [|a p IH]; intros [|b s] H; cbn in *; try done.
  - lia.
  - rewrite IH; [done|lia].
Qed.

Lemma removeprefix_app p s : removeprefix p (p ++ s) = s.
Proof.
  unfold removeprefix. rewrite startswith_app. by rewrite drop_app_length.
Qed.

Lemma removesuffix_app p s : removesuffix p (s ++ p) = s.
Proof.
  unfold removesuffix. destruct p as [|a p]; [by rewrite app_nil_r|].
  unfold endswith. rewrite rev_app_distr, startswith_app.
  rewrite length_app, Nat.add_sub. by rewrite take_app_length.
Qed.

(** A suffix no longer than [t] is looked for, and removed, in [t]. *)
Lemma removesuffix_right p s t :
  (length p ≤ length t)%nat → removesuffix p (s ++ t) = s ++ removesuffix p t.
Proof.
  intros H. unfold removesuffix. destruct p as [|a p]; [done|].
  unfold endswith. rewrite rev_app_distr.
  rewrite startswith_short by (by rewrite !length_rev).
  destruct (startswith _ (rev t)); [|done].
  rewrite length_app.
  replace (length s + length t - length (a :: p))%nat
    with (length s + (length t - length (a :: p)))%nat by lia.
  by rewrite take_app_add.
Qed.

Lemma lstrip_spaces ws s :
  forallb is_space ws = true → lstrip (ws ++ s) = lstrip s.
Proof.
  induction ws as [|c ws IH]; [done|]. cbn.
  intros [-> H]%andb_true_iff. by apply IH.
Qed.

(** [lstrip] stops at the first character that is no whitespace. *)
Lemma lstrip_until s c t :
  is_space c = false → lstrip (s ++ c :: t) = lstrip s ++ c :: t.
Proof.
  intros Hc. induction s as [|x s IH]; cbn; [by rewrite Hc|].
  by destruct (is_space x).
Qed.

Lemma rstrip_spaces s ws :
  forallb is_space ws = true → rstrip (s ++ ws) = rstrip s.
Proof.
  intros H. unfold rstrip. rewrite rev_app_distr, lstrip_spaces; [done|].
  rewrite forallb_forall in *. intros x Hx. apply H. by apply in_rev.
Qed.

Lemma rstrip_until s c t :
  is_space c = false → rstrip (s ++ c :: t) = s ++ c :: rstrip t.
Proof.
  intros Hc. unfold rstrip.
  rewrite rev_app_distr. cbn [rev]. rewrite <- app_assoc. cbn [app].
  rewrite lstrip_until by done.
  rewrite rev_app_distr. cbn [rev]. rewrite rev_involutive.
  by rewrite <- app_assoc.
Qed.

Lemma lstrip_cons c t : is_space c = false → lstrip (c :: t) = c :: t.
Proof. cbn. by intros ->. Qed.

Lemma rstrip_cons c t : is_space c = false → rstrip (c :: t) = c :: rstrip t.
Proof. apply (rstrip_until []). Qed.

Lemma rstrip_only_spaces ws : forallb is_space ws = true → rstrip ws = [].
Proof. apply (rstrip_spaces []). Qed.

Lemma not_endswith_space p c s w :
  is_space c = false → is_space w = true →
  endswith (p ++ [c]) (s ++ [w]) = false.
Proof.
  intros Hc Hw. unfold endswith. rewrite !rev_app_distr. cbn.
  destruct (N.eqb_spec c w) as [->|]; [congruence|done].
Qed.
End Strings.
End Answer.

(** X16.  An answer that is exactly a fenced block, [```json], a body,
    [```], is reduced to its body without the surrounding whitespace. *)
Theorem json_string_fenced (body : Answer.str) :
  Answer.json_string (Answer.fence_json ++ body ++ Answer.fence)
  = Answer.strip body.
Proof.
  unfold Answer.json_string.
  by rewrite Answer.removeprefix_app, Answer.removesuffix_app.
Qed.

(** X17.  Whitespace after the closing fence keeps the fence: the suffix
    is looked for before the text is stripped, so an answer that ends with
    a newline after [```] loses its opening fence only, and what is handed
    to the JSON parser still ends with [```]. *)
Theorem json_string_keeps_closing_fence (body ws : Answer.str) :
  ws ≠ [] → forallb Answer.is_space ws = true →
  Answer.json_string (Answer.fence_json ++ body ++ Answer.fence ++ ws)
  = Answer.lstrip body ++ Answer.fence.
Proof.
  intros Hne Hws. unfold Answer.json_string.
  rewrite Answer.removeprefix_app.
  assert (Answer.removesuffix Answer.fence (body ++ Answer.fence ++ ws)
          = body ++ Answer.fence ++ ws) as ->.
  { destruct (exists_last Hne) as (ws' & w & ->).
    assert (Answer.is_space w = true) as Hw.
    { rewrite forallb_app in Hws. apply andb_true_iff in Hws as [_ Hw].
      cbn in Hw. by rewrite andb_true_r in Hw. }
    unfold Answer.removesuffix, Answer.fence.
    rewrite !app_assoc.
    by rewrite (Answer.not_endswith_space [96; 96]%N 96%N _ w). }
  unfold Answer.strip, Answer.fence. cbn [app].
  rewrite (Answer.lstrip_until body 96%N) by done.
  rewrite (Answer.rstrip_until (Answer.lstrip body) 96%N) by done.
  rewrite !Answer.rstrip_cons by done.
  by rewrite Answer.rstrip_only_spaces.
Qed.

(** X18.  Whitespace before the opening fence keeps the fence: the prefix
    is looked for before the text is stripped, so what is handed to the
    JSON parser still starts with [```json]. *)
Theorem json_string_keeps_opening_fence (ws rest : Answer.str) :
  ws ≠ [] → forallb Answer.is_space ws = true →
  Answer.json_string (ws ++ Answer.fence_json ++ rest)
  = Answer.fence_json
    ++ Answer.rstrip (Answer.removesuffix Answer.fence rest).
Proof.
  intros Hne Hws. unfold Answer.json_string.
  assert (Answer.removeprefix Answer.fence_json
            (ws ++ Answer.fence_json ++ rest)
          = ws ++ Answer.fence_json ++ rest) as ->.
  { destruct ws as [|w ws]; [done|]. cbn in Hws.
    apply andb_true_iff in Hws as [Hw _].
    unfold Answer.removeprefix, Answer.fence_json.
    cbn [app Answer.startswith].
    destruct (N.eqb_spec 96 w) as [<-|]; [by vm_compute in Hw|done]. }
  assert (Answer.removesuffix Answer.fence (ws ++ Answer.fence_json ++ rest)
          = ws ++ Answer.fence_json ++ Answer.removesuffix Answer.fence rest)
    as ->.
  { destruct rest as [|a [|b [|c rest]]].
    - rewrite app_nil_r.
      change Answer.fence_json with ([96; 96; 96; 106]%N ++ [115; 111; 110]%N).
      rewrite app_assoc, Answer.removesuffix_right by done.
      by rewrite <- app_assoc.
    - change (Answer.fence_json ++ [a])
        with ([96; 96; 96; 106; 115]%N ++ [111; 110; a]%N).
      rewrite app_assoc, Answer.removesuffix_right by done.
      rewrite <- app_assoc. cbn. by rewrite andb_false_r.
    - change (Answer.fence_json ++ [a; b])
        with ([96; 96; 96; 106; 115; 111]%N ++ [110; a; b]%N).
      rewrite app_assoc, Answer.removesuffix_right by done.
      rewrite <- app_assoc. cbn. by rewrite !andb_false_r.
    - rewrite app_assoc, Answer.removesuffix_right by (cbn; lia).
      by rewrite <- app_assoc. }
  unfold Answer.strip. rewrite Answer.lstrip_spaces by done.
  unfold Answer.fence_json. cbn [app].
  rewrite Answer.lstrip_cons by done.
  by rewrite !Answer.rstrip_cons by done.
Qed.

(** ** The theorems of this part at concrete inputs *)

Module Sample2.
Import Sample.

Definition first_text : Document := text "A knows B, B knows C.".
Definition second_text : Document := text "A founded it in 2018.".
Definition silent_text : Document := text "Nobody is named here.".

(** An entity with a property name that is no field path. *)
Definition entity_D : Entity :=
  {| ID := "D"; type := "Person";
     properties := [("a..b", VStr "x")]; relationships := [] |}.

(** A text about A, then D, then C. *)
Definition extract_D (text : string) : list Entity :=
  if String.eqb text "D is new." then [entity_D]
  else if String.eqb text "A founded it in 2018. D is new. C too."
  then [entity_A_again; entity_D; entity_C]
  else extract text.

Definition D_text : Document := text "D is new.".
Definition mixed_text : Document :=
  text "A founded it in 2018. D is new. C too.".

(** A first mention in an empty collection. *)
Definition organization_A : document :=
  [("_id", VOid 0); ("ID", VStr "A"); ("type", VStr "Organization");
   ("properties", VDoc [("position", VArr [VStr "Founder"]);
                        ("since", VArr [VInt 2018])]);
   ("relationships", VDoc [("friend", VArr [target "B"; target "C"])])].

(** A fenced answer. *)
Definition body : Answer.str :=
  Eval vm_compute in Answer.of_string " {} ".
Definition newline : Answer.str := [10%N].
End Sample2.

Lemma add_documents_app_witness :
  add_documents Sample.extract Sample.empty_store
    (Many [Sample2.first_text; Sample2.second_text])
  = (chain_after_second_text,
     Ok [{| matched_count := 0; upserted_count := 3 |};
         {| matched_count := 1; upserted_count := 0 |}]).
Proof.
  apply (add_documents_app Sample.extract Sample.empty_store Sample.chain
           chain_after_second_text [Sample2.first_text] [Sample2.second_text]
           [{| matched_count := 0; upserted_count := 3 |}]
           [{| matched_count := 1; upserted_count := 0 |}]); reflexivity.
Defined.

Lemma add_documents_stops_at_error_witness :
  add_documents Sample2.extract_D Sample.empty_store
    (Many ([Sample2.first_text]
           ++ Sample2.mixed_text :: [Sample2.silent_text]))
  = (chain_after_second_text, Raise BulkWriteError).
Proof.
  apply (add_documents_stops_at_error Sample2.extract_D Sample.empty_store
           Sample.chain chain_after_second_text
           [Sample2.first_text] [Sample2.silent_text]
           Sample2.mixed_text Sample2.second_text Sample2.D_text
           Sample2.entity_D [Sample.entity_C]
           [{| matched_count := 0; upserted_count := 3 |}]
           [{| matched_count := 1; upserted_count := 0 |}]
           BulkWriteError); reflexivity.
Defined.

Lemma add_documents_frame_witness :
  (3 ≤ length (docs (collection chain_after_second_text)))%nat
  ∧ ∃ d', docs (collection chain_after_second_text) !! 0%nat = Some d'
          ∧ ∀ f, f ≠ "properties" → f ≠ "relationships" →
              get_field f d' = get_field f Sample.doc_A.
Proof.
  apply (add_documents_frame Sample.extract Sample.chain
           chain_after_second_text (One Sample2.second_text)
           (Ok [{| matched_count := 1; upserted_count := 0 |}])
           0 Sample.doc_A); reflexivity.
Defined.

Lemma add_documents_accounts_witness :
  Forall2 (λ doc r, writes r = length (Sample.extract (page_content doc)))
    [Sample2.first_text; Sample2.second_text]
    [{| matched_count := 0; upserted_count := 3 |};
     {| matched_count := 1; upserted_count := 0 |}]
  ∧ length (docs (collection chain_after_second_text)) = (0 + 3)%nat.
Proof.
  apply (add_documents_accounts Sample.extract Sample.empty_store
           chain_after_second_text
           (Many [Sample2.first_text; Sample2.silent_text;
                  Sample2.second_text])
           [{| matched_count := 0; upserted_count := 3 |};
            {| matched_count := 1; upserted_count := 0 |}]).
  reflexivity.
Defined.

Lemma extracted_entities_are_found_witness :
  ∃ d, find_entity_by_name chain_after_second_text "A" = [d]
       ∧ get_field "ID" d = Some (VStr "A").
Proof.
  apply (extracted_entities_are_found Sample.extract Sample.chain
           chain_after_second_text (One Sample2.second_text)
           [{| matched_count := 1; upserted_count := 0 |}]
           Sample2.second_text Sample.entity_A_again).
  - apply chain_unique_ids.
  - reflexivity.
  - reflexivity.
  - simpl. left.
  - simpl. left.
Defined.

Lemma new_entity_is_inserted_witness :
  ∃ d', add_documents Sample.extract Sample.empty_store
          (One Sample2.second_text)
        = ({| collection := {| name := "entities"; docs := [] ++ [d'];
                               next_oid := 1 |};
              max_depth := 2 |},
           Ok [{| matched_count := 0; upserted_count := 1 |}])
        ∧ get_field "_id" d' = Some (VOid 0)
        ∧ get_field "ID" d' = Some (VStr "A")
        ∧ get_field "type" d' = Some (VStr "Organization")
        ∧ (∀ k v, (k, v) ∈ properties Sample.entity_A_again →
             stored "properties" k d' = [v])
        ∧ (∀ k vs, (k, vs) ∈ relationships Sample.entity_A_again →
             stored "relationships" k d' = add_each vs []
             ∧ NoDup (stored "relationships" k d')
             ∧ ∀ x, x ∈ stored "relationships" k d' ↔ x ∈ vs).
Proof.
  apply (new_entity_is_inserted Sample.extract Sample.empty_store
           Sample2.second_text Sample.entity_A_again); reflexivity.
Defined.

Lemma add_documents_keeps_shape_witness :
  entity_collection (collection chain_after_second_text) = true
  ∧ forallb traversable (docs (collection chain_after_second_text)) = true.
Proof.
  apply (add_documents_keeps_shape Sample.extract Sample.chain
           chain_after_second_text (One Sample2.second_text)
           (Ok [{| matched_count := 1; upserted_count := 0 |}]));
    reflexivity.
Defined.

Lemma add_documents_rejects_bad_names_witness :
  (∃ self', add_documents Sample2.extract_D Sample.chain (One Sample2.D_text)
            = (self', Raise BulkWriteError))
  ∧ (∀ es, Sample2.extract_D (page_content Sample2.D_text)
           = Sample2.entity_D :: es →
       add_documents Sample2.extract_D Sample.chain (One Sample2.D_text)
       = (Sample.chain, Raise BulkWriteError)).
Proof.
  apply (add_documents_rejects_bad_names Sample2.extract_D Sample.chain
           Sample2.D_text Sample2.entity_D).
  - simpl. left.
  - reflexivity.
Defined.

Lemma related_entities_returns_stored_witness :
  get_field "_id" (remove_field "_id" Sample.doc_B) = None
  ∧ ∃ d, d ∈ docs (collection Sample.cycle)
         ∧ remove_field "_id" Sample.doc_B = remove_field "_id" d.
Proof.
  apply (related_entities_returns_stored Sample.cycle ["A"; "B"] default_depth
           cycle_neighbours (remove_field "_id" Sample.doc_B)).
  - reflexivity.
  - vm_compute. left.
Defined.

Lemma related_entities_unknown_seeds_witness :
  related_entities Sample.chain ["Z"; "Y"] default_depth = Ok [].
Proof.
  apply (related_entities_unknown_seeds Sample.chain ["Z"; "Y"] default_depth).
  - vm_compute. discriminate.
  - reflexivity.
Defined.

Lemma related_entities_negative_depth_witness :
  related_entities Sample.chain ["A"] (-1) = Raise OperationFailure.
Proof.
  apply (related_entities_negative_depth Sample.chain ["A"] (-1)).
  reflexivity.
Defined.

Lemma related_entities_seed_set_witness :
  related_entities Sample.cycle ["A"; "B"] default_depth
  = related_entities Sample.cycle ["B"; "A"; "B"] default_depth.
Proof.
  apply (related_entities_seed_set Sample.cycle ["A"; "B"] ["B"; "A"; "B"]
           default_depth).
  intros s. rewrite !elem_of_cons, elem_of_nil. tauto.
Defined.

Lemma related_entities_any_depth_witness :
  related_entities Sample.chain ["A"] 1 = related_entities Sample.chain ["A"] 7.
Proof.
  apply (related_entities_any_depth Sample.chain ["A"] 1 7).
  - reflexivity.
  - vm_compute. discriminate.
  - vm_compute. discriminate.
Defined.

Lemma related_entities_direct_targets_witness :
  ∃ l, related_entities Sample.cycle ["C"] default_depth = Ok l
    ∧ (∀ x, x ∈ l →
         ∃ d r, d ∈ seed_docs Sample.cycle ["C"]
                ∧ edge (docs (collection Sample.cycle)) d r
                ∧ x = remove_field "_id" r)
    ∧ (∀ d r, d ∈ seed_docs Sample.cycle ["C"] →
         edge (docs (collection Sample.cycle)) d r →
         ∃ x, x ∈ l ∧ get_field "ID" x = get_field "ID" r).
Proof.
  apply (related_entities_direct_targets Sample.cycle ["C"] default_depth).
  - vm_compute. discriminate.
  - reflexivity.
  - reflexivity.
  - simpl. repeat (apply NoDup_cons; split;
      [intros H; repeat (apply elem_of_cons in H as [H|H]; [discriminate|]);
       by apply elem_of_nil in H|]). apply NoDup_nil_2.
Defined.

Lemma json_string_keeps_closing_fence_witness :
  Answer.json_string
    (Answer.fence_json ++ Sample2.body ++ Answer.fence ++ Sample2.newline)
  = Answer.lstrip Sample2.body ++ Answer.fence.
Proof.
  apply (json_string_keeps_closing_fence Sample2.body Sample2.newline).
  - discriminate.
  - reflexivity.
Defined.

Lemma json_string_keeps_opening_fence_witness :
  Answer.json_string
    (Sample2.newline ++ Answer.fence_json ++ Sample2.body ++ Answer.fence)
  = Answer.fence_json
    ++ Answer.rstrip
         (Answer.removesuffix Answer.fence (Sample2.body ++ Answer.fence)).
Proof.
  apply (json_string_keeps_opening_fence Sample2.newline
           (Sample2.body ++ Answer.fence)).
  - discriminate.
  - reflexivity.
Defined.
